(** * ext-utils: the module factory ([library/src/factory.js])

    A shallow embedding of the field merger [merge], of the liveness probe
    [checkModule] and the page lifecycle hooks built around it, of what
    [page.setup] returns, with the actions that it generates for the
    collections, of the component wrappers built by [component] and
    [reBrand], and of
    the module builder ([preperValidation] and [store]), followed by the
    properties established about them.

    The embedding keeps what the code observes: values with their
    truthiness, objects and functions behind references in a heap (so that
    sharing and copying can be told apart), exceptions as results, and the
    calls made on the state store as a trace.  Left out are accessor
    properties, symbols, [toJSON] methods, non-integer numbers, and the
    members that primitives and plain objects inherit from their
    prototypes. *)

From stdpp Require Import gmap strings list fin_maps fin_sets pretty.

Set Warnings "-register-all".

(** ** JavaScript values, heap and the JSON built-ins *)

Module JS.

(** Objects and functions live in a heap and are handled through
    references, so that sharing between two values is visible.  Numbers are
    restricted to integers.  Property reads see own data properties only,
    plus [Function.prototype.call] on functions. *)
Abbreviation loc := nat.

Inductive value :=
  | VUndef
  | VNull
  | VBool (b : bool)
  | VNum (n : Z)
  | VStr (s : string)
  | VRef (l : loc).

(** A function is either one supplied from outside the factory (identified
    by a number and interpreted by an environment [ext]) or the closure that
    [merge] builds around its captured [__merged] object. *)
Inductive fn :=
  | FExt (id : nat)
  | FJsonCopy (merged : loc).

Inductive cell :=
  | CObj (props : gmap string value)
  | CArr (items : list value)
  | CFun (f : fn).

Abbreviation heap := (gmap nat cell).

Inductive error :=
  | NotCallable        (* TypeError: x is not a function *)
  | NotAnObject        (* TypeError: cannot read properties of undefined *)
  | CyclicStructure    (* TypeError: converting circular structure to JSON *)
  | JsonSyntax         (* SyntaxError of JSON.parse *)
  | Exhausted          (* the traversal budget of the model ran out *)
  | Raised (tag : nat) (* an exception raised by an external function *).

Inductive res (A : Type) :=
  | Ok (a : A)
  | Throw (e : error).
Arguments Ok {A} a.
Arguments Throw {A} e.

#[global] Instance res_ret : MRet res := @Ok.
#[global] Instance res_bind : MBind res := λ A B k r,
  match r with
  | Ok a => k a
  | Throw e => Throw e
  end.

#[global] Instance value_eq_dec : EqDecision value.
Proof. solve_decision. Defined.
#[global] Instance fn_eq_dec : EqDecision fn.
Proof. solve_decision. Defined.

(** ToBoolean. *)
Definition truthy (v : value) : bool :=
  match v with
  | VUndef | VNull => false
  | VBool b => b
  | VNum n => negb (Z.eqb n 0)
  | VStr s => negb (String.eqb s "")
  | VRef _ => true
  end.

Definition chars (s : string) : list value :=
  (λ c, VStr (String c "")) <$> String.list_ascii_of_string s.

(** [o[k]] on a value: an own property of an object, an element or the
    length of an array or of a string. *)
Definition array_get (items : list value) (k : string) : value :=
  if String.eqb k "length" then VNum (Z.of_nat (length items))
  else match list_find (λ i, pretty i = k) (seq 0 (length items)) with
       | Some (_, i) => default VUndef (items !! i)
       | None => VUndef
       end.

Definition get_prop (h : heap) (o : value) (k : string) : value :=
  match o with
  | VRef l =>
      match h !! l with
      | Some (CObj props) => default VUndef (props !! k)
      | Some (CArr items) => array_get items k
      | _ => VUndef
      end
  | VStr s => array_get (chars s) k
  | _ => VUndef
  end.

(** Truthiness of [o.call]: every function inherits [call]; an object has
    it when it owns a property of that name. *)
Definition has_call (h : heap) (o : value) : bool :=
  match o with
  | VRef l =>
      match h !! l with
      | Some (CFun _) => true
      | Some (CObj props) => truthy (default VUndef (props !! "call"))
      | _ => false
      end
  | _ => false
  end.

(** The properties copied by a spread [{...o}]. *)
Definition indexed {A} (xs : list A) : gmap string A :=
  list_to_map (imap (λ i x, (pretty i, x)) xs).

Definition own_props (h : heap) (o : value) : gmap string value :=
  match o with
  | VRef l =>
      match h !! l with
      | Some (CObj props) => props
      | Some (CArr items) => indexed items
      | _ => ∅
      end
  | VStr s => indexed (chars s)
  | _ => ∅
  end.

Definition alloc (c : cell) (h : heap) : loc * heap :=
  let l := fresh (dom h) in (l, <[l:=c]> h).

(** *** JSON.stringify and JSON.parse

    The text produced by [JSON.stringify] is represented by its syntax
    tree. *)
Inductive json :=
  | JNull
  | JBool (b : bool)
  | JNum (n : Z)
  | JStr (s : string)
  | JObj (members : list (string * json))
  | JArr (elements : list json).

Inductive walk (A : Type) :=
  | Done (a : A)
  | Cyclic
  | NoFuel.
Arguments Done {A} a.
Arguments Cyclic {A}.
Arguments NoFuel {A}.

(** Members whose value serializes to nothing are left out of an object. *)
Fixpoint ser_members (f : value → walk (option json))
    (kvs : list (string * value)) : walk (list (string * json)) :=
  match kvs with
  | [] => Done []
  | (k, v) :: rest =>
      match f v with
      | Done o =>
          match ser_members f rest with
          | Done js => Done (match o with Some j => (k, j) :: js | None => js end)
          | Cyclic => Cyclic
          | NoFuel => NoFuel
          end
      | Cyclic => Cyclic
      | NoFuel => NoFuel
      end
  end.

(** Elements that serialize to nothing become [null] in an array. *)
Fixpoint ser_elements (f : value → walk (option json))
    (vs : list value) : walk (list json) :=
  match vs with
  | [] => Done []
  | v :: rest =>
      match f v with
      | Done o =>
          match ser_elements f rest with
          | Done js => Done (default JNull o :: js)
          | Cyclic => Cyclic
          | NoFuel => NoFuel
          end
      | Cyclic => Cyclic
      | NoFuel => NoFuel
      end
  end.

(** SerializeJSONProperty: [stack] holds the objects being serialized;
    meeting one of them again is a cycle.  [undefined] and functions
    serialize to nothing. *)
Fixpoint serialize (fuel : nat) (h : heap) (stack : list loc) (v : value)
    : walk (option json) :=
  match v with
  | VUndef => Done None
  | VNull => Done (Some JNull)
  | VBool b => Done (Some (JBool b))
  | VNum n => Done (Some (JNum n))
  | VStr s => Done (Some (JStr s))
  | VRef l =>
      match h !! l with
      | None | Some (CFun _) => Done None
      | Some (CObj props) =>
          if decide (l ∈ stack) then Cyclic
          else match fuel with
               | 0 => NoFuel
               | S n =>
                   match ser_members (serialize n h (l :: stack))
                           (map_to_list props) with
                   | Done js => Done (Some (JObj js))
                   | Cyclic => Cyclic
                   | NoFuel => NoFuel
                   end
               end
      | Some (CArr items) =>
          if decide (l ∈ stack) then Cyclic
          else match fuel with
               | 0 => NoFuel
               | S n =>
                   match ser_elements (serialize n h (l :: stack)) items with
                   | Done js => Done (Some (JArr js))
                   | Cyclic => Cyclic
                   | NoFuel => NoFuel
                   end
               end
      end
  end.

Definition stringify (h : heap) (v : value) : walk (option json) :=
  serialize (size h) h [] v.

(** JSON.parse builds every object and array anew. *)
Fixpoint parse (j : json) (h : heap) : value * heap :=
  match j with
  | JNull => (VNull, h)
  | JBool b => (VBool b, h)
  | JNum n => (VNum n, h)
  | JStr s => (VStr s, h)
  | JObj members =>
      let '(props, h1) :=
        (fix parse_members (kjs : list (string * json)) (h : heap) :=
           match kjs with
           | [] => ([], h)
           | (k, j) :: rest =>
               let '(v, h1) := parse j h in
               let '(props, h2) := parse_members rest h1 in
               ((k, v) :: props, h2)
           end) members h in
      let '(l, h2) := alloc (CObj (list_to_map props)) h1 in
      (VRef l, h2)
  | JArr elements =>
      let '(items, h1) :=
        (fix parse_elements (js : list json) (h : heap) :=
           match js with
           | [] => ([], h)
           | j :: rest =>
               let '(v, h1) := parse j h in
               let '(items, h2) := parse_elements rest h1 in
               (v :: items, h2)
           end) elements h in
      let '(l, h2) := alloc (CArr items) h1 in
      (VRef l, h2)
  end.

(** The two local recursions of [parse], by name. *)
Definition parse_members
    : list (string * json) → heap → list (string * value) * heap :=
  fix parse_members (kjs : list (string * json)) (h : heap) :=
    match kjs with
    | [] => ([], h)
    | (k, j) :: rest =>
        let '(v, h1) := parse j h in
        let '(props, h2) := parse_members rest h1 in
        ((k, v) :: props, h2)
    end.

Definition parse_elements : list json → heap → list value * heap :=
  fix parse_elements (js : list json) (h : heap) :=
    match js with
    | [] => ([], h)
    | j :: rest =>
        let '(v, h1) := parse j h in
        let '(items, h2) := parse_elements rest h1 in
        (v :: items, h2)
    end.

(** [JSON.parse(JSON.stringify(v))]. *)
Definition json_copy (h : heap) (v : value) : res (value * heap) :=
  match stringify h v with
  | Done (Some j) => Ok (parse j h)
  | Done None => Throw JsonSyntax
  | Cyclic => Throw CyclicStructure
  | NoFuel => Throw Exhausted
  end.

(** *** Structure and sharing

    [repr h v j]: in heap [h] the value [v] is the JSON document [j], with
    the members of every object in the order in which [stringify] walks
    them. *)
Inductive repr (h : heap) : value → json → Prop :=
  | repr_null : repr h VNull JNull
  | repr_bool b : repr h (VBool b) (JBool b)
  | repr_num n : repr h (VNum n) (JNum n)
  | repr_str s : repr h (VStr s) (JStr s)
  | repr_obj l props members :
      h !! l = Some (CObj props) →
      members.*1 = (map_to_list props).*1 →
      (∀ k v j, props !! k = Some v → (k, j) ∈ members → repr h v j) →
      repr h (VRef l) (JObj members)
  | repr_arr l items elements :
      h !! l = Some (CArr items) →
      length elements = length items →
      (∀ i v j, items !! i = Some v → elements !! i = Some j → repr h v j) →
      repr h (VRef l) (JArr elements).

(** Structural equality of a value of heap [h1] and a value of heap [h2]:
    equal primitives, the same function, or objects (arrays) with the same
    keys (length) and structurally equal members. *)
Inductive struct_eq (h1 h2 : heap) : value → value → Prop :=
  | se_undef : struct_eq h1 h2 VUndef VUndef
  | se_null : struct_eq h1 h2 VNull VNull
  | se_bool b : struct_eq h1 h2 (VBool b) (VBool b)
  | se_num n : struct_eq h1 h2 (VNum n) (VNum n)
  | se_str s : struct_eq h1 h2 (VStr s) (VStr s)
  | se_fun l f :
      h1 !! l = Some (CFun f) → h2 !! l = Some (CFun f) →
      struct_eq h1 h2 (VRef l) (VRef l)
  | se_obj l1 l2 props1 props2 :
      h1 !! l1 = Some (CObj props1) →
      h2 !! l2 = Some (CObj props2) →
      dom props1 = dom props2 →
      (∀ k v1 v2, props1 !! k = Some v1 → props2 !! k = Some v2 →
                  struct_eq h1 h2 v1 v2) →
      struct_eq h1 h2 (VRef l1) (VRef l2)
  | se_arr l1 l2 items1 items2 :
      h1 !! l1 = Some (CArr items1) →
      h2 !! l2 = Some (CArr items2) →
      length items1 = length items2 →
      (∀ i v1 v2, items1 !! i = Some v1 → items2 !! i = Some v2 →
                  struct_eq h1 h2 v1 v2) →
      struct_eq h1 h2 (VRef l1) (VRef l2).

(** The objects and arrays met when following properties and elements
    from a value. *)
Definition children (c : cell) : list value :=
  match c with
  | CObj props => (map_to_list props).*2
  | CArr items => items
  | CFun _ => []
  end.

Inductive reachable (h : heap) : value → loc → Prop :=
  | reach_here l c : h !! l = Some c → reachable h (VRef l) l
  | reach_child l c v l' :
      h !! l = Some c → v ∈ children c → reachable h v l' →
      reachable h (VRef l) l'.

(** [v], in heap [h'], is a new copy of the document [j] made from heap
    [h]: the old heap is intact, [v] is the document, and no object of the
    old heap can be reached from [v]. *)
Definition fresh_copy (h : heap) (j : json) (v : value) (h' : heap) : Prop :=
  h ⊆ h' ∧ repr h' v j ∧ ∀ l, reachable h' v l → l ∉ dom h.

Fixpoint jsize (j : json) : nat :=
  match j with
  | JObj members =>
      Datatypes.S
        ((fix sum (kjs : list (string * json)) :=
            match kjs with
            | [] => 0
            | (_, j) :: rest => jsize j + sum rest
            end) members)
  | JArr elements =>
      Datatypes.S
        ((fix sum (js : list json) :=
            match js with
            | [] => 0
            | j :: rest => jsize j + sum rest
            end) elements)
  | _ => 1
  end.

(** *** Calls *)
Section Calls.
Variable ext : nat → heap → res (value * heap).

Definition call_fn (f : fn) (h : heap) : res (value * heap) :=
  match f with
  | FExt id => ext id h
  | FJsonCopy merged => json_copy h (VRef merged)
  end.

(** [f()] *)
Definition invoke (h : heap) (f : value) : res (value * heap) :=
  match f with
  | VRef l =>
      match h !! l with
      | Some (CFun f) => call_fn f h
      | _ => Throw NotCallable
      end
  | _ => Throw NotCallable
  end.
End Calls.

End JS.

(** ** The field merger *)

Module Merger.
Import JS.

Section Merge.
Variable ext : nat → heap → res (value * heap).

(** [o && o[name]] *)
Definition guarded_get (h : heap) (o : value) (name : string) : value :=
  if truthy o then get_prop h o name else o.

(** [[model && model[name], collections && collections[name], !!user]
      .filter((condition) => condition)] *)
Definition counted (h : heap) (name : string)
    (model collections user : value) : list value :=
  filter (λ c, truthy c = true)
    [ guarded_get h model name;
      guarded_get h collections name;
      VBool (truthy user) ].

(** The running state of the merging branch: the properties gathered in
    [merged] so far, and [isFunc] (only its truthiness is ever observed).
    Each spread [{ ...merged, ...src }] yields a new object that replaces
    the previous [merged], which nothing else refers to; the object is
    allocated once, when it leaves the branch. *)
Record acc := Acc { merged : gmap string value; isFunc : bool }.

(** One block
    [if (src) { isFunc = isFunc || src.call;
                merged = src.call ? { ...merged, ...src() }
                                  : { ...merged, ...src }; }]
    where [src] is an expression read in the current heap. *)
Definition absorb (src : heap → value) (a : acc) (h : heap)
    : res (acc * heap) :=
  let s := src h in
  if truthy s then
    if has_call h s then
      ' (r, h') ← invoke ext h s;
      Ok (Acc (own_props h' r ∪ merged a) true, h')
    else
      Ok (Acc (own_props h s ∪ merged a) (isFunc a), h)
  else Ok (a, h).

Definition merge (name : string)
    (model collections complexTypes user : value) (h : heap)
    : res (value * heap) :=
  let conditions := counted h name model collections user in
  if decide (1 < length conditions) then
    ' (a, h) ← absorb (λ _, user) (Acc ∅ false) h;
    ' (a, h) ← absorb (λ h, guarded_get h model name) a h;
    ' (a, h) ← absorb (λ h, guarded_get h collections name) a h;
    ' (a, h) ← absorb (λ h, guarded_get h complexTypes name) a h;
    let '(m, h) := alloc (CObj (merged a)) h in
    if isFunc a then
      let '(f, h) := alloc (CFun (FJsonCopy m)) h in
      Ok (VRef f, h)
    else Ok (VRef m, h)
  else if truthy (guarded_get h model name) then
    Ok (get_prop h model name, h)
  else if truthy (guarded_get h collections name) then
    Ok (get_prop h collections name, h)
  else if truthy (guarded_get h complexTypes name) then
    Ok (get_prop h complexTypes name, h)
  else Ok (user, h).
End Merge.

(** The sources of a call that are present, in the order in which the
    closing [else if] chain of [merge] looks at them. *)
Definition sources (h : heap) (name : string)
    (model collections complexTypes user : value) : list value :=
  filter (λ s, truthy s = true)
    [ guarded_get h model name;
      guarded_get h collections name;
      guarded_get h complexTypes name;
      user ].

(** The four sources in the order in which the merging branch takes them
    up. *)
Definition in_merge_order (h : heap) (name : string)
    (model collections complexTypes user : value) : list value :=
  [ user;
    guarded_get h model name;
    guarded_get h collections name;
    guarded_get h complexTypes name ].

End Merger.

(** ** The liveness probe and the page lifecycle hooks *)

Module Lifecycle.
Import JS.

Definition validationField : string := "@@".
Definition fetchedField : string := "@tmu_fetch".

(** A mutation [(state, payload) => { ... }] as the change it makes to the
    module state. *)
Definition mutation : Type := gmap string value → value → gmap string value.

(** The module definition handed to [page] as [storeModule]; [mutations] is
    [None] when the definition has no such member. *)
Record module_def := ModuleDef {
  namespaced : bool;
  state : gmap string value;
  mutations : option (gmap string mutation);
}.

(** [{ route, from, next }] and the router context it is taken from. *)
Record route_args := RouteArgs { route : value; from : value; next : value }.
Record context := Context {
  currentRoute : value; previousRoute : value; redirect : value }.

(** The state store is an external collaborator, consumed through the
    members the factory uses: [state[name]], [_mutations[path]] (as a
    truth value), [commit], [registerModule], [unregisterModule] and the
    synchronous part of [dispatch]. *)
Class StoreAPI (S : Type) := {
  state_of : S → string → option (gmap string value);
  handlers_at : S → string → bool;
  commit : string → value → S → S;
  registerModule : string → module_def → S → S;
  unregisterModule : string → S → S;
  dispatch : string → route_args → S → S;
}.

(** Calls made on the store and the host, oldest first. *)
Inductive call :=
  | Commit (path : string) (payload : value)
  | RegisterModule (name : string)
  | UnregisterModule (name : string)
  | Dispatch (path : string) (args : route_args)
  | ClearTimeout (handle : value)
  | Invoke (f : value).

Record world (S : Type) := World {
  store : S;
  js_heap : JS.heap;
  calls : list call;
  issued : nat;   (* tokens handed out by uuid.comb so far *)
}.
Arguments World {S}.
Arguments store {S}.
Arguments js_heap {S}.
Arguments calls {S}.
Arguments issued {S}.

(** Synchronous code: it may throw, and leaves a world behind either way. *)
Definition M (S A : Type) : Type := world S → res A * world S.

Definition ret {S A} (a : A) : M S A := λ w, (Ok a, w).
Definition throw {S A} (e : error) : M S A := λ w, (Throw e, w).
#[global] Instance M_bind {S} : MBind (M S) := λ A B k m w,
  match m w with
  | (Ok a, w') => k a w'
  | (Throw e, w') => (Throw e, w')
  end.

(** Whether a module definition declares the validation mutation:
    [storeModule.mutations[validationField]] as a truth value, where the
    member [mutations] exists. *)
Definition has_validation (m : module_def) : bool :=
  match mutations m with
  | Some ms => bool_decide (is_Some (ms !! validationField))
  | None => false
  end.

(** How a promise ends. *)
Inductive settled := Fulfilled | Rejected.

(** What a hook hands back to its caller: nothing, or the promise chain it
    built. *)
Inductive returned := RetUndefined | RetChain.

(** The hooks that [page] installs when it is given a [storeModule]
    (otherwise the page keeps its own hooks untouched). *)
Section Page.
Context {S : Type} `{StoreAPI S}.
(** The functions of the environment, as in [JS.invoke]. *)
Variable ext : nat → JS.heap → res (value * JS.heap).
(** [uuid.comb()]: the token of the n-th call. *)
Variable comb : nat → string.
Variable storeModule : module_def.
Variable moduleName : string.
(** The hooks of the page given to [page], if any. *)
Variable user_preFetch : option (context → world S → settled * world S).
Variable user_created user_mounted user_destroyed : option (M S unit).

Definition on_store (c : call) (f : S → S) : M S unit :=
  λ w, (Ok (), World (f (store w)) (js_heap w) (calls w ++ [c]) (issued w)).

Definition do_commit (path : string) (payload : value) : M S unit :=
  on_store (Commit path payload) (commit path payload).
Definition do_register : M S unit :=
  on_store (RegisterModule moduleName) (registerModule moduleName storeModule).
Definition do_unregister : M S unit :=
  on_store (UnregisterModule moduleName) (unregisterModule moduleName).
Definition do_dispatch (path : string) (args : route_args) : M S unit :=
  on_store (Dispatch path args) (dispatch path args).

Definition uuid_comb : M S string :=
  λ w, (Ok (comb (issued w)),
        World (store w) (js_heap w) (calls w) (Datatypes.S (issued w))).

Definition get_store : M S S := λ w, (Ok (store w), w).

(** [if (cb) cb()] *)
Definition call_if {A} (cb : option (M S A)) : M S unit :=
  match cb with
  | Some f => _ ← f; ret ()
  | None => ret ()
  end.

(** [(store.state[moduleName] || {})[field]] *)
Definition read_field (s : S) (field : string) : value :=
  match state_of s moduleName with
  | Some st => default VUndef (st !! field)
  | None => VUndef
  end.

Definition checkModule (success failure : option (M S unit)) : M S unit :=
  match mutations storeModule with
  | None => throw NotAnObject   (* storeModule.mutations is undefined *)
  | Some ms =>
      if bool_decide (is_Some (ms !! validationField)) then
        comb ← uuid_comb;
        let mutationName := moduleName +:+ "/" +:+ validationField in
        s ← get_store;
        if bool_decide (is_Some (state_of s moduleName))
           && handlers_at s mutationName then
          _ ← do_commit mutationName (VStr comb);
          s ← get_store;
          let value := read_field s validationField in
          if bool_decide (value = VStr comb) then call_if success
          else call_if failure
        else call_if failure
      else ret ()
  end.

(** [store.state[moduleName][fetchedField]] followed by the reading of
    [fetched.timeout]; both throw on [undefined]. *)
Definition read_fetched : M S value :=
  s ← get_store;
  match state_of s moduleName with
  | None => throw NotAnObject
  | Some st => ret (default VUndef (st !! fetchedField))
  end.

Definition member (o : value) (k : string) : M S value :=
  match o with
  | VUndef | VNull => throw NotAnObject
  | _ => λ w, (Ok (get_prop (js_heap w) o k), w)
  end.

(** [fn()] for a function of the environment. *)
Definition invoke_ext (f : value) : M S unit :=
  λ w, match invoke ext (js_heap w) f with
       | Ok (_, h') =>
           (Ok (), World (store w) h' (calls w ++ [Invoke f]) (issued w))
       | Throw e => (Throw e, w)
       end.

Definition log (c : call) : M S unit :=
  λ w, (Ok (), World (store w) (js_heap w) (calls w ++ [c]) (issued w)).

(** The part of [page.preFetch] that follows the registration, up to the
    call of [store.dispatch]: the reading of [fetched], the clearing of
    its timeout, and the dispatch of [initialize]. *)
Definition start_initialize (ctx : context) : M S (returned * value) :=
  fetched ← read_fetched;
  timeout ← member fetched "timeout";
  _ ← (if truthy timeout then log (ClearTimeout timeout) else ret ());
  _ ← do_dispatch (moduleName +:+ "/initialize")
        (RouteArgs (currentRoute ctx) (previousRoute ctx) (redirect ctx));
  ret (RetUndefined, fetched).

(** The synchronous run of [page.preFetch].  It yields what the hook
    returns, paired with the value of the local [fetched] that the
    callbacks of the promise chain ([preFetch_chain] below) capture. *)
Definition preFetch (ctx : context) : M S (returned * value) :=
  _ ← checkModule (Some do_unregister) None;
  _ ← do_register;
  start_initialize ctx.

(** The two [then] callbacks chained on the dispatched [initialize],
    given how [initialize] settled; the result is how the chain settles.
    A callback that throws rejects the chain. *)
Definition preFetch_chain (ctx : context) (fetched : value)
    (initialize : settled) : world S → settled * world S :=
  λ w,
  match initialize with
  | Rejected => (Rejected, w)
  | Fulfilled =>
      let '(r, w1) :=
        match user_preFetch with
        | Some f => f ctx w
        | None => (Fulfilled, w)
        end in
      match r with
      | Rejected => (Rejected, w1)
      | Fulfilled =>
          let last :=
            resolve ← member fetched "resolve";
            _ ← (if truthy resolve then invoke_ext resolve else ret ());
            do_commit (moduleName +:+ "/" +:+ fetchedField) (VBool true) in
          match last w1 with
          | (Ok _, w2) => (Fulfilled, w2)
          | (Throw _, w2) => (Rejected, w2)
          end
      end
  end.

Definition created : M S unit := call_if user_created.

Definition mounted : M S unit :=
  _ ← do_commit (moduleName +:+ "/" +:+ fetchedField) (VBool false);
  call_if user_mounted.

Definition destroyed : M S unit :=
  _ ← call_if user_destroyed;
  checkModule (Some do_unregister) None.

(** The outcome of the probe proper, for a store [s] and a token [t]:
    it succeeds when the module is registered, the validation mutation is
    installed, and the token committed through it is read back. *)
Definition probe_runs (s : S) : bool :=
  bool_decide (is_Some (state_of s moduleName))
  && handlers_at s (moduleName +:+ "/" +:+ validationField).

Definition probe_reads_back (s : S) (t : string) : bool :=
  let s' := commit (moduleName +:+ "/" +:+ validationField) (VStr t) s in
  bool_decide
    (match state_of s' moduleName with
     | Some st => default VUndef (st !! validationField)
     | None => VUndef
     end = VStr t).

Definition probe_succeeds (s : S) (t : string) : bool :=
  probe_runs s && probe_reads_back s t.

(** The world once the probe has drawn its token, and once it has
    committed it. *)
Definition drawn (w : world S) : world S :=
  World (store w) (js_heap w) (calls w) (Datatypes.S (issued w)).
Definition committed (w : world S) : world S :=
  let mutationName := moduleName +:+ "/" +:+ validationField in
  World (commit mutationName (VStr (comb (issued w))) (store w)) (js_heap w)
    (calls w ++ [Commit mutationName (VStr (comb (issued w)))])
    (Datatypes.S (issued w)).

(** The lifecycle events of the views built from the page, and the
    world they leave behind. *)
Inductive transition :=
  | TPreFetch (ctx : context)
  | TSettle (ctx : context) (fetched : value) (initialize : settled)
  | TCreated
  | TMounted
  | TDestroyed.

Definition step (w : world S) (t : transition) : world S :=
  match t with
  | TPreFetch ctx => (preFetch ctx w).2
  | TSettle ctx fetched initialize => (preFetch_chain ctx fetched initialize w).2
  | TCreated => (created w).2
  | TMounted => (mounted w).2
  | TDestroyed => (destroyed w).2
  end.

Definition run (ts : list transition) (w : world S) : world S :=
  foldl step w ts.
End Page.

End Lifecycle.

(** ** A reference store

    A store with the behaviour the factory relies on, after Vuex: a tree of
    modules by name, the state of each, and the handlers installed for a
    mutation path by the modules in the order of their installation.
    Actions are not run here: the default [initialize] is the empty
    function. *)

Module Vuex.
Import JS Lifecycle.

Record vstore := VStore {
  vs_modules : gmap string module_def;
  vs_state : gmap string (gmap string value);
  vs_installed : list (string * module_def);
}.

Definition empty_store : vstore := VStore ∅ ∅ [].

Fixpoint strip_prefix (p s : string) : option string :=
  match p with
  | EmptyString => Some s
  | String a p' =>
      match s with
      | String b s' => if Ascii.eqb a b then strip_prefix p' s' else None
      | EmptyString => None
      end
  end.

(** The handler that module [m], installed under [name], contributes to
    the mutation path [path]. *)
Definition handler_of (name : string) (m : module_def) (path : string)
    : option mutation :=
  ms ← mutations m;
  if namespaced m then k ← strip_prefix (name +:+ "/") path; ms !! k
  else ms !! path.

(** [store._mutations[path]] *)
Definition handlers_for (path : string) (installed : list (string * module_def))
    : list (string * mutation) :=
  omap (λ nm, (nm.1,.) <$> handler_of nm.1 nm.2 path) installed.

Definition run_handler (payload : value)
    (st : gmap string (gmap string value)) (h : string * mutation)
    : gmap string (gmap string value) :=
  match st !! h.1 with
  | Some local => <[h.1 := h.2 local payload]> st
  | None => st
  end.

Definition vcommit (path : string) (payload : value) (s : vstore) : vstore :=
  VStore (vs_modules s)
    (foldl (run_handler payload) (vs_state s)
       (handlers_for path (vs_installed s)))
    (vs_installed s).

(** Registering gives the module the state that its definition declares.
    Vuex takes a plain [state] object as it is, so a definition that is
    registered again comes back with the values last committed to it,
    where a [state] function gives a new object each time; the store here
    follows the second.  The facts about the registry read whether a
    module has a state and which handlers are installed, never what the
    state of a module registered again holds. *)
Definition vregister (name : string) (m : module_def) (s : vstore) : vstore :=
  VStore (<[name := m]> (vs_modules s))
    (<[name := state m]> (vs_state s))
    (vs_installed s ++ [(name, m)]).

(** Unregistering removes the module and its state, and installs the
    handlers of the remaining modules afresh. *)
Definition vunregister (name : string) (s : vstore) : vstore :=
  VStore (delete name (vs_modules s))
    (delete name (vs_state s))
    (map_to_list (delete name (vs_modules s))).

#[global] Instance vstore_api : StoreAPI vstore := {
  state_of s name := vs_state s !! name;
  handlers_at s path :=
    match handlers_for path (vs_installed s) with [] => false | _ => true end;
  commit := vcommit;
  registerModule := vregister;
  unregisterModule := vunregister;
  dispatch _ _ s := s;
}.

(** The number of module instances whose validation mutation is installed
    under [name]. *)
Definition instances (name : string) (s : vstore) : nat :=
  length (handlers_for (name +:+ "/" +:+ validationField) (vs_installed s)).

(** [function (state, value) { state[field] = value; }], the mutation
    that [preperValidation] generates for a field. *)
Definition assign (field : string) : mutation := λ st v, <[field := v]> st.

(** The registry holds at most the one instance for [name]: the other
    modules install nothing on its validation path, and either the module
    is absent with nothing installed there, or it is present with the
    generated validation mutation as the only handler. *)
Definition absent (name : string) (s : vstore) : Prop :=
  vs_state s !! name = None ∧
  handlers_for (name +:+ "/" +:+ validationField) (vs_installed s) = [].

Definition present (name : string) (s : vstore) : Prop :=
  is_Some (vs_state s !! name) ∧
  handlers_for (name +:+ "/" +:+ validationField) (vs_installed s)
    = [(name, assign validationField)].

Definition registry_ok (name : string) (s : vstore) : Prop :=
  handlers_for (name +:+ "/" +:+ validationField)
    (map_to_list (delete name (vs_modules s))) = [] ∧
  (absent name s ∨ present name s).

End Vuex.

(** ** What [page.setup] returns

    [page.setup] gathers the mapped state, the getters and actions of the
    collections, the accessors of the complex types and what the setup
    of the page itself returns.  It wraps every getter and accessor with
    [computed], a name that the module neither imports nor declares
    ([component] has a local of that name, which [page] does not see):
    the call is a ReferenceError unless the scope around the module
    binds the name. *)

Module Setup.

Record collection := Collection {
  single : string;
  plural : string;
  upsertPrefix : option string;
  deletePrefix : option string;
  (** [Object.keys(new collection.type())] when [type] is given. *)
  type : option (list string);
}.

Record complex_type := ComplexType {
  ct_name : string;
  (** [Object.keys(new complexType.type())] *)
  ct_type : list string;
}.

(** [options], as far as [page.setup] reads it; [po_model] holds
    [Object.keys(new options.model())]. *)
Record page_options := PageOptions {
  po_model : option (list string);
  po_collections : option (list collection);
  po_complexTypes : option (list complex_type);
}.

(** What a bound action does when called. *)
Inductive bound_action :=
  | Forward (path : string)
      (* function (x) { return $store.dispatch(path, x) } *)
  | ForwardFields (path : string)
      (* function ({ id, collection, property, value }) {
           return $store.dispatch(path, { id, collection, property, value }) } *)
  | ForwardProperty (path : string) (collection property : string)
      (* function ({ id, value }) {
           return $store.dispatch(path, { id, collection, property, value }) } *).

(** [computed(function () {
       let getter = $store.getters[path];
       if (getter) { return getter; }
       else { return storeModule.getters[fallback]($store.state[moduleName], this); } })] *)
Inductive getter :=
  | StoreGetter (path fallback : string).

(** A member of the object that [page.setup] returns. *)
Inductive entry :=
  | External (v : JS.value)
      (* a member of [mapState(...)] or of what the page's own setup returns *)
  | Computed (g : getter)
  | Action (a : bound_action)
  | Accessor (field property mutation : string)
      (* computed({
           get() { return $store.state[moduleName][field][property]; },
           set(value) { $store.commit(mutation, value); } }) *).

(** What the evaluation of a part of [page.setup] comes to. *)
Inductive evaluated (A : Type) :=
  | Value (a : A)
  | ReferenceError (identifier : string)
  | Thrown (e : JS.error).
Arguments Value {A} a.
Arguments ReferenceError {A} identifier.
Arguments Thrown {A} e.

#[global] Instance evaluated_ret : MRet evaluated := @Value.
#[global] Instance evaluated_bind : MBind evaluated := λ A B k r,
  match r with
  | Value a => k a
  | ReferenceError identifier => ReferenceError identifier
  | Thrown e => Thrown e
  end.

Definition is_vowel (c : Ascii.ascii) : bool :=
  existsb (Ascii.eqb c) (String.list_ascii_of_string "aeiouAEIOU").

(** [s.match(/^[aeiou].*/i)] as a truth value. *)
Definition matches_vowel_start (s : string) : bool :=
  match s with
  | String c _ => is_vowel c
  | EmptyString => false
  end.

(** [a || b] on an optional string. *)
Definition or_default (a : option string) (b : string) : string :=
  match a with
  | Some s => if String.eqb s "" then b else s
  | None => b
  end.

Section Setup.
(** [getCases(s).pascal] and [getCases(s).camel], from [./_common]. *)
Variable pascal camel : string → string.
(** [getCollectionPrefixes()], from [./store]. *)
Variable defaultUpsertPrefix defaultDeletePrefix : string.
Variable moduleName : string.
(** Whether the scope around the module binds [computed] (to the
    [computed] of Vue). *)
Variable computed_bound : bool.
(** [mapState($store, moduleName, keys)], from [./store]. *)
Variable mapState : list string → gmap string JS.value.

Definition conjunction (c : collection) : string :=
  if matches_vowel_start (pascal (single c)) then "An" else "A".

Definition actionName (c : collection) (property : string) : string :=
  "set" +:+ pascal property +:+ "Of" +:+ conjunction c +:+ pascal (single c).

(** The body of [for (const property of properties)]. *)
Definition bind_property (c : collection)
    (actions : gmap string bound_action) (property : string)
    : gmap string bound_action :=
  <[actionName c property :=
      ForwardProperty (moduleName +:+ "/" +:+ actionName c property)
        (plural c) property]> actions.

(** The body of [for (let collection of options.collections)], on the
    [actions] and [getters] gathered so far: the upsert and the delete
    action, then the two getters (the first [computed] is met at line
    579), then the actions of the properties. *)
Definition bind_collection
    (acc : gmap string bound_action * gmap string getter) (c : collection)
    : evaluated (gmap string bound_action * gmap string getter) :=
  let '(actions, getters) := acc in
  let upsert := or_default (upsertPrefix c) defaultUpsertPrefix in
  let delete := or_default (deletePrefix c) defaultDeletePrefix in
  let actions :=
    <[upsert +:+ pascal (single c) :=
        Forward (moduleName +:+ "/" +:+ upsert +:+ pascal (single c))]> actions in
  let actions :=
    <[delete +:+ pascal (single c) :=
        Forward (moduleName +:+ "/" +:+ delete +:+ pascal (single c))]> actions in
  if computed_bound then
    let getters :=
      <[camel (plural c) +:+ "Index" :=
          StoreGetter
            (moduleName +:+ "/" +:+ moduleName +:+ "/"
             +:+ camel (plural c) +:+ "Index")
            (camel (plural c) +:+ "Index")]> getters in
    let getters :=
      <[camel (single c) +:+ "ById" :=
          StoreGetter (moduleName +:+ "/" +:+ camel (single c) +:+ "ById")
            (camel (single c) +:+ "ById")]> getters in
    Value (match type c with
           | Some properties => foldl (bind_property c) actions properties
           | None => actions
           end, getters)
  else ReferenceError "computed".

(** The [actions] that a pass of the loop body leaves when it runs to
    its end. *)
Definition bound_actions (actions : gmap string bound_action)
    (c : collection) : gmap string bound_action :=
  let upsert := or_default (upsertPrefix c) defaultUpsertPrefix in
  let delete := or_default (deletePrefix c) defaultDeletePrefix in
  let actions :=
    <[upsert +:+ pascal (single c) :=
        Forward (moduleName +:+ "/" +:+ upsert +:+ pascal (single c))]> actions in
  let actions :=
    <[delete +:+ pascal (single c) :=
        Forward (moduleName +:+ "/" +:+ delete +:+ pascal (single c))]> actions in
  match type c with
  | Some properties => foldl (bind_property c) actions properties
  | None => actions
  end.

Fixpoint bind_collections (collections : list collection)
    (acc : gmap string bound_action * gmap string getter)
    : evaluated (gmap string bound_action * gmap string getter) :=
  match collections with
  | [] => Value acc
  | c :: rest => acc ← bind_collection acc c; bind_collections rest acc
  end.

(** The [actions] and [getters] built when [options.collections] is
    given. *)
Definition setup_collections (collections : list collection)
    : evaluated (gmap string bound_action * gmap string getter) :=
  let hasTypes := existsb (λ c, bool_decide (is_Some (type c))) collections in
  let actions : gmap string bound_action :=
    if hasTypes then
      {[ "setPropertyOfACollectionItem" :=
           ForwardFields (moduleName +:+ "/setPropertyOfACollectionItem") ]}
    else ∅ in
  bind_collections collections (actions, ∅).

(** The body of [for (const property of properties)] of a complex type. *)
Definition bind_accessor (ct : complex_type) (getters : gmap string entry)
    (property : string) : evaluated (gmap string entry) :=
  if computed_bound then
    Value (<[camel property +:+ "Of" +:+ pascal (ct_name ct) :=
               Accessor (ct_name ct) property
                 (moduleName +:+ "/" +:+ "set" +:+ pascal property +:+ "Of"
                  +:+ pascal (ct_name ct))]> getters)
  else ReferenceError "computed".

Fixpoint bind_accessors (ct : complex_type) (properties : list string)
    (getters : gmap string entry) : evaluated (gmap string entry) :=
  match properties with
  | [] => Value getters
  | property :: rest =>
      getters ← bind_accessor ct getters property;
      bind_accessors ct rest getters
  end.

(** The [getters] built when [options.complexTypes] is given. *)
Fixpoint setup_complexTypes (complexTypes : list complex_type)
    (getters : gmap string entry) : evaluated (gmap string entry) :=
  match complexTypes with
  | [] => Value getters
  | ct :: rest =>
      getters ← bind_accessors ct (ct_type ct) getters;
      setup_complexTypes rest getters
  end.

(** [page.setup]; [own_setup] is what [setup.apply(self, [props, context])]
    comes to, as the members of the object it returns, when the page has
    a setup of its own.  In [{ ...a, ...b }] the members of [b] win. *)
Definition page_setup (options : option page_options)
    (own_setup : option (evaluated (gmap string JS.value)))
    : evaluated (gmap string entry) :=
  let setupReturn : gmap string entry :=
    match options ≫= po_model with
    | Some keys => External <$> mapState keys
    | None => ∅
    end in
  setupReturn ←
    match options ≫= po_collections with
    | Some collections =>
        ' (actions, getters) ← setup_collections collections;
        Value ((Action <$> actions) ∪ ((Computed <$> getters) ∪ setupReturn))
    | None => Value setupReturn
    end;
  setupReturn ←
    match options ≫= po_complexTypes with
    | Some complexTypes =>
        getters ← setup_complexTypes complexTypes ∅;
        Value (getters ∪ setupReturn)
    | None => Value setupReturn
    end;
  match own_setup with
  | Some run => own ← run; Value ((External <$> own) ∪ setupReturn)
  | None => Value setupReturn
  end.
End Setup.

(** Modelled from the spec: the PascalCase of [./_common]'s [getCases] is
    missing from the sources; for a single lower-case word it is the word
    with its first letter in upper case. *)
Definition capitalize (s : string) : string :=
  match s with
  | String c rest =>
      let n := Ascii.nat_of_ascii c in
      String (if (97 <=? n) && (n <=? 122) then Ascii.ascii_of_nat (n - 32) else c)
        rest
  | EmptyString => EmptyString
  end.

(** Modelled from the spec: the camelCase of a single lower-case word is
    the word itself. *)
Definition unchanged (s : string) : string := s.

End Setup.

(** ** Sample inputs *)

Module Samples.
Import JS Lifecycle Vuex.

(** The object [{ k1: v1, ... }]. *)
Definition obj (kvs : list (string * value)) : cell := CObj (list_to_map kvs).

(** No function of the environment is needed by the lifecycle samples. *)
Definition no_ext : nat → JS.heap → res (value * JS.heap) :=
  λ _ _, Throw NotCallable.

(** The n-th token. *)
Definition token (n : nat) : string := "token-" +:+ pretty n.

(** The module that [store({})] builds: [preperValidation] has put the two
    bookkeeping fields in its state and their mutations next to them. *)
Definition validated : module_def :=
  ModuleDef true
    {[ validationField := VNum 0; fetchedField := VBool false ]}
    (Some {[ validationField := assign validationField;
             fetchedField := assign fetchedField ]}).

(** A hand-written module without mutations. *)
Definition bare : module_def := ModuleDef true ∅ (Some ∅).

Definition somewhere : context := Context (VStr "/jobs") (VStr "/") VUndef.

Definition fresh_world : world vstore := World empty_store ∅ [] 0.

(** The world after a first view has run [page.preFetch] for the module
    "jobs". *)
Definition mounted_once : world vstore :=
  (preFetch token validated "jobs" somewhere fresh_world).2.

(** A callback that leaves a trace when it is run. *)
Definition traced (tag : string) : M vstore unit := log (Invoke (VStr tag)).

(** The heap of the precedence example: [user] at 1, a [model] at 2 and a
    [collections] at 4 with their "state" sections at 3 and 5, and a
    [complexTypes] at 6 with its "state" section at 7. *)
Definition precedence_heap : JS.heap :=
  list_to_map
    [ (1, obj [("a", VNum 1)]);
      (2, obj [("state", VRef 3)]);
      (3, obj [("a", VNum 2); ("b", VNum 2)]);
      (4, obj [("state", VRef 5)]);
      (5, obj [("a", VNum 3); ("c", VNum 3)]);
      (6, obj [("state", VRef 7)]);
      (7, obj [("b", VNum 4)]) ].

(** A heap with a factory: the function at 1 returns copies of the empty
    object at 2; the [model] at 3 has the "mutations" section at 4, whose
    member "setX" is the function at 5; the "state" section at 6 holds
    plain data with a nested object at 7. *)
Definition factory_heap : JS.heap :=
  list_to_map
    [ (1, CFun (FJsonCopy 2));
      (2, obj []);
      (3, obj [("mutations", VRef 4); ("state", VRef 6)]);
      (4, obj [("setX", VRef 5)]);
      (5, CFun (FExt 0));
      (6, obj [("n", VNum 1); ("nested", VRef 7)]);
      (7, obj [("k", VStr "v")]) ].

(** The heap that [merge] leaves for the section "state" of
    [factory_heap]: the copy that the factory [user] returned at 8, the
    merged mapping at 9 and the returned closure at 10. *)
Definition merged_heap : JS.heap :=
  <[10 := CFun (FJsonCopy 9)]>
    (<[9 := obj [("n", VNum 1); ("nested", VRef 7)]]>
       (<[8 := obj []]> factory_heap)).

(** The merged mapping as a document. *)
Definition merged_document : json :=
  JObj [("nested", JObj [("k", JStr "v")]); ("n", JNum 1)].

End Samples.

(** ** Cycles in the data of a value *)

Module Cycles.
Import JS.

(** A cell that [JSON.stringify] enters: an object or an array. *)
Definition entered (c : cell) : bool :=
  match c with
  | CObj _ | CArr _ => true
  | CFun _ => false
  end.

(** [loops h stack v]: following properties and elements from [v], some
    chain of objects and arrays, none of them on [stack] before it is
    entered, leads to one that is already on the chain or on [stack]. *)
Inductive loops (h : heap) : list loc → value → Prop :=
  | loops_here stack l c :
      h !! l = Some c → entered c = true → l ∈ stack →
      loops h stack (VRef l)
  | loops_down stack l c v :
      h !! l = Some c → entered c = true → l ∉ stack →
      v ∈ children c → loops h (l :: stack) v →
      loops h stack (VRef l).

(** A member that leaves no trace in the JSON text: [undefined] or a
    function. *)
Definition silent (h : heap) (v : value) : Prop :=
  v = VUndef ∨ ∃ l f, v = VRef l ∧ h !! l = Some (CFun f).

End Cycles.

(** ** More sample inputs *)

Module Inputs.
Import JS Samples.

(** A [user] mapping with a member named [call] at 1, next to a [model]
    at 2 whose "state" section is the empty mapping at 3. *)
Definition call_member_heap : heap :=
  list_to_map
    [ (1, obj [("call", VStr "me")]);
      (2, obj [("state", VRef 3)]);
      (3, obj []) ].

(** The closure at 1 that [merge] built around the mapping at 2, whose
    members are the function at 3 and [undefined]. *)
Definition functions_heap : heap :=
  list_to_map
    [ (1, CFun (FJsonCopy 2));
      (2, CObj (<["later" := VUndef]> {[ "setX" := VRef 3 ]}));
      (3, CFun (FExt 0)) ].

(** The closure at 1 that [merge] built around the mapping at 2, whose
    member "items" is the array at 3, which holds the mapping at 2. *)
(** A module definition without the member [mutations]. *)
Definition no_mutations : Lifecycle.module_def :=
  Lifecycle.ModuleDef true ∅ None.

Definition cyclic_heap : heap :=
  list_to_map
    [ (1, CFun (FJsonCopy 2));
      (2, CObj {[ "items" := VRef 3 ]});
      (3, CArr [VNum 1; VRef 2]) ].

(** Two collections of a page: the items of "apples" have the property
    "size", the collection "jobs" names its own prefix for deletions and
    gives no [type]. *)
Definition apples : Setup.collection :=
  Setup.Collection "apple" "apples" None None (Some ["size"]).
Definition jobs : Setup.collection :=
  Setup.Collection "job" "jobs" (Some "") (Some "drop") None.

(** The collection "jobs" with the property "size" of its items. *)
Definition sized_jobs : Setup.collection :=
  Setup.Collection "job" "jobs" None None (Some ["size"]).

End Inputs.

(** ** The first callback of the promise chain *)

Module Chain.
Import JS Lifecycle.

(** [if (preFetch) return preFetch.apply(self, [context])]: how the first
    [then] callback of [page.preFetch] settles, and the world in which
    the second one runs. *)
Definition after_user {S : Type}
    (user_preFetch : option (context → world S → settled * world S))
    (ctx : context) (w : world S) : settled * world S :=
  match user_preFetch with
  | Some f => f ctx w
  | None => (Fulfilled, w)
  end.

End Chain.

(** ** Wrapped components: [component] and [reBrand]

    The wrapper that [component] builds around a Vue component, and the
    branded wrapper that [reBrand] registers.  Vue itself is outside the
    factory: an instance is given by what its render function reads from
    [this], and a rendering by the options handed to [createElement]. *)

Module Wrapper.
Import JS.

(** A member of the declaration of a prop: one given by the author of the
    component, or the function [() => undefined] that [reBrand]
    installs. *)
Inductive member :=
  | Given (v : value)
  | UndefinedThunk.

(** [component.options.props]: the declaration object of each prop. *)
Abbreviation decl := (gmap string member).
Abbreviation decls := (gmap string decl).

Record component_options := ComponentOptions {
  props : option decls;
  methods : option (gmap string value);
}.

(** The component to be wrapped. *)
Record vue_component := VueComponent {
  component_name : value;
  options : option component_options;
}.

(** What the render function of a wrapper reads from [this]. *)
Record instance := Instance {
  vnode_key : option value;            (* this.$vnode.key, if [$vnode] is there *)
  scopedSlots : value;                 (* this.$scopedSlots *)
  attrs : value;                       (* this.$attrs *)
  passed : gmap string value;          (* this.$props *)
  listeners : gmap string value;       (* this.$listeners *)
  current_value : value;               (* this.__value *)
}.

(** A listener handed to the wrapped component: one of [this.$listeners],
    or [function (value) { self.__value = value; }]. *)
Inductive listener :=
  | Passed (f : value)
  | SetValue.

(** The [options] object of a rendering; [style] and [class] are absent
    until a render callback sets them. *)
Record render_options := RenderOptions {
  o_key : value;
  o_ref : string;
  o_scopedSlots : value;
  o_attrs : value;
  o_props : gmap string value;
  o_on : gmap string listener;
  o_style : option value;
  o_class : option value;
}.

(** [createElement(h, component, options)], with the [createElement] of
    the caller or, without one, [h(component, options)]. *)
Inductive rendered :=
  | Rendered (createElement : option nat) (options : render_options).

(** A render callback [render({ self, options })], as the change it makes
    to [options]. *)
Definition renderer : Type :=
  instance → render_options → res render_options.

(** The wrapper.  Its [props] are the declarations object of the wrapped
    component itself, which its render function has captured as well:
    [w_render] takes the state of that object when the rendering
    happens. *)
Record wrapper := Wrapper {
  w_name : value;
  w_props : decls;
  w_methods : gmap string string;  (* key ↦ the method of [$refs.root] called *)
  w_computed : bool;               (* whether [computed.__value] is defined *)
  w_render : decls → instance → res rendered;
}.

(** A setup callback [setup({ component: wrapper })], as the change it
    makes to the wrapper. *)
Definition setup_fn : Type := wrapper → res wrapper.

Record factory := Factory {
  f_render : option renderer;
  f_setup : option setup_fn;
}.

(** The [options] with which the render function starts. *)
Definition initial_options (captured : decls) (key : value)
    (self : instance) : render_options :=
  if bool_decide (is_Some (captured !! "value")) then
    (* let { values, ...props } = this.$props;
       let { input, ...listeners } = this.$listeners;
       props.value = self.__value;
       listeners.input = function (value) { self.__value = value; }; *)
    RenderOptions key "root" (scopedSlots self) (attrs self)
      (<["value" := current_value self]> (delete "values" (passed self)))
      (<["input" := SetValue]> (Passed <$> delete "input" (listeners self)))
      None None
  else
    RenderOptions key "root" (scopedSlots self) (attrs self)
      (passed self) (Passed <$> listeners self) None None.

(** [for (let render of renders) { render({ self, options }); }] *)
Fixpoint run_renders (renders : list renderer) (self : instance)
    (o : render_options) : res render_options :=
  match renders with
  | [] => Ok o
  | render :: rest => o ← render self o; run_renders rest self o
  end.

Definition render (renders : list renderer) (createElement : option nat)
    (captured : decls) (self : instance) : res rendered :=
  match vnode_key self with
  | None => Throw NotAnObject   (* this.$vnode.key *)
  | Some key =>
      o ← run_renders renders self (initial_options captured key self);
      Ok (Rendered createElement o)
  end.

(** [for (let setup of setups) { setup({ component: wrapper }); }] *)
Fixpoint run_setups (setups : list setup_fn) (w : wrapper) : res wrapper :=
  match setups with
  | [] => Ok w
  | setup :: rest => w ← setup w; run_setups rest w
  end.

Definition component (name : value) (component : option vue_component)
    (render_cb : option renderer) (setup_cb : option setup_fn)
    (createElement : option nat) (factories : option (list factory))
    : res wrapper :=
  match component with
  | None => Throw NotAnObject
  | Some c =>
      match options c with
      | None => Throw NotAnObject       (* component.options.props *)
      | Some opts =>
          match props opts with
          | None => Throw NotAnObject   (* props.value *)
          | Some ps =>
              let computed := bool_decide (is_Some (ps !! "value")) in
              let methods :=
                map_imap (λ key _, Some key) (default ∅ (methods opts)) in
              let factories := default [] factories in
              let renders := omap f_render factories ++ option_list render_cb in
              let setups := omap f_setup factories ++ option_list setup_cb in
              run_setups setups
                (Wrapper name ps methods computed (render renders createElement))
          end
      end
  end.

(** *** reBrand *)

Record brand := Brand {
  brand_style : value;
  brand_class : value;
  brand_props : option (gmap string value);
}.

(** The first argument of [reBrand] in its object form. *)
Record brand_options := BrandOptions {
  bo_name : string;
  bo_cname : option string;
  bo_component : option vue_component;
  bo_brand : option brand;
  bo_register : option nat;
}.

(** The first argument of [reBrand]: a name, an object, or [null] (whose
    [typeof] is "object" as well). *)
Inductive first_argument :=
  | ByName (name : string)
  | ByOptions (o : brand_options)
  | ByNull.

(** The call [register(name, wrapper)] that ends [reBrand], with the
    [register] of the caller or, without one, [Vue.component]. *)
Record registration := Registration {
  reg_by : option nat;
  reg_name : string;
  reg_component : wrapper;
}.

(** [options.props[prop] =
       options.props[prop] === undefined ? brand.props[prop]
                                         : options.props[prop]] *)
Definition fill (brand_props : gmap string value) (o : render_options)
    (prop : string) : render_options :=
  let current := default VUndef (o_props o !! prop) in
  RenderOptions (o_key o) (o_ref o) (o_scopedSlots o) (o_attrs o)
    (<[prop := if decide (current = VUndef)
               then default VUndef (brand_props !! prop)
               else current]> (o_props o))
    (o_on o) (o_style o) (o_class o).

Definition brand_render (b : brand) (keys : list string) : renderer :=
  λ _ o,
  let o :=
    if truthy (brand_style b)
    then RenderOptions (o_key o) (o_ref o) (o_scopedSlots o) (o_attrs o)
           (o_props o) (o_on o) (Some (brand_style b)) (o_class o)
    else o in
  let o :=
    if truthy (brand_class b)
    then RenderOptions (o_key o) (o_ref o) (o_scopedSlots o) (o_attrs o)
           (o_props o) (o_on o) (o_style o) (Some (brand_class b))
    else o in
  Ok (foldl (fill (default ∅ (brand_props b))) o keys).

(** [component.props[prop].default = () => undefined] *)
Definition undefine_default (ps : decls) (prop : string) : res decls :=
  match ps !! prop with
  | Some d => Ok (<[prop := <["default" := UndefinedThunk]> d]> ps)
  | None => Throw NotAnObject
  end.

Fixpoint undefine_defaults (keys : list string) (ps : decls) : res decls :=
  match keys with
  | [] => Ok ps
  | prop :: rest => ps ← undefine_default ps prop; undefine_defaults rest ps
  end.

Definition brand_setup (keys : list string) : setup_fn :=
  λ w,
  ps ← undefine_defaults keys (w_props w);
  Ok (Wrapper (w_name w) ps (w_methods w) (w_computed w) (w_render w)).

Section ReBrand.
(** [getCases(s).pascal], from [./_common]. *)
Variable pascal : string → string.

(** [reBrand] once its arguments are sorted out. *)
Definition register_branded (name : string) (cname : option string)
    (c : option vue_component) (b : option brand) (register : option nat)
    : res registration :=
  let cname := Setup.or_default cname (pascal name) in
  match b with
  | None => Throw NotAnObject   (* brand.props *)
  | Some b =>
      let keys := (map_to_list (default ∅ (brand_props b))).*1 in
      wname ←
        (if String.eqb cname "" then
           match c with
           | Some c => Ok (component_name c)
           | None => Throw NotAnObject   (* component.name *)
           end
         else Ok (VStr cname));
      w ← component wname c (Some (brand_render b keys))
             (Some (brand_setup keys)) None None;
      Ok (Registration register name w)
  end.

Definition reBrand (first : first_argument)
    (component_arg : option vue_component) (brand_arg : option brand)
    : res registration :=
  match first with
  | ByName name => register_branded name None component_arg brand_arg None
  | ByOptions o =>
      register_branded (bo_name o) (bo_cname o) (bo_component o) (bo_brand o)
        (bo_register o)
  | ByNull => Throw NotAnObject     (* options.name *)
  end.
End ReBrand.

End Wrapper.

(** ** Sample components *)

Module Branded.
Import JS Wrapper.

(** A button that declares the props [value] and [color]. *)
Definition button_props : decls :=
  <["value" := {[ "type" := Given (VStr "String") ]}]>
    {[ "color" := {[ "default" := Given (VStr "grey") ]} ]}.
Definition button_options : component_options :=
  ComponentOptions (Some button_props) None.
Definition button : vue_component :=
  VueComponent (VStr "Button") (Some button_options).

(** A component that declares no props. *)
Definition plain_options : component_options := ComponentOptions None None.
Definition label : vue_component :=
  VueComponent (VStr "Label") (Some plain_options).

(** A brand that sets the style and the color. *)
Definition primary : brand :=
  Brand (VStr "font-weight: bold") VUndef (Some {[ "color" := VStr "primary" ]}).

(** A brand for a prop that the button does not declare. *)
Definition rounded : brand :=
  Brand VUndef VUndef (Some {[ "radius" := VNum 4 ]}).

Definition my_button : brand_options :=
  BrandOptions "my-button" None (Some button) (Some primary) None.

(** An instance of a wrapper: it was passed [value] and [values], and
    listens to [input] and [click]. *)
Definition clicked : instance :=
  Instance (Some (VNum 7)) VUndef VUndef
    (<["value" := VStr "ok"]> {[ "values" := VNum 3 ]})
    (<["input" := VRef 1]> {[ "click" := VRef 2 ]})
    (VStr "ok").

(** A factory without callbacks. *)
Definition idle : factory := Factory None None.

(** [render({ options }) { options.class = v; }] *)
Definition with_class (v : value) : renderer :=
  λ _ o,
  Ok (RenderOptions (o_key o) (o_ref o) (o_scopedSlots o) (o_attrs o)
        (o_props o) (o_on o) (o_style o) (Some v)).

(** [render({ options }) { options.style = options.class; }] *)
Definition style_from_class : renderer :=
  λ _ o,
  Ok (RenderOptions (o_key o) (o_ref o) (o_scopedSlots o) (o_attrs o)
        (o_props o) (o_on o) (o_class o) (o_class o)).

(** Factories that set the class and that copy it to the style. *)
Definition flat : factory := Factory (Some (with_class (VStr "flat"))) None.
Definition styled : factory := Factory (Some style_from_class) None.

End Branded.

(** ** The module builder: [preperValidation] and [store]

    These two functions write to objects that they share with their
    caller and create functions of their own.  Objects live in the heap of
    [JS]; a write goes to an object of that heap, and is outside of the
    model where JavaScript would hang the property on an array or on a
    function.  Function values are numbered: [code] numbers the closures
    created here next to the functions of the caller. *)

Module Builder.
Import JS Merger.

(** The functions met by the builder. *)
Inductive closure :=
  | Outside (id : nat)
      (* a function of the caller *)
  | Assign (field : string)
      (* function (state, value) { state[field] = value; } *)
  | ShallowCopy (obj : value)
      (* function () { return { ...obj }; } *)
  | NewModel
      (* function () { return new options.model(); } *)
  | Noop
      (* function (context, values) {} *).

#[global] Instance closure_eq_dec : EqDecision closure.
Proof. solve_decision. Defined.

#[global] Instance value_countable : Countable value.
Proof.
  refine (inj_countable'
    (λ v, match v with
          | VUndef => inl (inl true)
          | VNull => inl (inl false)
          | VBool b => inl (inr b)
          | VNum n => inr (inl n)
          | VStr s => inr (inr (inl s))
          | VRef l => inr (inr (inr l))
          end)
    (λ x, match x with
          | inl (inl true) => VUndef
          | inl (inl false) => VNull
          | inl (inr b) => VBool b
          | inr (inl n) => VNum n
          | inr (inr (inl s)) => VStr s
          | inr (inr (inr l)) => VRef l
          end) _).
  by intros [].
Defined.

#[global] Instance closure_countable : Countable closure.
Proof.
  refine (inj_countable'
    (λ c, match c with
          | Outside id => inl (inl id)
          | Assign field => inl (inr field)
          | ShallowCopy obj => inr (inl obj)
          | NewModel => inr (inr true)
          | Noop => inr (inr false)
          end)
    (λ x, match x with
          | inl (inl id) => Outside id
          | inl (inr field) => Assign field
          | inr (inl obj) => ShallowCopy obj
          | inr (inr true) => NewModel
          | inr (inr false) => Noop
          end) _).
  by intros [].
Defined.

(** The number of a function, and the function value made of it. *)
Definition code (c : closure) : nat := encode_nat c.
Definition function (c : closure) : cell := CFun (FExt (code c)).

(** What a step of the builder comes to: a result, an exception, or a
    write that the heap cannot hold. *)
Inductive outcome (A : Type) :=
  | Returns (a : A)
  | Raises (e : error)
  | Unmodelled.
Arguments Returns {A} a.
Arguments Raises {A} e.
Arguments Unmodelled {A}.

#[global] Instance outcome_ret : MRet outcome := @Returns.
#[global] Instance outcome_bind : MBind outcome := λ A B k r,
  match r with
  | Returns a => k a
  | Raises e => Raises e
  | Unmodelled => Unmodelled
  end.

Definition lift {A} (r : res A) : outcome A :=
  match r with
  | Ok a => Returns a
  | Throw e => Raises e
  end.

(** [o[k] = v], in strict mode: a TypeError on [undefined], [null] and
    the primitives. *)
Definition set_prop (h : heap) (o : value) (k : string) (v : value)
    : outcome heap :=
  match o with
  | VRef l =>
      match h !! l with
      | Some (CObj props) => Returns (<[l := CObj (<[k := v]> props)]> h)
      | _ => Unmodelled
      end
  | _ => Raises NotAnObject
  end.

(** [{ [validationField]: 0, [fetchedField]: false }] *)
Definition validation_fields : list (string * value) :=
  [ (Lifecycle.validationField, VNum 0);
    (Lifecycle.fetchedField, VBool false) ].

(** The options of [store], as far as [store] looks at them itself:
    whether [options.model] is given, and the lengths of
    [options.collections] and [options.complexTypes] where these are
    given. *)
Record options := Options {
  model : bool;
  collections : option nat;
  complexTypes : option nat;
}.

Section Builder.
(** The functions of the caller, as in [JS.invoke]. *)
Variable ext : nat → heap → res (value * heap).
(** [new options.model()]. *)
Variable construct : heap → res (value * heap).
(** [mapStoreMutations(options.model)],
    [mapStoreCollections(options.collections)] and
    [mapStoreComplexTypes(options.complexTypes)], from [./store]. *)
Variable mapStoreMutations : heap → res (value * heap).
Variable mapStoreCollections : heap → res (value * heap).
Variable mapStoreComplexTypes : heap → res (value * heap).

(** A call without arguments of the function of a number. *)
Definition env (id : nat) (h : heap) : res (value * heap) :=
  match decode_nat id with
  | Some (Outside id) => ext id h
  | Some (Assign _) => Throw NotAnObject   (* [state] is [undefined] *)
  | Some (ShallowCopy obj) =>
      let '(l, h) := alloc (CObj (own_props h obj)) h in Ok (VRef l, h)
  | Some NewModel => construct h
  | Some Noop => Ok (VUndef, h)
  | None => Throw NotCallable
  end.

(** [store[k] = store[k] || {}] *)
Definition ensure_object (store : loc) (k : string) (h : heap)
    : outcome heap :=
  let v := get_prop h (VRef store) k in
  if truthy v then set_prop h (VRef store) k v
  else
    let '(l, h) := alloc (CObj ∅) h in
    set_prop h (VRef store) k (VRef l).

(** [for (const field of fieldKeys) {
       store.mutations[field] = function (state, value) { ... }; }] *)
Fixpoint add_mutations (store : loc) (keys : list string) (h : heap)
    : outcome heap :=
  match keys with
  | [] => Returns h
  | field :: rest =>
      let mutations := get_prop h (VRef store) "mutations" in
      let '(f, h) := alloc (function (Assign field)) h in
      h ← set_prop h mutations field (VRef f);
      add_mutations store rest h
  end.

(** [for (const field of fieldKeys) {
       store.state[field] = fields[field]; }] *)
Fixpoint add_fields (store : loc) (fields : list (string * value))
    (h : heap) : outcome heap :=
  match fields with
  | [] => Returns h
  | (field, v) :: rest =>
      h ← set_prop h (get_prop h (VRef store) "state") field v;
      add_fields store rest h
  end.

Definition preperValidation (store : loc) (fields : list (string * value))
    (h : heap) : outcome heap :=
  h ← ensure_object store "mutations" h;
  h ← add_mutations store fields.*1 h;
  h ← ensure_object store "state" h;
  let isFunc := has_call h (get_prop h (VRef store) "state") in
  h ← (if isFunc then
         ' (r, h) ← lift (invoke env h (get_prop h (VRef store) "state"));
         set_prop h (VRef store) "state" r
       else Returns h);
  h ← add_fields store fields h;
  if isFunc then
    let obj := get_prop h (VRef store) "state" in
    let '(f, h) := alloc (function (ShallowCopy obj)) h in
    set_prop h (VRef store) "state" (VRef f)
  else Returns h.

(** [x || {}] *)
Definition or_empty (x : value) (h : heap) : value * heap :=
  if truthy x then (x, h)
  else let '(l, h) := alloc (CObj ∅) h in (VRef l, h).

(** [store[name] = merge({ name, model, collections, complexTypes,
                           user: store[name] })] *)
Definition merge_section (store : loc) (name : string)
    (model collections complexTypes : value) (h : heap)
    : outcome (value * heap) :=
  lift (merge env name model collections complexTypes
          (get_prop h (VRef store) name) h).

(** [store], for the members [rest] of its argument other than [options]
    and [initialize]. *)
Definition store (opts : option options) (initialize : value)
    (rest : gmap string value) (h : heap) : outcome (value * heap) :=
  let '(store, h) := alloc (CObj rest) h in
  ' (model, h) ←
    (if from_option model false opts then
       let '(f, h) := alloc (function NewModel) h in
       ' (mutations, h) ← lift (mapStoreMutations h);
       let '(m, h) :=
         alloc (CObj (<["mutations" := mutations]> {[ "state" := VRef f ]})) h in
       Returns (VRef m, h)
     else Returns (VUndef, h));
  ' (collections, h) ←
    (match opts ≫= collections with
     | Some (S _) => lift (mapStoreCollections h)
     | _ => Returns (VUndef, h)
     end);
  ' (complexTypes, h) ←
    (match opts ≫= complexTypes with
     | Some (S _) => lift (mapStoreComplexTypes h)
     | _ => Returns (VUndef, h)
     end);
  h ← preperValidation store validation_fields h;
  h ← set_prop h (VRef store) "namespaced" (VBool true);
  ' (state, h) ← merge_section store "state" model collections complexTypes h;
  h ← set_prop h (VRef store) "state" state;
  ' (mutations, h) ←
    merge_section store "mutations" model collections complexTypes h;
  let '(mutations, h) := or_empty mutations h in
  h ← set_prop h (VRef store) "mutations" mutations;
  ' (actions, h) ←
    merge_section store "actions" model collections complexTypes h;
  let '(actions, h) := or_empty actions h in
  h ← set_prop h (VRef store) "actions" actions;
  ' (getters, h) ←
    merge_section store "getters" model collections complexTypes h;
  h ← set_prop h (VRef store) "getters" getters;
  h ← (let actions := get_prop h (VRef store) "actions" in
       if truthy (get_prop h actions "initialize") then Returns h
       else
         let '(f, h) :=
           if truthy initialize then (initialize, h)
           else let '(l, h) := alloc (function Noop) h in (VRef l, h) in
         set_prop h actions "initialize" f);
  Returns (VRef store, h).
End Builder.

End Builder.

(** ** Sample modules *)

Module Modules.
Import JS Builder.

(** No model class and no mappers are needed by the samples. *)
Definition nothing : heap → res (value * heap) := λ _, Throw NotCallable.

(** The members of a module given to [store]: its [mutations] at 2 and
    its [state] at 3. *)
Definition given : gmap string value :=
  <["mutations" := VRef 2]> {[ "state" := VRef 3 ]}.

(** A heap in which the module object itself is at 1, with no mutation
    and the state [{ n: 1 }]. *)
Definition plain_module : heap :=
  list_to_map
    [ (1, CObj given);
      (2, CObj ∅);
      (3, CObj {[ "n" := VNum 1 ]}) ].

(** The same, with the function numbered 0 of the caller as [state]. *)
Definition factory_module : heap :=
  list_to_map
    [ (1, CObj given);
      (2, CObj ∅);
      (3, function (Outside 0)) ].

(** The functions of the caller: each returns a new [{ n: 1 }]. *)
Definition new_state : nat → heap → res (value * heap) :=
  λ _ h, let '(l, h) := alloc (CObj {[ "n" := VNum 1 ]}) h in Ok (VRef l, h).

End Modules.

(** * Properties *)

(** ** JSON copies *)

Module JsonFacts.
Import JS.

Lemma parse_JObj members h :
  parse (JObj members) h =
    let '(props, h1) := parse_members members h in
    let '(l, h2) := alloc (CObj (list_to_map props)) h1 in
    (VRef l, h2).
Proof. done. Qed.

Lemma parse_JArr elements h :
  parse (JArr elements) h =
    let '(items, h1) := parse_elements elements h in
    let '(l, h2) := alloc (CArr items) h1 in
    (VRef l, h2).
Proof. done. Qed.

(** The order in which the keys of a map are listed depends on the keys
    only. *)
Lemma map_to_list_keys_dom {A B} (m1 : gmap string A) (m2 : gmap string B) :
  dom m1 = dom m2 → (map_to_list m1).*1 = (map_to_list m2).*1.
Proof.
  intros Hdom.
  assert ((λ _, ()) <$> m1 = (λ _, ()) <$> m2) as Heq.
  { apply map_eq. intros k. rewrite !lookup_fmap.
    destruct (m1 !! k) as [a|] eqn:H1, (m2 !! k) as [b|] eqn:H2; simpl;
      try done.
    - apply not_elem_of_dom in H2. apply elem_of_dom_2 in H1. congruence.
    - apply not_elem_of_dom in H1. apply elem_of_dom_2 in H2. congruence. }
  apply (f_equal map_to_list) in Heq. rewrite !map_to_list_fmap in Heq.
  apply (f_equal (fmap fst)) in Heq.
  rewrite <- !list_fmap_compose in Heq.
  rewrite (list_fmap_ext _ fst (map_to_list m1)) in Heq by (by intros ? []).
  by rewrite (list_fmap_ext _ fst (map_to_list m2)) in Heq by (by intros ? []).
Qed.

(** The members of a document and the properties of the object it stands
    for, side by side. *)
Lemma members_related {A B} (P : A → B → Prop)
    (props : gmap string A) (members : list (string * B)) :
  members.*1 = (map_to_list props).*1 →
  (∀ k v j, props !! k = Some v → (k, j) ∈ members → P v j) →
  Forall2 (λ kv kj, kv.1 = kj.1 ∧ P kv.2 kj.2) (map_to_list props) members.
Proof.
  intros Hkeys HP. apply Forall2_same_length_lookup_2.
  - by rewrite <- (length_fmap fst (map_to_list props)), <- Hkeys, length_fmap.
  - intros i [k v] [k' j] Hkv Hkj. simpl.
    assert (k' = k) as ->.
    { apply (f_equal (.!! i)) in Hkeys.
      rewrite !list_lookup_fmap, Hkv, Hkj in Hkeys. by injection Hkeys. }
    split; [done|]. apply (HP k).
    + by apply elem_of_map_to_list, list_elem_of_lookup_2 with i.
    + by eapply list_elem_of_lookup_2.
Qed.

Lemma related_keys {A B} (P : A → B → Prop)
    (kvs : list (string * A)) (members : list (string * B)) :
  Forall2 (λ kv kj, kv.1 = kj.1 ∧ P kv.2 kj.2) kvs members →
  members.*1 = kvs.*1.
Proof. induction 1 as [|?? ?? [? _]]; simpl; [done|]. by f_equal. Qed.

Lemma related_members {A B} (P : A → B → Prop)
    (props : gmap string A) (members : list (string * B)) k v j :
  Forall2 (λ kv kj, kv.1 = kj.1 ∧ P kv.2 kj.2) (map_to_list props) members →
  props !! k = Some v → (k, j) ∈ members → P v j.
Proof.
  intros Hall Hk Hj. apply list_elem_of_lookup_1 in Hj as [i Hi].
  destruct (Forall2_lookup_r _ _ _ _ _ Hall Hi) as ([k' v'] & Hkv & Hkk & HP).
  simpl in *. subst k'.
  apply list_elem_of_lookup_2, elem_of_map_to_list in Hkv. congruence.
Qed.

Lemma Forall2_functional {A B} (R R' : A → B → Prop) l a b :
  Forall2 R l a → Forall2 R' l b →
  (∀ x y z, x ∈ l → R x y → R' x z → y = z) → a = b.
Proof.
  intros Ha. revert b. induction Ha as [|x y l a Hxy Ha IH]; intros b Hb Hf.
  - by inversion Hb.
  - inversion Hb as [|? z ? b' Hxz Hb']; subst. f_equal.
    + eapply Hf; [apply list_elem_of_here|done..].
    + apply IH; [done|]. intros ????. apply Hf. by apply list_elem_of_further.
Qed.

Lemma lookups_Forall2 {A B} (P : A → B → Prop) (xs : list A) (ys : list B) :
  length ys = length xs →
  (∀ i x y, xs !! i = Some x → ys !! i = Some y → P x y) →
  Forall2 P xs ys.
Proof. intros Hlen HP. by apply Forall2_same_length_lookup_2. Qed.

(** A value is at most one document. *)
Lemma repr_det h v j1 : repr h v j1 → ∀ j2, repr h v j2 → j1 = j2.
Proof.
  induction 1 as [| | | |l props members Hl Hkeys Hch IH
                 |l items elements Hl Hlen Hch IH];
    intros j2 H2; inversion H2 as [| | | |? props' members' Hl' Hkeys' Hch'
                                  |? items' elements' Hl' Hlen' Hch'];
    subst; try done; simplify_eq.
  - f_equal.
    eapply (Forall2_functional _ _ (map_to_list props));
      [by apply (members_related _ _ _ Hkeys IH)
      |by apply (members_related _ _ _ Hkeys' Hch')|].
    intros [k v] [k1 x] [k2 y] _ [? Hx] [? Hy]; simpl in *; subst.
    f_equal. by apply Hx.
  - f_equal.
    eapply (Forall2_functional _ _ items);
      [by apply (lookups_Forall2 _ _ _ Hlen IH)
      |by apply (lookups_Forall2 _ _ _ Hlen' Hch')|].
    intros v x y _ Hx Hy. by apply Hx.
Qed.

Lemma repr_mono h h' v j : h ⊆ h' → repr h v j → repr h' v j.
Proof.
  intros Hsub. induction 1 as [| | | |l props members Hl Hkeys Hch IH
                              |l items elements Hl Hlen Hch IH];
    try by constructor.
  - eapply repr_obj; [by eapply lookup_weaken|done..].
  - eapply repr_arr; [by eapply lookup_weaken|done..].
Qed.

Lemma jsize_member k j members :
  (k, j) ∈ members → jsize j < jsize (JObj members).
Proof.
  induction members as [|[k' j'] rest IH]; intros Hin.
  - by apply elem_of_nil in Hin.
  - apply elem_of_cons in Hin as [[= <- <-]|Hin]; simpl in *; [lia|].
    specialize (IH Hin). lia.
Qed.

Lemma jsize_element i j elements :
  elements !! i = Some j → jsize j < jsize (JArr elements).
Proof.
  revert i. induction elements as [|j' rest IH]; intros i Hi; [done|].
  destruct i as [|i]; simpl in *; [simplify_eq; lia|].
  specialize (IH i Hi). lia.
Qed.

Lemma ser_members_done f kvs members :
  Forall2 (λ kv kj, kv.1 = kj.1 ∧ f kv.2 = Done (Some kj.2)) kvs members →
  ser_members f kvs = Done members.
Proof.
  induction 1 as [|[k v] [k' j] kvs members [Hk Hf] _ IH]; simpl in *; [done|].
  subst k'. by rewrite Hf, IH.
Qed.

Lemma ser_elements_done f vs js :
  Forall2 (λ v j, f v = Done (Some j)) vs js → ser_elements f vs = Done js.
Proof.
  induction 1 as [|v j vs js Hf _ IH]; simpl; [done|]. by rewrite Hf, IH.
Qed.

(** The objects under serialization are distinct objects of the heap, so
    there are no more of them than the heap has cells. *)
Lemma stack_bound (h : heap) (stack : list loc) :
  NoDup stack → (∀ a, a ∈ stack → a ∈ dom h) → length stack ≤ size h.
Proof.
  intros Hnd Hdom. rewrite <- size_dom. unfold size, set_size. simpl.
  apply submseteq_length, NoDup_submseteq; [done|].
  intros a Ha. by apply elem_of_elements, Hdom.
Qed.

(** [serialize] yields the document a value stands for, whatever fuel is
    left, as long as the fuel and the stack together cover the heap. *)
Lemma serialize_repr h v j :
  repr h v j →
  ∀ fuel stack,
    NoDup stack → (∀ a, a ∈ stack → a ∈ dom h) →
    size h ≤ fuel + length stack →
    (∀ a, a ∈ stack → ∃ ja, repr h (VRef a) ja ∧ jsize j < jsize ja) →
    serialize fuel h stack v = Done (Some j).
Proof.
  induction 1 as [| | | |l props members Hl Hkeys Hch IH
                 |l items elements Hl Hlen Hch IH];
    intros fuel stack Hnd Hdom Hfuel Hanc; try by destruct fuel.
  - assert (l ∉ stack) as Hfresh.
    { intros (ja & Hja & Hlt)%Hanc.
      assert (ja = JObj members) as ->; [|lia].
      symmetry. eapply repr_det; [|exact Hja]. by eapply repr_obj. }
    assert (NoDup (l :: stack)) as Hnd' by by constructor.
    assert (∀ a, a ∈ l :: stack → a ∈ dom h) as Hdom'.
    { intros a [->|Ha]%elem_of_cons; [by eapply elem_of_dom_2|by apply Hdom]. }
    pose proof (stack_bound h _ Hnd' Hdom') as Hbound. simpl in Hbound.
    destruct fuel as [|fuel]; [lia|]. simpl.
    rewrite Hl, decide_False by done.
    erewrite ser_members_done; [done|].
    apply (members_related
             (λ v j, serialize fuel h (l :: stack) v = Done (Some j))
             _ _ Hkeys).
    intros k v j Hk Hj.
    apply (IH k v j Hk Hj); [done|done|simpl; lia|].
    pose proof (jsize_member _ _ _ Hj) as Hsmall.
    intros a [->|Ha]%elem_of_cons.
    + exists (JObj members). split; [by eapply repr_obj|done].
    + destruct (Hanc a Ha) as (ja & Hja & Hlt). exists ja. split; [done|lia].
  - assert (l ∉ stack) as Hfresh.
    { intros (ja & Hja & Hlt)%Hanc.
      assert (ja = JArr elements) as ->; [|lia].
      symmetry. eapply repr_det; [|exact Hja]. by eapply repr_arr. }
    assert (NoDup (l :: stack)) as Hnd' by by constructor.
    assert (∀ a, a ∈ l :: stack → a ∈ dom h) as Hdom'.
    { intros a [->|Ha]%elem_of_cons; [by eapply elem_of_dom_2|by apply Hdom]. }
    pose proof (stack_bound h _ Hnd' Hdom') as Hbound. simpl in Hbound.
    destruct fuel as [|fuel]; [lia|]. simpl.
    rewrite Hl, decide_False by done.
    erewrite ser_elements_done; [done|].
    apply (lookups_Forall2
             (λ v j, serialize fuel h (l :: stack) v = Done (Some j)));
      [done|].
    intros i v j Hv Hj.
    apply (IH i v j Hv Hj); [done|done|simpl; lia|].
    pose proof (jsize_element _ _ _ Hj) as Hsmall.
    intros a [->|Ha]%elem_of_cons.
    + exists (JArr elements). split; [by eapply repr_arr|done].
    + destruct (Hanc a Ha) as (ja & Hja & Hlt). exists ja. split; [done|lia].
Qed.

Lemma stringify_repr h v j : repr h v j → stringify h v = Done (Some j).
Proof.
  intros Hrepr. unfold stringify.
  apply (serialize_repr _ _ _ Hrepr); [constructor| |simpl; lia|];
    by intros a ?%elem_of_nil.
Qed.

(** The traversal budget of [stringify] is never the reason for its
    failure. *)
Lemma serialize_fuel h fuel stack v :
  NoDup stack → (∀ a, a ∈ stack → a ∈ dom h) →
  size h ≤ fuel + length stack →
  serialize fuel h stack v ≠ NoFuel.
Proof.
  revert stack v. induction fuel as [|fuel IH]; intros stack v Hnd Hdom Hfuel.
  - destruct v as [| | | | |l]; try done. simpl.
    destruct (h !! l) as [[props|items|f]|] eqn:Hl; try done;
      (destruct (decide (l ∈ stack)); [done|]);
      assert (NoDup (l :: stack)) as Hnd' by (by constructor);
      (assert (∀ a, a ∈ l :: stack → a ∈ dom h) as Hdom'
         by (intros a [->|Ha]%elem_of_cons;
             [by eapply elem_of_dom_2|by apply Hdom]));
      pose proof (stack_bound h _ Hnd' Hdom') as Hbound; simpl in *; lia.
  - destruct v as [| | | | |l]; try done. simpl.
    destruct (h !! l) as [[props|items|f]|] eqn:Hl; try done;
      (destruct (decide (l ∈ stack)); [done|]);
      assert (NoDup (l :: stack)) as Hnd' by (by constructor);
      (assert (∀ a, a ∈ l :: stack → a ∈ dom h) as Hdom'
         by (intros a [->|Ha]%elem_of_cons;
             [by eapply elem_of_dom_2|by apply Hdom]));
      pose proof (stack_bound h _ Hnd' Hdom') as Hbound; simpl in Hbound;
      assert (∀ v, serialize fuel h (l :: stack) v ≠ NoFuel) as Hsub
        by (intros v; apply IH; [done|done|simpl; lia]).
    + generalize (map_to_list props). intros kvs.
      assert (ser_members (serialize fuel h (l :: stack)) kvs ≠ NoFuel) as Hm.
      { induction kvs as [|[k v] kvs IHk]; simpl; [done|].
        specialize (Hsub v).
        destruct (serialize fuel h (l :: stack) v); try done.
        destruct (ser_members _ kvs); first [discriminate|assumption]. }
      destruct (ser_members _ kvs); first [discriminate|by destruct Hm].
    + clear Hl Hdom'.
      assert (ser_elements (serialize fuel h (l :: stack)) items ≠ NoFuel) as Hm.
      { induction items as [|v vs IHv]; simpl; [done|].
        specialize (Hsub v).
        destruct (serialize fuel h (l :: stack) v); try done.
        destruct (ser_elements _ vs); first [discriminate|assumption]. }
      destruct (ser_elements _ items); first [discriminate|by destruct Hm].
Qed.

Lemma stringify_never_exhausted h v : stringify h v ≠ NoFuel.
Proof.
  unfold stringify. apply serialize_fuel; [constructor| |simpl; lia].
  by intros a ?%elem_of_nil.
Qed.

Lemma json_copy_never_exhausted h v : json_copy h v ≠ Throw Exhausted.
Proof.
  unfold json_copy. pose proof (stringify_never_exhausted h v) as Hfuel.
  destruct (stringify h v) as [[j|]| |]; done.
Qed.

Lemma reachable_dom h v l : reachable h v l → l ∈ dom h.
Proof. induction 1; [by eapply elem_of_dom_2|done]. Qed.

Lemma dom_keys {A} (props : gmap string A) :
  dom props = list_to_set (map_to_list props).*1.
Proof.
  rewrite <- (list_to_map_to_list props) at 1. apply dom_list_to_map_L.
Qed.

Lemma member_of_key {A B} (props : gmap string A)
    (members : list (string * B)) k :
  members.*1 = (map_to_list props).*1 →
  (is_Some (props !! k) ↔ ∃ j, (k, j) ∈ members).
Proof.
  intros Hkeys. split.
  - intros [v Hv]. apply elem_of_map_to_list in Hv.
    assert (k ∈ members.*1) as Hk.
    { rewrite Hkeys. apply list_elem_of_fmap. by exists (k, v). }
    apply list_elem_of_fmap in Hk as ([k' j] & -> & Hj). by exists j.
  - intros [j Hj].
    assert (k ∈ (map_to_list props).*1) as Hk.
    { rewrite <- Hkeys. apply list_elem_of_fmap. by exists (k, j). }
    apply list_elem_of_fmap in Hk as ([k' v] & -> & Hv).
    apply elem_of_map_to_list in Hv. eauto.
Qed.

Lemma member_unique {B} (members : list (string * B)) k a b :
  NoDup members.*1 → (k, a) ∈ members → (k, b) ∈ members → a = b.
Proof.
  intros Hnd Ha Hb.
  apply (elem_of_list_to_map_1 (M:=gmap string) _ _ _ Hnd) in Ha.
  apply (elem_of_list_to_map_1 (M:=gmap string) _ _ _ Hnd) in Hb.
  congruence.
Qed.

(** What a document stands for is reached inside the heap in which it
    stands for it. *)
Lemma reach_stable h h' v j :
  repr h v j → h ⊆ h' → ∀ l, reachable h' v l → reachable h v l.
Proof.
  induction 1 as [| | | |a props members Ha Hkeys Hch IH
                 |a items elements Ha Hlen Hch IH];
    intros Hsub l Hr; try by inversion Hr.
  - inversion Hr as [? c Hc|? c v ? Hc Hv Hrv]; subst.
    + by eapply reach_here.
    + rewrite (lookup_weaken _ _ _ _ Ha Hsub) in Hc. simplify_eq. simpl in Hv.
      apply list_elem_of_fmap in Hv as ([k v'] & -> & Hkv). simpl in *.
      apply elem_of_map_to_list in Hkv.
      destruct (proj1 (member_of_key props members k Hkeys)) as [j Hj];
        [eauto|].
      eapply reach_child; [done| |by eapply IH].
      simpl. apply list_elem_of_fmap. exists (k, v'). split; [done|].
      by apply elem_of_map_to_list.
  - inversion Hr as [? c Hc|? c v ? Hc Hv Hrv]; subst.
    + by eapply reach_here.
    + rewrite (lookup_weaken _ _ _ _ Ha Hsub) in Hc. simplify_eq. simpl in Hv.
      apply list_elem_of_lookup_1 in Hv as [i Hi].
      destruct (lookup_lt_is_Some_2 elements i) as [j Hj].
      { rewrite Hlen. by eapply lookup_lt_Some. }
      eapply reach_child; [done| |by eapply IH].
      simpl. by eapply list_elem_of_lookup_2.
Qed.

Lemma parse_members_cons k j rest h :
  parse_members ((k, j) :: rest) h =
    let '(v, h1) := parse j h in
    let '(props, h2) := parse_members rest h1 in
    ((k, v) :: props, h2).
Proof. done. Qed.

Lemma parse_elements_cons j rest h :
  parse_elements (j :: rest) h =
    let '(v, h1) := parse j h in
    let '(items, h2) := parse_elements rest h1 in
    (v :: items, h2).
Proof. done. Qed.

Lemma parse_members_spec members :
  (∀ k j, (k, j) ∈ members →
          ∀ h v h', parse j h = (v, h') → fresh_copy h j v h') →
  ∀ h props h',
    parse_members members h = (props, h') →
    h ⊆ h' ∧
    Forall2 (λ kv kj, kv.1 = kj.1 ∧
                      (repr h' kv.2 kj.2 ∧
                       ∀ l, reachable h' kv.2 l → l ∉ dom h))
      props members.
Proof.
  induction members as [|[k j] rest IH]; intros Hall h props h' Hp.
  - injection Hp as <- <-. by split.
  - rewrite parse_members_cons in Hp.
    destruct (parse j h) as [v h1] eqn:Hj.
    destruct (parse_members rest h1) as [ps h2] eqn:Hrest.
    injection Hp as <- <-.
    destruct (Hall k j (list_elem_of_here _ _) h v h1 Hj) as (Hs1 & Hr1 & Hf1).
    destruct (IH (λ k' j' Hin, Hall k' j' (list_elem_of_further _ _ _ Hin))
                h1 ps h2 Hrest) as (Hs2 & Hrest2).
    split; [by etrans|]. constructor.
    + simpl. split; [done|]. split; [by eapply repr_mono|].
      intros l Hl. apply Hf1. by eapply reach_stable.
    + eapply Forall2_impl; [exact Hrest2|].
      intros [k1 v1] [k2 j2] (Hk & Hr & Hf). simpl in *.
      split; [done|]. split; [done|].
      intros l Hl Hdom. apply (Hf l Hl). by eapply (subseteq_dom h h1).
Qed.

Lemma parse_elements_spec elements :
  (∀ i j, elements !! i = Some j →
          ∀ h v h', parse j h = (v, h') → fresh_copy h j v h') →
  ∀ h items h',
    parse_elements elements h = (items, h') →
    h ⊆ h' ∧
    Forall2 (λ v j, repr h' v j ∧ ∀ l, reachable h' v l → l ∉ dom h)
      items elements.
Proof.
  induction elements as [|j rest IH]; intros Hall h items h' Hp.
  - injection Hp as <- <-. by split.
  - rewrite parse_elements_cons in Hp.
    destruct (parse j h) as [v h1] eqn:Hj.
    destruct (parse_elements rest h1) as [vs h2] eqn:Hrest.
    injection Hp as <- <-.
    destruct (Hall 0 j eq_refl h v h1 Hj) as (Hs1 & Hr1 & Hf1).
    destruct (IH (λ i j' Hi, Hall (S i) j' Hi) h1 vs h2 Hrest)
      as (Hs2 & Hrest2).
    split; [by etrans|]. constructor.
    + split; [by eapply repr_mono|].
      intros l Hl. apply Hf1. by eapply reach_stable.
    + eapply Forall2_impl; [exact Hrest2|].
      intros v1 j1 (Hr & Hf). split; [done|].
      intros l Hl Hdom. apply (Hf l Hl). by eapply (subseteq_dom h h1).
Qed.

Lemma alloc_extends c (h : heap) :
  (fresh (dom h) ∉ dom h) ∧ (h ⊆ <[fresh (dom h) := c]> h).
Proof.
  pose proof (is_fresh (dom h)) as Hfresh. split; [done|].
  by apply insert_subseteq, not_elem_of_dom.
Qed.

(** Parsing the document of a value builds a new copy of it. *)
Lemma parse_copy h0 v0 j :
  repr h0 v0 j → ∀ h v h', parse j h = (v, h') → fresh_copy h j v h'.
Proof.
  induction 1 as [| | | |a props members Ha Hkeys Hch IH
                 |a items elements Ha Hlen Hch IH];
    intros h v h' Hp;
    try (injection Hp as <- <-; split; [done|];
         split; [constructor|by (intros l Hl; inversion Hl)]).
  - rewrite parse_JObj in Hp.
    destruct (parse_members members h) as [ps h1] eqn:Hms.
    unfold alloc in Hp. injection Hp as <- <-.
    destruct (parse_members_spec members) with (h:=h) (props:=ps) (h':=h1)
      as (Hs1 & Hall); [|done|].
    { intros k j Hj.
      destruct (proj2 (member_of_key props members k Hkeys)) as [v Hv];
        [eauto|].
      by eapply IH. }
    destruct (alloc_extends (CObj (list_to_map ps)) h1) as (Hfresh & Hs2).
    pose proof (related_keys
                  (λ v j, repr h1 v j ∧ ∀ l, reachable h1 v l → l ∉ dom h)
                  _ _ Hall) as Hps.
    assert (NoDup members.*1) as Hnd.
    { rewrite Hkeys. apply NoDup_fst_map_to_list. }
    assert (∀ k v, (list_to_map ps : gmap string value) !! k = Some v →
                   ∃ j, (k, j) ∈ members ∧ repr h1 v j ∧
                        ∀ l, reachable h1 v l → l ∉ dom h) as Hchild.
    { intros k v Hv%elem_of_list_to_map_2.
      apply list_elem_of_lookup_1 in Hv as [i Hi].
      destruct (Forall2_lookup_l _ _ _ _ _ Hall Hi)
        as ([k' j] & Hj & Hk & Hr & Hf).
      simpl in *. subst k'. exists j. split; [|done].
      by eapply list_elem_of_lookup_2. }
    split; [by etrans|]. split.
    + eapply repr_obj; [apply lookup_insert_eq| |].
      * rewrite Hkeys. apply map_to_list_keys_dom.
        by rewrite dom_keys, dom_list_to_map_L, <- Hkeys, Hps.
      * intros k v j Hv Hj. destruct (Hchild k v Hv) as (j' & Hj' & Hr & _).
        rewrite (member_unique members k j j' Hnd Hj Hj').
        by eapply repr_mono.
    + intros l Hl. inversion Hl as [? c Hc|? c v ? Hc Hv Hrv]; subst.
      * intros Hdom. apply Hfresh. by eapply (subseteq_dom h h1).
      * rewrite lookup_insert_eq in Hc. simplify_eq. simpl in Hv.
        apply list_elem_of_fmap in Hv as ([k v'] & -> & Hkv). simpl in *.
        apply elem_of_map_to_list in Hkv.
        destruct (Hchild k v' Hkv) as (j' & _ & Hr & Hf).
        apply Hf. by eapply reach_stable.
  - rewrite parse_JArr in Hp.
    destruct (parse_elements elements h) as [vs h1] eqn:Hes.
    unfold alloc in Hp. injection Hp as <- <-.
    destruct (parse_elements_spec elements) with (h:=h) (items:=vs) (h':=h1)
      as (Hs1 & Hall); [|done|].
    { intros i j Hj.
      destruct (lookup_lt_is_Some_2 items i) as [v Hv].
      { rewrite <- Hlen. by eapply lookup_lt_Some. }
      by eapply IH. }
    destruct (alloc_extends (CArr vs) h1) as (Hfresh & Hs2).
    split; [by etrans|]. split.
    + eapply repr_arr; [apply lookup_insert_eq| |].
      * symmetry. by eapply Forall2_length.
      * intros i v j Hv Hj.
        destruct (Forall2_lookup_l _ _ _ _ _ Hall Hv) as (j' & Hj' & Hr & _).
        simplify_eq. by eapply repr_mono.
    + intros l Hl. inversion Hl as [? c Hc|? c v ? Hc Hv Hrv]; subst.
      * intros Hdom. apply Hfresh. by eapply (subseteq_dom h h1).
      * rewrite lookup_insert_eq in Hc. simplify_eq. simpl in Hv.
        apply list_elem_of_lookup_1 in Hv as [i Hi].
        destruct (Forall2_lookup_l _ _ _ _ _ Hall Hi) as (j' & _ & Hr & Hf).
        apply Hf. by eapply reach_stable.
Qed.

(** Two values that are the same document are structurally equal. *)
Lemma repr_struct_eq h1 h2 v1 j :
  repr h1 v1 j → ∀ v2, repr h2 v2 j → struct_eq h1 h2 v1 v2.
Proof.
  induction 1 as [| | | |a props members Ha Hkeys Hch IH
                 |a items elements Ha Hlen Hch IH];
    intros v2 H2;
    inversion H2 as [| | | |a' props' members' Hb Hkeys' Hch'
                    |a' items' elements' Hb Hlen' Hch'];
    subst; try by constructor.
  - eapply se_obj; [done|done| |].
    + rewrite !dom_keys. by rewrite <- Hkeys, <- Hkeys'.
    + intros k x y Hx Hy.
      destruct (proj1 (member_of_key props members k Hkeys)) as [j Hj];
        [eauto|].
      eapply IH; [done|done|]. by eapply Hch'.
  - eapply se_arr; [done|done|congruence|].
    intros i x y Hx Hy.
    destruct (lookup_lt_is_Some_2 elements i) as [j Hj].
    { rewrite Hlen. by eapply lookup_lt_Some. }
    eapply IH; [done|done|]. by eapply Hch'.
Qed.

(** [JSON.parse(JSON.stringify(v))] of a value that is a document: a new
    copy of the document. *)
Lemma json_copy_spec h v j :
  repr h v j → ∃ r h', json_copy h v = Ok (r, h') ∧ fresh_copy h j r h'.
Proof.
  intros Hrepr. unfold json_copy. rewrite (stringify_repr _ _ _ Hrepr).
  destruct (parse j h) as [r h'] eqn:Hp. exists r, h'.
  split; [done|]. by eapply parse_copy.
Qed.

End JsonFacts.

(** ** The field merger *)

Module MergeFacts.
Import JS Merger JsonFacts.

Lemma guarded_get_truthy h o name :
  truthy (guarded_get h o name) = true →
  guarded_get h o name = get_prop h o name.
Proof. unfold guarded_get. destruct (truthy o) eqn:Ho; [done|congruence]. Qed.

Lemma own_props_falsy h v : truthy v = false → own_props h v = ∅.
Proof.
  destruct v as [| |b|n|s|l]; simpl; try done.
  destruct s; [done|]. done.
Qed.

Lemma has_call_truthy h v : has_call h v = true → truthy v = true.
Proof. by destruct v. Qed.

Lemma filter_truthy_cons v l :
  filter (λ s, truthy s = true) (v :: l) =
    if truthy v then v :: filter (λ s, truthy s = true) l
    else filter (λ s, truthy s = true) l.
Proof. rewrite filter_cons. destruct (truthy v); by case_decide. Qed.

Section Facts.
Variable ext : nat → heap → res (value * heap).

Local Abbreviation merge := (merge ext).
Local Abbreviation absorb := (absorb ext).

(** C2.  When at most one of the four sources is present, [merge] gives
    back the present source itself, as it is (a plain mapping stays the
    same mapping, a factory the same function), or [user] itself when none
    is present; nothing is invoked and the heap is left as it was. *)
Theorem merge_identity name model collections complexTypes user h :
  length (sources h name model collections complexTypes user) ≤ 1 →
  merge name model collections complexTypes user h =
    Ok (default user
          (head (sources h name model collections complexTypes user)), h).
Proof.
  unfold sources, Merger.merge, counted. intros Hlen.
  pose proof (guarded_get_truthy h model name) as Hm.
  pose proof (guarded_get_truthy h collections name) as Hc.
  pose proof (guarded_get_truthy h complexTypes name) as Ht.
  rewrite !filter_truthy_cons, filter_nil in *. simpl truthy.
  destruct (truthy (guarded_get h model name)) eqn:Em;
    destruct (truthy (guarded_get h collections name)) eqn:Ec;
    destruct (truthy (guarded_get h complexTypes name)) eqn:Et;
    destruct (truthy user) eqn:Eu;
    simpl in Hlen; try lia; simpl;
    rewrite <- ?Hm, <- ?Hc, <- ?Ht by done; done.
Qed.

Lemma absorb_plain src a h :
  has_call h (src h) = false →
  absorb src a h = Ok (Acc (own_props h (src h) ∪ merged a) (isFunc a), h).
Proof.
  intros Hcall. unfold Merger.absorb. rewrite Hcall.
  destruct (truthy (src h)) eqn:Hs; [done|].
  rewrite (own_props_falsy _ _ Hs), (left_id_L ∅ (∪)). by destruct a.
Qed.

(** X1.  The merge proper, for sources none of which is a factory: when
    at least two of [model[name]], [collections[name]] and [user] are
    present, the result is one new plain mapping in which [complexTypes]
    overrides [collections], which overrides [model], which overrides
    [user]; nothing else in the heap changes. *)
Theorem merge_plain_precedence name model collections complexTypes user h :
  1 < length (counted h name model collections user) →
  Forall (λ s, has_call h s = false)
    (in_merge_order h name model collections complexTypes user) →
  merge name model collections complexTypes user h =
    Ok (VRef (fresh (dom h)),
        <[fresh (dom h) :=
            CObj (own_props h (guarded_get h complexTypes name)
                  ∪ (own_props h (guarded_get h collections name)
                     ∪ (own_props h (guarded_get h model name)
                        ∪ own_props h user)))]> h).
Proof.
  unfold counted, in_merge_order, Merger.merge. intros Hmany Hplain.
  rewrite decide_True by done.
  apply Forall_cons in Hplain as [Hu Hplain].
  apply Forall_cons in Hplain as [Hm Hplain].
  apply Forall_cons in Hplain as [Hc Hplain].
  apply Forall_cons in Hplain as [Ht _].
  rewrite (absorb_plain (λ _, user)) by done. simpl.
  rewrite (absorb_plain (λ h, guarded_get h model name)) by done. simpl.
  rewrite (absorb_plain (λ h, guarded_get h collections name)) by done. simpl.
  rewrite (absorb_plain (λ h, guarded_get h complexTypes name)) by done. simpl.
  by rewrite (right_id_L ∅ (∪)).
Qed.

Lemma absorb_keeps_isFunc src a h a' h' :
  absorb src a h = Ok (a', h') → isFunc a = true → isFunc a' = true.
Proof.
  unfold Merger.absorb. intros Hab Hf.
  destruct (truthy (src h)); [|by simplify_eq].
  destruct (has_call h (src h)).
  - destruct (invoke ext h (src h)) as [[r g]|e]; simpl in Hab; by simplify_eq.
  - by simplify_eq.
Qed.

Lemma absorb_factory src a h a' h' :
  absorb src a h = Ok (a', h') → has_call h (src h) = true →
  isFunc a' = true.
Proof.
  unfold Merger.absorb. intros Hab Hcall.
  rewrite (has_call_truthy _ _ Hcall), Hcall in Hab.
  destruct (invoke ext h (src h)) as [[r g]|e]; simpl in Hab; by simplify_eq.
Qed.

Lemma absorb_plain_heap src a h a' h' :
  absorb src a h = Ok (a', h') → has_call h (src h) = false → h' = h.
Proof.
  intros Hab Hcall. rewrite (absorb_plain _ _ _ Hcall) in Hab.
  by simplify_eq.
Qed.

(** The closure that [merge] returns for sources with a factory among
    them, called in a heap in which the captured [__merged] is the
    document [j]: it returns a new copy of [j]. *)
Lemma invoke_merged_factory h f m j :
  h !! f = Some (CFun (FJsonCopy m)) → repr h (VRef m) j →
  ∃ r h', invoke ext h (VRef f) = Ok (r, h') ∧ fresh_copy h j r h' ∧
          struct_eq h' h' (VRef m) r.
Proof.
  intros Hf Hrepr. simpl. rewrite Hf. simpl.
  destruct (json_copy_spec _ _ _ Hrepr) as (r & h' & -> & Hcopy).
  exists r, h'. split; [done|]. split; [done|].
  destruct Hcopy as (Hsub & Hr & _).
  eapply repr_struct_eq; [|done]. by eapply repr_mono.
Qed.

End Facts.

Import Samples.

(** The precedence example of the spec: [user = {a:1}],
    [model = {a:2, b:2}], [collections = {a:3, c:3}] for the section
    "state" give [{a:3, b:2, c:3}]. *)
Lemma merge_precedence_example :
  ∃ l h,
    merge no_ext "state" (VRef 2) (VRef 4) VUndef (VRef 1) precedence_heap
      = Ok (VRef l, h) ∧
    own_props h (VRef l)
      = {[ "a" := VNum 3; "b" := VNum 2; "c" := VNum 3 ]}.
Proof.
  eexists _, _. split; [reflexivity|]. by vm_compute.
Qed.

(** C1: the failing input.  With only [user = {a:1}] and
    [complexTypes.state = {b:4}] present, [merge] does not merge: it hands
    back the mapping of [complexTypes] itself, which has no member [a]. *)
Theorem merge_user_complexTypes_pair :
  sources precedence_heap "state" VUndef VUndef (VRef 6) (VRef 1)
    = [VRef 7; VRef 1] ∧
  merge no_ext "state" VUndef VUndef (VRef 6) (VRef 1) precedence_heap
    = Ok (VRef 7, precedence_heap) ∧
  get_prop precedence_heap (VRef 1) "a" = VNum 1 ∧
  get_prop precedence_heap (VRef 7) "a" = VUndef.
Proof. repeat split. Qed.

Lemma struct_eq_objects h1 h2 l1 l2 props1 props2 :
  struct_eq h1 h2 (VRef l1) (VRef l2) →
  h1 !! l1 = Some (CObj props1) → h2 !! l2 = Some (CObj props2) →
  dom props1 = dom props2.
Proof. intros Heq H1 H2. inversion Heq; by simplify_eq. Qed.


Lemma merged_heap_document : repr merged_heap (VRef 9) merged_document.
Proof.
  eapply repr_obj; [by vm_compute|by vm_compute|].
  intros k v j Hk Hj.
  repeat (apply elem_of_cons in Hj as [[= -> ->]|Hj]);
    [| |by apply elem_of_nil in Hj];
    vm_compute in Hk; injection Hk as <-; [|constructor].
  eapply repr_obj; [by vm_compute|by vm_compute|].
  intros k v j Hk Hj.
  repeat (apply elem_of_cons in Hj as [[= -> ->]|Hj]);
    [|by apply elem_of_nil in Hj].
  vm_compute in Hk. injection Hk as <-. constructor.
Qed.


Lemma merge_identity_witness :
  merge no_ext "state" (VRef 2) VUndef VUndef VUndef precedence_heap
  = Ok (VRef 3, precedence_heap).
Proof.
  apply (merge_identity no_ext "state" (VRef 2) VUndef VUndef VUndef
           precedence_heap).
  vm_compute. lia.
Defined.

End MergeFacts.

(** ** The liveness probe and the lifecycle hooks *)

Module LifecycleFacts.
Import JS Lifecycle.

Section Facts.
Context {S : Type} `{StoreAPI S}.
Variable ext : nat → JS.heap → res (value * JS.heap).
Variable comb : nat → string.
Variable storeModule : module_def.
Variable moduleName : string.
Variable user_preFetch : option (context → world S → settled * world S).
Variable user_destroyed : option (M S unit).

Local Abbreviation path := (moduleName +:+ "/" +:+ validationField).
Local Abbreviation probe := (checkModule comb storeModule moduleName).
Local Abbreviation unregister := (do_unregister moduleName).
Local Abbreviation drawn := (Lifecycle.drawn).
Local Abbreviation committed := (Lifecycle.committed comb moduleName).

Lemma has_validation_spec :
  has_validation storeModule = true ↔
  ∃ ms, mutations storeModule = Some ms ∧ is_Some (ms !! validationField).
Proof.
  unfold has_validation. destruct (mutations storeModule) as [ms|].
  - rewrite bool_decide_eq_true. split.
    + intros Hv. by exists ms.
    + by intros (? & [= <-] & Hv).
  - split; [done|]. by intros (? & [=] & _).
Qed.

Lemma checkModule_unfold success failure w :
  has_validation storeModule = true →
  probe success failure w =
    if probe_runs moduleName (store w) then
      if probe_reads_back moduleName (store w) (comb (issued w))
      then call_if success (committed w)
      else call_if failure (committed w)
    else call_if failure (drawn w).
Proof.
  intros (ms & Hms & Hv)%has_validation_spec.
  unfold checkModule, probe_runs, probe_reads_back, Lifecycle.committed,
    Lifecycle.drawn.
  rewrite Hms, (bool_decide_eq_true_2 _ Hv).
  unfold mbind, M_bind, uuid_comb, get_store, do_commit, on_store, read_field.
  simpl.
  destruct (bool_decide (is_Some (state_of (store w) moduleName))
            && handlers_at (store w) path); [|done].
  simpl. by repeat case_bool_decide.
Qed.

Lemma checkModule_skip success failure w :
  has_validation storeModule = false →
  (probe success failure w).2 = w.
Proof.
  unfold has_validation, checkModule.
  destruct (mutations storeModule) as [ms|]; [|done].
  intros ->. done.
Qed.

(** C4 (as amended).  When the module definition declares the validation
    mutation, the probe draws a fresh token; if the module is registered
    and its namespaced validation mutation is installed, it commits the
    token through that mutation and reads the validation field back,
    and then runs the success callback exactly when the value read back
    is the token, the failure callback otherwise; if the module is absent
    or the mutation is not installed, it runs the failure callback. *)
Theorem checkModule_probe success failure w ms :
  mutations storeModule = Some ms →
  is_Some (ms !! validationField) →
  probe success failure w =
    if probe_runs moduleName (store w) then
      if probe_reads_back moduleName (store w) (comb (issued w))
      then call_if success (committed w)
      else call_if failure (committed w)
    else call_if failure (drawn w).
Proof.
  intros Hms Hv. apply checkModule_unfold, has_validation_spec. eauto.
Qed.

Local Abbreviation quiet c :=
  (c ≠ UnregisterModule moduleName ∧ c ≠ RegisterModule moduleName).

Lemma start_initialize_calls ctx w :
  ∃ tail, calls (start_initialize moduleName ctx w).2 = calls w ++ tail ∧
          Forall (λ c, quiet c) tail.
Proof.
  unfold start_initialize, read_fetched, member, log, do_dispatch, on_store,
    get_store, mbind, M_bind, ret, throw. simpl.
  destruct (state_of (store w) moduleName) as [st|]; simpl;
    [|exists []; by rewrite app_nil_r].
  destruct (default VUndef (st !! fetchedField)); simpl;
    first
      [ by (exists []; rewrite app_nil_r)
      | try destruct (truthy _); simpl; rewrite <- ?app_assoc;
        eexists; (split; [reflexivity|]); by repeat constructor ].
Qed.

Lemma start_initialize_returns ctx w r fetched w1 :
  start_initialize moduleName ctx w = (Ok (r, fetched), w1) → r = RetUndefined.
Proof.
  unfold start_initialize, read_fetched, member, log, do_dispatch, on_store,
    get_store, mbind, M_bind, ret, throw. simpl.
  destruct (state_of (store w) moduleName) as [st|]; simpl; [|done].
  destruct (default VUndef (st !! fetchedField)); simpl; try done;
    try destruct (truthy _); simpl; congruence.
Qed.

Lemma preFetch_unfold ctx w :
  preFetch comb storeModule moduleName ctx w =
    match probe (Some unregister) None w with
    | (Ok _, w1) =>
        start_initialize moduleName ctx
          (World (registerModule moduleName storeModule (store w1))
             (js_heap w1) (calls w1 ++ [RegisterModule moduleName])
             (issued w1))
    | (Throw e, w1) => (Throw e, w1)
    end.
Proof.
  unfold preFetch, mbind, M_bind.
  destruct (probe _ _ w) as [[[]|e] w1]; done.
Qed.

Lemma destroyed_unfold w :
  destroyed comb storeModule moduleName user_destroyed w =
    match call_if user_destroyed w with
    | (Ok _, w1) => probe (Some unregister) None w1
    | (Throw e, w1) => (Throw e, w1)
    end.
Proof. done. Qed.

(** C5 (as amended).  In a mount transition ([page.preFetch]) of a page
    whose module definition declares the validation mutation, a live
    instance is not reused: when the probe succeeds the hook commits the
    token, unregisters the module and registers the definition again
    under the same name; when it does not succeed the hook registers
    without unregistering.  No further registration or unregistration
    follows. *)
Theorem preFetch_registers_anew ctx w :
  has_validation storeModule = true →
  ∃ tail,
    Forall (λ c, quiet c) tail ∧
    calls (preFetch comb storeModule moduleName ctx w).2 =
      calls w
      ++ (if probe_succeeds moduleName (store w) (comb (issued w))
          then [Commit path (VStr (comb (issued w)));
                UnregisterModule moduleName]
          else if probe_runs moduleName (store w)
               then [Commit path (VStr (comb (issued w)))]
               else [])
      ++ RegisterModule moduleName :: tail.
Proof.
  intros Hv. rewrite preFetch_unfold, (checkModule_unfold _ _ _ Hv).
  unfold probe_succeeds.
  destruct (probe_runs moduleName (store w)); simpl.
  - destruct (probe_reads_back _ _ _); simpl;
      unfold mbind, M_bind, do_unregister, on_store, ret; simpl;
      match goal with
      | |- context [start_initialize _ _ ?w0] =>
          destruct (start_initialize_calls ctx w0) as (tail & -> & Hq)
      end; exists tail; (split; [done|]); simpl;
      by rewrite <- !app_assoc.
  - match goal with
    | |- context [start_initialize _ _ ?w0] =>
        destruct (start_initialize_calls ctx w0) as (tail & -> & Hq)
    end. exists tail. split; [done|]. simpl. by rewrite <- !app_assoc.
Qed.

(** C6 (as amended).  [page.preFetch] hands nothing back to its caller:
    whenever it returns, it returns [undefined], not the promise chain.
    When the dispatched [initialize] is rejected the chain ends rejected
    without running any of its callbacks: the page's own [preFetch] is
    not called and nothing is committed, so the fetch flag is not set to
    [true] by that attempt. *)
Theorem preFetch_rejected_initialize ctx w r fetched w1 :
  preFetch comb storeModule moduleName ctx w = (Ok (r, fetched), w1) →
  r = RetUndefined ∧
  preFetch_chain ext moduleName user_preFetch ctx fetched Rejected w1
    = (Rejected, w1).
Proof.
  rewrite preFetch_unfold. intros Hrun. split; [|done].
  destruct (probe _ _ w) as [[[]|e] w0]; [|done].
  by eapply start_initialize_returns.
Qed.

(** C8.  [page.destroyed] runs the page's own hook and then the probe,
    with the unregistration as its success callback: when the probe
    succeeds the module is unregistered from the store; when it does not
    (the module definition declares no validation mutation, the module
    is absent, the mutation is not installed, or another value is read
    back) no [unregisterModule] call is made and the store is as the
    page's own hook left it, but for the commit of the token when the
    probe got that far. *)
Theorem destroyed_unregisters_on_success w w1 :
  call_if user_destroyed w = (Ok (), w1) →
  destroyed comb storeModule moduleName user_destroyed w
    = probe (Some unregister) None w1 ∧
  if has_validation storeModule
     && probe_succeeds moduleName (store w1) (comb (issued w1))
  then
    destroyed comb storeModule moduleName user_destroyed w =
      (Ok (),
       World (unregisterModule moduleName (store (committed w1)))
         (js_heap w1)
         (calls (committed w1) ++ [UnregisterModule moduleName])
         (Datatypes.S (issued w1)))
  else
    ∃ tail,
      calls (destroyed comb storeModule moduleName user_destroyed w).2
        = calls w1 ++ tail ∧
      Forall (λ c, ∀ n, c ≠ UnregisterModule n) tail ∧
      (store (destroyed comb storeModule moduleName user_destroyed w).2
         = store w1 ∨
       store (destroyed comb storeModule moduleName user_destroyed w).2
         = store (committed w1)).
Proof.
  intros Huser.
  assert (destroyed comb storeModule moduleName user_destroyed w
          = probe (Some unregister) None w1) as Hd.
  { unfold destroyed. unfold mbind at 1. unfold M_bind. by rewrite Huser. }
  split; [done|]. rewrite Hd.
  destruct (has_validation storeModule) eqn:Hv; simpl.
  - rewrite (checkModule_unfold _ _ _ Hv). unfold probe_succeeds.
    destruct (probe_runs moduleName (store w1)); simpl.
    + destruct (probe_reads_back _ _ _); simpl; [done|].
      eexists [_]. split; [done|]. split; [|by right].
      by repeat constructor.
    + exists []. rewrite app_nil_r. split; [done|]. split; [done|by left].
  - rewrite (checkModule_skip _ _ _ Hv). exists [].
    rewrite app_nil_r. split; [done|]. split; [done|by left].
Qed.

(** C10.  When the module definition handed to [page] declares no
    mutation named "@@", the probe runs neither of its callbacks and
    leaves the world as it found it; hence [page.destroyed] does nothing
    beyond the page's own hook (no [unregisterModule] call, the module
    registry is untouched), and [page.preFetch] makes no
    [unregisterModule] call: where the definition has mutations at all,
    its first call on the store is the registration. *)
Theorem no_validation_mutation :
  has_validation storeModule = false →
  (∀ success failure w, (probe success failure w).2 = w) ∧
  (∀ w, (destroyed comb storeModule moduleName user_destroyed w).2
        = (call_if user_destroyed w).2) ∧
  (∀ ctx w, ∃ tail,
      calls (preFetch comb storeModule moduleName ctx w).2 = calls w ++ tail ∧
      Forall (λ c, c ≠ UnregisterModule moduleName) tail ∧
      (is_Some (mutations storeModule) →
       head tail = Some (RegisterModule moduleName))).
Proof.
  intros Hv. split; [|split].
  - intros. by apply checkModule_skip.
  - intros w. unfold destroyed. unfold mbind at 1. unfold M_bind.
    destruct (call_if user_destroyed w) as [[[]|e] w1]; [|done].
    by apply checkModule_skip.
  - intros ctx w. rewrite preFetch_unfold.
    pose proof (checkModule_skip (Some unregister) None w Hv) as Hw.
    destruct (probe _ _ w) as [[[]|e] w1] eqn:Hp; simpl in Hw; subst w1.
    + match goal with
      | |- context [start_initialize _ _ ?w0] =>
          destruct (start_initialize_calls ctx w0) as (tail & -> & Hq)
      end. exists (RegisterModule moduleName :: tail). simpl.
      rewrite <- app_assoc. split; [done|]. split; [|done].
      constructor; [done|]. eapply Forall_impl; [exact Hq|]. by intros ? [].
    + exists []. rewrite app_nil_r. split; [done|]. split; [done|].
      intros [ms Hms]. unfold checkModule in Hp. rewrite Hms in Hp.
      unfold has_validation in Hv. rewrite Hms in Hv. by rewrite Hv in Hp.
Qed.
End Facts.

Import Vuex Samples.

(** C4: the claim as stated fails for a page whose module definition
    declares no validation mutation.  With the module absent, the failure
    callback is not run; with a module registered under the name and its
    namespaced validation mutation installed, no token is committed and
    neither callback is run. *)
Lemma checkModule_without_validation_is_silent :
  state_of (store fresh_world) "jobs" = None ∧
  checkModule token bare "jobs" (Some (traced "success"))
    (Some (traced "failure")) fresh_world = (Ok (), fresh_world) ∧
  probe_runs "jobs" (store mounted_once) = true ∧
  checkModule token bare "jobs" (Some (traced "success"))
    (Some (traced "failure")) mounted_once = (Ok (), mounted_once).
Proof. repeat split. Qed.

Lemma checkModule_probe_witness :
  checkModule token validated "jobs" (Some (traced "success"))
    (Some (traced "failure")) mounted_once
  = if probe_runs "jobs" (store mounted_once) then
      if probe_reads_back "jobs" (store mounted_once)
           (token (issued mounted_once))
      then call_if (Some (traced "success"))
             (committed token "jobs" mounted_once)
      else call_if (Some (traced "failure"))
             (committed token "jobs" mounted_once)
    else call_if (Some (traced "failure")) (drawn mounted_once).
Proof.
  eapply (checkModule_probe token validated "jobs").
  - reflexivity.
  - by eexists.
Defined.

(** C5: the claim as stated fails.  A second mount finds the module live
    (its probe succeeds) and yet unregisters it and registers it again. *)
Lemma preFetch_live_module_is_replaced :
  probe_succeeds "jobs" (store mounted_once) (token (issued mounted_once))
    = true ∧
  calls (preFetch token validated "jobs" somewhere mounted_once).2 =
    calls mounted_once ++
    [ Commit "jobs/@@" (VStr (token 1));
      UnregisterModule "jobs";
      RegisterModule "jobs";
      Dispatch "jobs/initialize" (RouteArgs (VStr "/jobs") (VStr "/") VUndef) ].
Proof. split; reflexivity. Qed.

Lemma preFetch_registers_anew_witness :
  ∃ tail,
    Forall (λ c, c ≠ UnregisterModule "jobs" ∧ c ≠ RegisterModule "jobs") tail ∧
    calls (preFetch token validated "jobs" somewhere mounted_once).2 =
      calls mounted_once
      ++ (if probe_succeeds "jobs" (store mounted_once)
               (token (issued mounted_once))
          then [Commit ("jobs" +:+ "/" +:+ validationField)
                  (VStr (token (issued mounted_once)));
                UnregisterModule "jobs"]
          else if probe_runs "jobs" (store mounted_once)
               then [Commit ("jobs" +:+ "/" +:+ validationField)
                       (VStr (token (issued mounted_once)))]
               else [])
      ++ RegisterModule "jobs" :: tail.
Proof.
  apply (preFetch_registers_anew token validated "jobs" somewhere mounted_once).
  reflexivity.
Defined.

(** C6: the claim as stated fails.  The hook returns [undefined], not the
    promise chain, although the chain ends rejected when [initialize] is
    rejected: the rejection does not reach the caller of the hook. *)
Lemma preFetch_rejection_stays_in_chain :
  (preFetch token validated "jobs" somewhere fresh_world).1
    = Ok (RetUndefined, VBool false) ∧
  RetUndefined ≠ RetChain ∧
  (preFetch_chain no_ext "jobs" None somewhere (VBool false) Rejected
     mounted_once).1 = Rejected.
Proof. split; [reflexivity|]. split; [discriminate|reflexivity]. Qed.

Lemma preFetch_rejected_initialize_witness :
  RetUndefined = RetUndefined ∧
  preFetch_chain no_ext "jobs" None somewhere (VBool false) Rejected
    mounted_once = (Rejected, mounted_once).
Proof.
  apply (preFetch_rejected_initialize no_ext token validated "jobs" None
           somewhere fresh_world).
  reflexivity.
Defined.

Lemma destroyed_unregisters_on_success_witness :
  destroyed token validated "jobs" None mounted_once
  = checkModule token validated "jobs" (Some (do_unregister "jobs")) None
      mounted_once.
Proof.
  apply (destroyed_unregisters_on_success token validated "jobs" None
           mounted_once mounted_once).
  reflexivity.
Defined.

Lemma no_validation_mutation_witness :
  (checkModule token bare "jobs" (Some (traced "success"))
     (Some (traced "failure")) mounted_once).2 = mounted_once ∧
  (destroyed token bare "jobs" None mounted_once).2
    = (call_if (A:=unit) None mounted_once).2.
Proof.
  destruct (no_validation_mutation (S:=vstore) token bare "jobs" None)
    as (Hprobe & Hdestroyed & _); [reflexivity|].
  split; [apply Hprobe|apply Hdestroyed].
Defined.

End LifecycleFacts.

(** ** The registry under sequences of lifecycle events *)

Module RegistryFacts.
Import JS Lifecycle Vuex LifecycleFacts.

Lemma strip_prefix_app p s : strip_prefix p (p +:+ s) = Some s.
Proof.
  induction p as [|a p IH]; simpl; [done|]. by rewrite Ascii.eqb_refl.
Qed.

Lemma string_app_assoc (a b c : string) : (a +:+ b) +:+ c = a +:+ b +:+ c.
Proof.
  induction a as [|x a IH]; [done|].
  change (String x ((a +:+ b) +:+ c) = String x (a +:+ b +:+ c)).
  by rewrite IH.
Qed.

Lemma handlers_for_app path l1 l2 :
  handlers_for path (l1 ++ l2) = handlers_for path l1 ++ handlers_for path l2.
Proof. unfold handlers_for. apply omap_app. Qed.

Lemma run_handlers_presence payload hs st k :
  is_Some (foldl (run_handler payload) st hs !! k) ↔ is_Some (st !! k).
Proof.
  revert st. induction hs as [|h hs IH]; intros st; simpl; [done|].
  rewrite IH. unfold run_handler.
  destruct (st !! h.1) as [local|] eqn:Hl; [|done].
  destruct (decide (h.1 = k)) as [<-|Hne].
  - rewrite lookup_insert_eq, Hl. split; eauto.
  - by rewrite lookup_insert_ne.
Qed.

Lemma vcommit_keeps_registry name path payload s :
  registry_ok name s → registry_ok name (vcommit path payload s).
Proof.
  intros [Hothers Hown]. split; [done|].
  destruct Hown as [[Hst Hh]|[Hst Hh]]; [left|right]; split; try done; simpl.
  - apply eq_None_not_Some. rewrite run_handlers_presence.
    by apply eq_None_not_Some.
  - by apply run_handlers_presence.
Qed.

Lemma vunregister_absent name s :
  registry_ok name s →
  registry_ok name (vunregister name s) ∧ absent name (vunregister name s).
Proof.
  intros [Hothers _].
  assert (absent name (vunregister name s)) as Ha.
  { split; simpl; [apply lookup_delete_eq|done]. }
  split; [|done]. split; [|by left]. simpl. by rewrite delete_delete_eq.
Qed.

Section Instance.
Variable comb : nat → string.
Variable ext : nat → JS.heap → res (value * JS.heap).
Variable storeModule : module_def.
Variable moduleName : string.
Variable user_preFetch : option (context → world vstore → settled * world vstore).
Variable user_created user_mounted user_destroyed : option (M vstore unit).

Local Abbreviation path := (moduleName +:+ "/" +:+ validationField).
Local Abbreviation ok w := (registry_ok moduleName (store w)).
Local Abbreviation step :=
  (Lifecycle.step ext comb storeModule moduleName user_preFetch
     user_created user_mounted user_destroyed).
Local Abbreviation run :=
  (Lifecycle.run ext comb storeModule moduleName user_preFetch
     user_created user_mounted user_destroyed).

(** The module definition is the one the factory builds. *)
Hypothesis module_namespaced : namespaced storeModule = true.
Hypothesis module_validation :
  ∃ ms, mutations storeModule = Some ms ∧
        ms !! validationField = Some (assign validationField).
(** The page's own hooks leave the registry as described. *)
Hypothesis user_preFetch_ok : ∀ f ctx w,
  user_preFetch = Some f → ok w → ok (f ctx w).2.
Hypothesis user_created_ok : ∀ w, ok w → ok (call_if user_created w).2.
Hypothesis user_mounted_ok : ∀ w, ok w → ok (call_if user_mounted w).2.
Hypothesis user_destroyed_ok : ∀ w, ok w → ok (call_if user_destroyed w).2.

Lemma module_has_validation : has_validation storeModule = true.
Proof.
  destruct module_validation as (ms & Hms & Hv).
  apply has_validation_spec. exists ms. by rewrite Hv.
Qed.

Lemma own_handler :
  handler_of moduleName storeModule path = Some (assign validationField).
Proof.
  destruct module_validation as (ms & Hms & Hv).
  unfold handler_of. rewrite Hms, module_namespaced. simpl.
  by rewrite <- string_app_assoc, strip_prefix_app.
Qed.

Lemma vregister_present s :
  registry_ok moduleName s → absent moduleName s →
  registry_ok moduleName (vregister moduleName storeModule s) ∧
  present moduleName (vregister moduleName storeModule s).
Proof.
  intros [Hothers _] [Hst Hh].
  assert (present moduleName (vregister moduleName storeModule s)) as Hp.
  { split; simpl.
    - rewrite lookup_insert_eq. eauto.
    - rewrite handlers_for_app, Hh. simpl. by rewrite own_handler. }
  split; [|done]. split; [|by right]. simpl. by rewrite delete_insert_eq.
Qed.

Lemma absent_probe s : absent moduleName s → probe_runs moduleName s = false.
Proof. intros [Hst _]. unfold probe_runs. simpl. by rewrite Hst. Qed.

Lemma present_probe s t :
  present moduleName s → probe_succeeds moduleName s t = true.
Proof.
  intros [[st Hst] Hh]. unfold probe_succeeds, probe_runs, probe_reads_back.
  simpl. rewrite Hst, Hh. simpl. unfold run_handler. simpl. rewrite Hst.
  rewrite lookup_insert_eq. unfold assign. simpl.
  rewrite lookup_insert_eq. simpl. by rewrite bool_decide_eq_true_2.
Qed.

Lemma start_initialize_store ctx (w : world vstore) :
  store (start_initialize moduleName ctx w).2 = store w.
Proof.
  unfold start_initialize, read_fetched, member, log, do_dispatch, on_store,
    get_store, mbind, M_bind, ret, throw. simpl.
  destruct (vs_state (store w) !! moduleName) as [st|]; simpl; [|done].
  destruct (default VUndef (st !! fetchedField)); simpl; try done;
    try destruct (truthy _); done.
Qed.

(** The probe with the unregistration as its success callback leaves no
    instance. *)
Lemma probe_unregister w :
  ok w →
  ∃ w1, checkModule comb storeModule moduleName
          (Some (do_unregister moduleName)) None w = (Ok (), w1) ∧
        ok w1 ∧ absent moduleName (store w1).
Proof.
  intros Hok. rewrite (checkModule_unfold _ _ _ _ _ _ module_has_validation).
  destruct (Hok) as [_ [Ha|Hp]].
  - rewrite (absent_probe _ Ha). eexists. split; [reflexivity|]. done.
  - pose proof (present_probe _ (comb (issued w)) Hp) as Hs.
    unfold probe_succeeds in Hs. apply andb_true_iff in Hs as [-> ->].
    eexists. split; [reflexivity|]. simpl.
    apply vunregister_absent. by apply vcommit_keeps_registry.
Qed.

Lemma preFetch_present ctx w :
  ok w →
  ok (step w (TPreFetch ctx)) ∧ present moduleName (store (step w (TPreFetch ctx))).
Proof.
  intros Hok. simpl. rewrite preFetch_unfold.
  destruct (probe_unregister w Hok) as (w1 & -> & Hok1 & Ha).
  rewrite start_initialize_store. simpl. by apply vregister_present.
Qed.

Lemma destroyed_absent w w1 :
  ok w → call_if user_destroyed w = (Ok (), w1) →
  ok (step w TDestroyed) ∧ absent moduleName (store (step w TDestroyed)).
Proof.
  intros Hok Huser. simpl. rewrite destroyed_unfold, Huser.
  assert (ok w1) as Hok1.
  { pose proof (user_destroyed_ok w Hok) as Hu. by rewrite Huser in Hu. }
  by destruct (probe_unregister w1 Hok1) as (w2 & -> & Hok2 & Ha).
Qed.

Lemma step_keeps_registry w t : ok w → ok (step w t).
Proof.
  intros Hok. destruct t as [ctx|ctx fetched initialize| | |].
  - by apply preFetch_present.
  - simpl. unfold preFetch_chain. destruct initialize; [|done].
    destruct user_preFetch as [f|] eqn:Hf.
    + pose proof (user_preFetch_ok f ctx w eq_refl Hok) as Hu.
      destruct (f ctx w) as [[] w1]; simpl in *; [|done].
      unfold member, invoke_ext, do_commit, on_store, mbind, M_bind, ret,
        throw.
      destruct fetched; simpl; try done;
        repeat (case_match; simplify_eq/=); try done;
        by apply vcommit_keeps_registry.
    + unfold member, invoke_ext, do_commit, on_store, mbind, M_bind, ret,
        throw.
      destruct fetched; simpl; try done;
        repeat (case_match; simplify_eq/=); try done;
        by apply vcommit_keeps_registry.
  - by apply user_created_ok.
  - simpl. unfold mounted, do_commit, on_store. unfold mbind at 1.
    unfold M_bind. apply user_mounted_ok. simpl.
    by apply vcommit_keeps_registry.
  - simpl. rewrite destroyed_unfold.
    pose proof (user_destroyed_ok w Hok) as Hu.
    destruct (call_if user_destroyed w) as [[[]|e] w1]; simpl in *; [|done].
    by destruct (probe_unregister w1 Hu) as (w2 & -> & Hok2 & Ha).
Qed.

Lemma run_keeps_registry ts w : ok w → ok (run ts w).
Proof.
  revert w. induction ts as [|t ts IH]; intros w Hok; simpl; [done|].
  apply IH. by apply step_keeps_registry.
Qed.

Lemma registry_ok_instances s :
  registry_ok moduleName s → instances moduleName s ≤ 1.
Proof.
  intros [_ [[_ Hh]|[_ Hh]]]; unfold instances; rewrite Hh; simpl; lia.
Qed.

(** C7 (as amended).  Take the views of a page whose module definition is
    namespaced and carries the generated validation mutation, a store in
    which no other module installs a handler on the validation path of
    the module name and which holds at most that one instance under the
    name, and hooks of the page itself that leave this so.  Then after
    every sequence of lifecycle events of such views at most one module
    instance is registered under the name, never two; every mount
    ([page.preFetch]) leaves exactly one, and every unmount
    ([page.destroyed] whose own hook returns) leaves none, whichever
    views are still mounted. *)
Theorem at_most_one_instance ts w :
  ok w →
  instances moduleName (store (run ts w)) ≤ 1 ∧
  (∀ ctx, instances moduleName (store (step (run ts w) (TPreFetch ctx))) = 1) ∧
  (∀ w1, call_if user_destroyed (run ts w) = (Ok (), w1) →
         instances moduleName (store (step (run ts w) TDestroyed)) = 0).
Proof.
  intros Hok. pose proof (run_keeps_registry ts w Hok) as Hrun.
  split; [by apply registry_ok_instances|]. split.
  - intros ctx. destruct (preFetch_present ctx _ Hrun) as [_ [_ Hh]].
    unfold instances. by rewrite Hh.
  - intros w1 Huser.
    destruct (destroyed_absent _ w1 Hrun Huser) as [_ [_ Hh]].
    unfold instances. by rewrite Hh.
Qed.
End Instance.

Import Samples.

(** C7: the claim as stated fails.  A first view runs its mount hooks for
    the module "jobs", a second view starts mounting on the same name (its
    [page.preFetch] runs) and the first view unmounts: its probe succeeds
    on the instance that the second view has just registered, and the
    unmount unregisters it.  The second view finishes mounting and both
    promise chains settle; no instance is left although the second view is
    mounted. *)
Lemma mount_mount_unmount_leaves_none :
  instances "jobs"
    (store (run no_ext token validated "jobs" None None None None
              [ TPreFetch somewhere; TCreated; TMounted;
                TPreFetch somewhere;
                TDestroyed;
                TCreated; TMounted;
                TSettle somewhere (VBool false) Fulfilled;
                TSettle somewhere (VBool false) Fulfilled ]
              fresh_world)) = 0 ∧
  state_of
    (store (run no_ext token validated "jobs" None None None None
              [ TPreFetch somewhere; TCreated; TMounted;
                TPreFetch somewhere;
                TDestroyed;
                TCreated; TMounted;
                TSettle somewhere (VBool false) Fulfilled;
                TSettle somewhere (VBool false) Fulfilled ]
              fresh_world)) "jobs" = None ∧
  instances "jobs"
    (store (run no_ext token validated "jobs" None None None None
              [ TPreFetch somewhere; TPreFetch somewhere; TDestroyed ]
              fresh_world)) = 0.
Proof. repeat split. Qed.

Lemma at_most_one_instance_witness :
  instances "jobs"
    (store (run no_ext token validated "jobs" None None None None
              [TPreFetch somewhere; TPreFetch somewhere] fresh_world)) ≤ 1.
Proof.
  apply (at_most_one_instance token no_ext validated "jobs" None None None None).
  - reflexivity.
  - eexists. split; reflexivity.
  - intros f ctx w [=].
  - intros w Hw. exact Hw.
  - intros w Hw. exact Hw.
  - intros w Hw. exact Hw.
  - split; [reflexivity|]. left. split; reflexivity.
Defined.

End RegistryFacts.

(** ** The names of the per-property actions *)

Module SetupFacts.
Import Setup.

(** The letters that [/^[aeiou].*/i] accepts in first position. *)
Lemma is_vowel_spec c :
  is_vowel c = true ↔ c ∈ String.list_ascii_of_string "aeiouAEIOU".
Proof.
  unfold is_vowel. rewrite existsb_exists. split.
  - intros (x & Hx & Heq). apply Ascii.eqb_eq in Heq as ->.
    by apply list_elem_of_In.
  - intros Hc. exists c. split; [by apply list_elem_of_In|].
    apply Ascii.eqb_refl.
Qed.

Lemma matches_vowel_start_spec s :
  matches_vowel_start s = true ↔
  ∃ c rest, s = String c rest ∧ c ∈ String.list_ascii_of_string "aeiouAEIOU".
Proof.
  destruct s as [|c rest]; simpl.
  - split; [done|]. by intros (? & ? & [=] & _).
  - rewrite is_vowel_spec. split.
    + intros Hc. by exists c, rest.
    + by intros (? & ? & [= <- <-] & Hc).
Qed.

Section Facts.
Variable pascal camel : string → string.
Variable defaultUpsertPrefix defaultDeletePrefix : string.
Variable moduleName : string.
Variable computed_bound : bool.
Variable mapState : list string → gmap string JS.value.

Local Abbreviation bind_property := (bind_property pascal moduleName).
Local Abbreviation bound_actions :=
  (bound_actions pascal defaultUpsertPrefix defaultDeletePrefix moduleName).
Local Abbreviation bind_collection :=
  (bind_collection pascal camel defaultUpsertPrefix defaultDeletePrefix
     moduleName computed_bound).
Local Abbreviation bind_collections :=
  (bind_collections pascal camel defaultUpsertPrefix defaultDeletePrefix
     moduleName computed_bound).
Local Abbreviation setup_collections :=
  (setup_collections pascal camel defaultUpsertPrefix defaultDeletePrefix
     moduleName computed_bound).
Local Abbreviation actionName := (actionName pascal).

(** A pass of the loop body that runs to its end has met [computed]
    bound, and leaves the actions of [bound_actions]. *)
Lemma bind_collection_inv actions getters c acc :
  bind_collection (actions, getters) c = Value acc →
  computed_bound = true ∧ acc.1 = bound_actions actions c.
Proof.
  unfold Setup.bind_collection, Setup.bound_actions.
  destruct computed_bound; [|done]. by intros [= <-].
Qed.

Lemma bind_collections_inv collections actions getters acc :
  bind_collections collections (actions, getters) = Value acc →
  acc.1 = foldl bound_actions actions collections ∧
  (collections ≠ [] → computed_bound = true).
Proof.
  revert actions getters.
  induction collections as [|c cs IH]; intros actions getters.
  - by intros [= <-].
  - change (bind_collections (c :: cs) (actions, getters))
      with (bind_collection (actions, getters) c ≫= bind_collections cs).
    destruct (bind_collection (actions, getters) c) as [[actions1 getters1]| |]
      eqn:Hc; [|done|done].
    apply bind_collection_inv in Hc as [Hbound Hactions]. simpl in Hactions.
    subst actions1. unfold mbind, evaluated_bind. by intros [-> _]%IH.
Qed.

(** The actions that the collections part of [page.setup] ends with,
    when it runs to its end. *)
Lemma setup_collections_inv collections actions getters :
  setup_collections collections = Value (actions, getters) →
  actions =
    foldl bound_actions
      (if existsb (λ c, bool_decide (is_Some (type c))) collections
       then {[ "setPropertyOfACollectionItem" :=
                 ForwardFields (moduleName +:+ "/setPropertyOfACollectionItem") ]}
       else ∅)
      collections ∧
  (collections ≠ [] → computed_bound = true).
Proof.
  unfold Setup.setup_collections. by intros [<- ?]%bind_collections_inv.
Qed.

Lemma bind_properties_keep c properties actions k :
  is_Some (actions !! k) →
  is_Some (foldl (bind_property c) actions properties !! k).
Proof.
  revert actions. induction properties as [|p ps IH]; intros actions Hk;
    simpl; [done|].
  apply IH. unfold Setup.bind_property. rewrite lookup_insert_is_Some.
  destruct (decide (actionName c p = k)); auto.
Qed.

Lemma bind_properties_add c properties actions p :
  p ∈ properties →
  is_Some (foldl (bind_property c) actions properties !! actionName c p).
Proof.
  revert actions. induction properties as [|q ps IH]; intros actions Hp.
  - by apply elem_of_nil in Hp.
  - simpl. apply elem_of_cons in Hp as [->|Hp]; [|by apply IH].
    apply bind_properties_keep. unfold Setup.bind_property.
    rewrite lookup_insert_eq. eauto.
Qed.

Lemma bound_actions_keep c actions k :
  is_Some (actions !! k) → is_Some (bound_actions actions c !! k).
Proof.
  intros Hk. unfold Setup.bound_actions.
  assert (∀ a b (acts : gmap string bound_action),
            is_Some (acts !! k) → is_Some (<[a := b]> acts !! k)) as Hins.
  { intros a b acts Ha. rewrite lookup_insert_is_Some.
    destruct (decide (a = k)); auto. }
  destruct (type c); [apply bind_properties_keep|]; by do 2 apply Hins.
Qed.

Lemma bound_actions_all_keep collections actions k :
  is_Some (actions !! k) →
  is_Some (foldl bound_actions actions collections !! k).
Proof.
  revert actions. induction collections as [|c cs IH]; intros actions Hk;
    simpl; [done|].
  by apply IH, bound_actions_keep.
Qed.

(** C9.  The per-property actions are never built.  With no [computed]
    bound around the module, [page.setup] ends in a ReferenceError as
    soon as [options.collections] holds a collection: the first pass of
    the loop calls [computed] for its first getter (line 579), before
    the actions of the properties are bound (lines 601-617), and nothing
    is returned. *)
Theorem setup_stops_at_computed model c rest complexTypes own_setup :
  Setup.page_setup pascal camel defaultUpsertPrefix defaultDeletePrefix
    moduleName false mapState
    (Some (PageOptions model (Some (c :: rest)) complexTypes)) own_setup
  = ReferenceError "computed".
Proof. done. Qed.
End Facts.

End SetupFacts.

(** ** More on the field merger *)

Module MergeMore.
Import JS Merger Cycles JsonFacts MergeFacts.

Section Facts.
Variable ext : nat → heap → res (value * heap).

Local Abbreviation merge := (merge ext).

(** X2.  When neither [model[name]] nor [collections[name]] is present,
    [merge] does not merge: it gives back [complexTypes[name]] itself when
    that is present, whether [user] is present or not, and [user] itself
    otherwise; the heap is left as it was. *)
Theorem merge_without_model_and_collections
    name model collections complexTypes user h :
  truthy (guarded_get h model name) = false →
  truthy (guarded_get h collections name) = false →
  merge name model collections complexTypes user h =
    Ok (if truthy (guarded_get h complexTypes name)
        then guarded_get h complexTypes name else user, h).
Proof.
  intros Hm Hc. unfold Merger.merge, counted.
  rewrite !filter_truthy_cons, filter_nil, Hm, Hc. simpl truthy.
  pose proof (guarded_get_truthy h complexTypes name) as Ht.
  destruct (truthy user); simpl;
    destruct (truthy (guarded_get h complexTypes name)); simpl;
    by rewrite <- ?Ht.
Qed.

(** [merge] without any of the three generated sources. *)
Lemma merge_alone name user h :
  merge name VUndef VUndef VUndef user h = Ok (user, h).
Proof.
  unfold Merger.merge, counted. rewrite !filter_truthy_cons, filter_nil.
  simpl. by destruct (truthy user).
Qed.

(** X3.  A [user] mapping that owns a truthy member named [call] is taken
    for a factory: when [merge] merges, it calls it, and the call throws
    the TypeError of calling something that is not a function. *)
Theorem merge_user_with_call_member_throws
    name model collections complexTypes l props h :
  1 < length (counted h name model collections (VRef l)) →
  h !! l = Some (CObj props) →
  truthy (default VUndef (props !! "call")) = true →
  merge name model collections complexTypes (VRef l) h = Throw NotCallable.
Proof.
  intros Hmany Hl Hcall. unfold Merger.merge.
  rewrite decide_True by done. unfold absorb at 4. simpl.
  by rewrite Hl, Hcall.
Qed.

(** The closure that [merge] returns, called: it is
    [JSON.parse(JSON.stringify(__merged))], whatever the environment. *)
Lemma invoke_closure h f m :
  h !! f = Some (CFun (FJsonCopy m)) →
  invoke ext h (VRef f) = json_copy h (VRef m).
Proof. intros Hf. simpl. by rewrite Hf. Qed.

Lemma ser_members_silent f kvs :
  (∀ k v, (k, v) ∈ kvs → f v = Done None) → ser_members f kvs = Done [].
Proof.
  induction kvs as [|[k v] kvs IH]; intros Hall; simpl; [done|].
  rewrite (Hall k v) by apply list_elem_of_here.
  rewrite IH; [done|]. intros k' v' Hin. apply (Hall k').
  by apply list_elem_of_further.
Qed.

Lemma serialize_silent fuel h stack v :
  silent h v → serialize fuel h stack v = Done None.
Proof.
  intros [->|(l & f & -> & Hl)]; destruct fuel; simpl; by rewrite ?Hl.
Qed.

(** X4.  When every member of the merged mapping is a function or
    [undefined] (as in the sections [mutations], [actions] and [getters]),
    the factory that [merge] returned hands out a new object without any
    member at each call. *)
Theorem merged_factory_of_functions_is_empty h f m props :
  h !! f = Some (CFun (FJsonCopy m)) →
  h !! m = Some (CObj props) →
  (∀ k v, props !! k = Some v → silent h v) →
  invoke ext h (VRef f) =
    Ok (VRef (fresh (dom h)), <[fresh (dom h) := CObj ∅]> h).
Proof.
  intros Hf Hm Hsilent. rewrite (invoke_closure _ _ _ Hf).
  unfold json_copy, stringify.
  assert (size h ≠ 0) as Hsize.
  { intros Hz%map_size_empty_iff. by rewrite Hz, lookup_empty in Hm. }
  destruct (size h) as [|n]; [done|]. simpl.
  rewrite Hm, ser_members_silent; [done|].
  intros k v Hkv%elem_of_map_to_list.
  apply serialize_silent. by eapply Hsilent.
Qed.

Lemma ser_members_cyclic f kvs k v :
  (k, v) ∈ kvs → f v = Cyclic → (∀ v', f v' ≠ NoFuel) →
  ser_members f kvs = Cyclic.
Proof.
  intros Hin Hv Hfuel. induction kvs as [|[k' v'] kvs IH];
    [by apply elem_of_nil in Hin|].
  simpl. apply elem_of_cons in Hin as [[= <- <-]|Hin].
  - by rewrite Hv.
  - specialize (IH Hin). specialize (Hfuel v').
    destruct (f v'); [|done|done]. by rewrite IH.
Qed.

Lemma ser_elements_cyclic f vs v :
  v ∈ vs → f v = Cyclic → (∀ v', f v' ≠ NoFuel) →
  ser_elements f vs = Cyclic.
Proof.
  intros Hin Hv Hfuel. induction vs as [|v' vs IH];
    [by apply elem_of_nil in Hin|].
  simpl. apply elem_of_cons in Hin as [<-|Hin].
  - by rewrite Hv.
  - specialize (IH Hin). specialize (Hfuel v').
    destruct (f v'); [|done|done]. by rewrite IH.
Qed.

Lemma serialize_loops h stack v :
  loops h stack v →
  ∀ fuel,
    NoDup stack → (∀ a, a ∈ stack → a ∈ dom h) →
    size h ≤ fuel + length stack →
    serialize fuel h stack v = Cyclic.
Proof.
  induction 1 as [stack l c Hl Hc Hin|stack l c v Hl Hc Hnin Hv Hloop IH];
    intros fuel Hnd Hdom Hfuel.
  - destruct c as [props|items|f]; [| |done];
      destruct fuel; simpl; by rewrite Hl, decide_True.
  - assert (NoDup (l :: stack)) as Hnd' by by constructor.
    assert (∀ a, a ∈ l :: stack → a ∈ dom h) as Hdom'.
    { intros a [->|Ha]%elem_of_cons; [by eapply elem_of_dom_2|by apply Hdom]. }
    pose proof (stack_bound h _ Hnd' Hdom') as Hbound. simpl in Hbound.
    destruct fuel as [|fuel]; [lia|].
    assert (serialize fuel h (l :: stack) v = Cyclic) as Hcyc
      by (apply IH; [done|done|simpl; lia]).
    assert (∀ v', serialize fuel h (l :: stack) v' ≠ NoFuel) as Hsub
      by (intros v'; apply serialize_fuel; [done|done|simpl; lia]).
    destruct c as [props|items|f]; [| |done]; simpl;
      rewrite Hl, decide_False by done.
    + simpl in Hv. apply list_elem_of_fmap in Hv as ([k v'] & -> & Hkv).
      by erewrite ser_members_cyclic.
    + simpl in Hv. by erewrite ser_elements_cyclic.
Qed.

(** X5.  When the data of the merged mapping runs in a circle (some chain
    of properties and elements from it leads back to an object or array
    already on the chain), a call of the factory that [merge] returned
    throws the TypeError of [JSON.stringify] and leaves the heap as it
    was. *)
Theorem merged_factory_of_cyclic_data_throws h f m :
  h !! f = Some (CFun (FJsonCopy m)) →
  loops h [] (VRef m) →
  invoke ext h (VRef f) = Throw CyclicStructure.
Proof.
  intros Hf Hloop. rewrite (invoke_closure _ _ _ Hf).
  unfold json_copy, stringify.
  rewrite (serialize_loops _ _ _ Hloop); [done|constructor| |simpl; lia].
  by intros a ?%elem_of_nil.
Qed.
End Facts.

Import Samples Inputs.

Lemma merge_plain_precedence_witness :
  merge no_ext "state" (VRef 2) (VRef 4) (VRef 6) (VRef 1) precedence_heap =
    Ok (VRef (fresh (dom precedence_heap)),
        <[fresh (dom precedence_heap) :=
            CObj (own_props precedence_heap
                    (guarded_get precedence_heap (VRef 6) "state")
                  ∪ (own_props precedence_heap
                       (guarded_get precedence_heap (VRef 4) "state")
                     ∪ (own_props precedence_heap
                          (guarded_get precedence_heap (VRef 2) "state")
                        ∪ own_props precedence_heap (VRef 1))))]>
          precedence_heap).
Proof.
  apply (merge_plain_precedence no_ext "state" (VRef 2) (VRef 4) (VRef 6)
           (VRef 1) precedence_heap).
  - vm_compute. lia.
  - vm_compute. repeat constructor.
Defined.

Lemma merge_without_model_and_collections_witness :
  merge no_ext "state" VNull (VRef 1) (VRef 6) VUndef precedence_heap =
    Ok (if truthy (guarded_get precedence_heap (VRef 6) "state")
        then guarded_get precedence_heap (VRef 6) "state" else VUndef,
        precedence_heap).
Proof.
  apply (merge_without_model_and_collections no_ext "state" VNull (VRef 1)
           (VRef 6) VUndef precedence_heap); reflexivity.
Defined.

Lemma merge_user_with_call_member_throws_witness :
  merge no_ext "state" (VRef 2) VUndef VUndef (VRef 1) call_member_heap
    = Throw NotCallable.
Proof.
  apply (merge_user_with_call_member_throws no_ext "state" (VRef 2) VUndef
           VUndef 1 {[ "call" := VStr "me" ]} call_member_heap).
  - vm_compute. lia.
  - reflexivity.
  - reflexivity.
Defined.

Lemma merged_factory_of_functions_is_empty_witness :
  invoke no_ext functions_heap (VRef 1) =
    Ok (VRef (fresh (dom functions_heap)),
        <[fresh (dom functions_heap) := CObj ∅]> functions_heap).
Proof.
  apply (merged_factory_of_functions_is_empty no_ext functions_heap 1 2
           (<["later" := VUndef]> {[ "setX" := VRef 3 ]})).
  - reflexivity.
  - reflexivity.
  - intros k v [[_ <-]|[_ [_ <-]%lookup_singleton_Some]]%lookup_insert_Some.
    + by left.
    + right. by exists 3, (FExt 0).
Defined.

Lemma merged_factory_of_cyclic_data_throws_witness :
  invoke no_ext cyclic_heap (VRef 1) = Throw CyclicStructure.
Proof.
  apply (merged_factory_of_cyclic_data_throws no_ext cyclic_heap 1 2).
  - reflexivity.
  - apply (loops_down cyclic_heap [] 2 (CObj {[ "items" := VRef 3 ]}) (VRef 3)).
    + reflexivity.
    + reflexivity.
    + by intros ?%elem_of_nil.
    + simpl. rewrite map_to_list_singleton. apply list_elem_of_here.
    + apply (loops_down cyclic_heap [2] 3 (CArr [VNum 1; VRef 2]) (VRef 2)).
      * reflexivity.
      * reflexivity.
      * by intros [=]%list_elem_of_singleton.
      * simpl. apply list_elem_of_further, list_elem_of_here.
      * apply (loops_here cyclic_heap [3; 2] 2 (CObj {[ "items" := VRef 3 ]})).
        -- reflexivity.
        -- reflexivity.
        -- apply list_elem_of_further, list_elem_of_here.
Defined.

End MergeMore.

(** ** More on the lifecycle hooks *)

Module LifecycleMore.
Import JS Lifecycle Chain LifecycleFacts.

Section Facts.
Context {S : Type} `{StoreAPI S}.
Variable ext : nat → JS.heap → res (value * JS.heap).
Variable comb : nat → string.
Variable storeModule : module_def.
Variable moduleName : string.
Variable user_preFetch : option (context → world S → settled * world S).
Variable user_destroyed : option (M S unit).

Local Abbreviation probe := (checkModule comb storeModule moduleName).
Local Abbreviation unregister := (do_unregister moduleName).
Local Abbreviation preFetch := (preFetch comb storeModule moduleName).
Local Abbreviation destroyed :=
  (destroyed comb storeModule moduleName user_destroyed).
Local Abbreviation preFetch_chain :=
  (preFetch_chain ext moduleName user_preFetch).
Local Abbreviation flag := (moduleName +:+ "/" +:+ fetchedField).
Local Abbreviation after_user := (after_user user_preFetch).

(** The world once [store.registerModule(moduleName, storeModule)] has
    been called in [w]. *)
Local Abbreviation registered w :=
  (World (registerModule moduleName storeModule (store w)) (js_heap w)
     (calls w ++ [RegisterModule moduleName]) (issued w)).

(** X6.  A module definition without a member [mutations] makes both
    hooks that probe the store throw a TypeError: [page.preFetch] before
    it has made any call on the store, [page.destroyed] once the page's
    own hook has run. *)
Theorem hooks_need_mutations ctx w :
  mutations storeModule = None →
  preFetch ctx w = (Throw NotAnObject, w) ∧
  ∀ w1, call_if user_destroyed w = (Ok (), w1) →
        destroyed w = (Throw NotAnObject, w1).
Proof.
  intros Hms. split.
  - rewrite preFetch_unfold. unfold checkModule. by rewrite Hms.
  - intros w1 Huser. rewrite destroyed_unfold, Huser.
    unfold checkModule. by rewrite Hms.
Qed.

(** X7.  [page.preFetch] reads the fetch flag of the module it has just
    registered and then a member of it.  When the store shows no state
    for the module after the registration, or a state whose fetch flag
    is [undefined] or [null], the hook throws a TypeError: the module
    stays registered and [initialize] is not dispatched. *)
Theorem preFetch_needs_fetch_flag ctx w w1 :
  probe (Some unregister) None w = (Ok (), w1) →
  read_field moduleName (store (registered w1)) fetchedField = VUndef ∨
  read_field moduleName (store (registered w1)) fetchedField = VNull →
  preFetch ctx w = (Throw NotAnObject, registered w1).
Proof.
  intros Hprobe Hflag. rewrite preFetch_unfold, Hprobe.
  unfold start_initialize, read_fetched, read_field, member, log,
    do_dispatch, on_store, get_store, mbind, M_bind, ret, throw in *.
  simpl in *.
  destruct (state_of _ moduleName) as [st|]; simpl; [|done].
  by destruct Hflag as [-> | ->].
Qed.

(** X8.  When the module that [page.preFetch] has just registered shows
    a fetch flag that is neither [undefined] nor [null], the hook clears
    the timeout kept in the flag, if there is one, dispatches
    [initialize] of the module with the routes of its context, and
    returns [undefined]. *)
Theorem preFetch_dispatches_initialize ctx w w1 fetched :
  probe (Some unregister) None w = (Ok (), w1) →
  read_field moduleName (store (registered w1)) fetchedField = fetched →
  fetched ≠ VUndef → fetched ≠ VNull →
  let timeout := get_prop (js_heap w1) fetched "timeout" in
  let args :=
    RouteArgs (currentRoute ctx) (previousRoute ctx) (redirect ctx) in
  preFetch ctx w =
    (Ok (RetUndefined, fetched),
     World
       (dispatch (moduleName +:+ "/initialize") args
          (registerModule moduleName storeModule (store w1)))
       (js_heap w1)
       (calls w1
        ++ RegisterModule moduleName
        :: (if truthy timeout then [ClearTimeout timeout] else [])
        ++ [Dispatch (moduleName +:+ "/initialize") args])
       (issued w1)).
Proof.
  intros Hprobe Hflag Hundef Hnull. rewrite preFetch_unfold, Hprobe.
  unfold start_initialize, read_fetched, read_field, member, log,
    do_dispatch, on_store, get_store, mbind, M_bind, ret, throw in *.
  simpl in *.
  destruct (state_of _ moduleName) as [st|]; simpl; [|done].
  rewrite Hflag.
  destruct fetched; try done; simpl;
    try destruct (truthy _); simpl; by rewrite <- ?app_assoc.
Qed.

(** X9.  The promise chain of [page.preFetch] ends fulfilled only when
    [initialize] and the page's own [preFetch] were fulfilled and the
    fetch flag read by the hook was neither [undefined] nor [null]; its
    last act is then the commit of [true] to the fetch flag of the
    module, made on the store as the page's own [preFetch] left it. *)
Theorem preFetch_chain_fulfilled ctx fetched initialize w w2 :
  preFetch_chain ctx fetched initialize w = (Fulfilled, w2) →
  initialize = Fulfilled ∧ fetched ≠ VUndef ∧ fetched ≠ VNull ∧
  ∃ w1, after_user ctx w = (Fulfilled, w1) ∧
        store w2 = commit flag (VBool true) (store w1) ∧
        last (calls w2) = Some (Commit flag (VBool true)).
Proof.
  unfold Lifecycle.preFetch_chain, Chain.after_user.
  destruct initialize; [|done].
  destruct (match user_preFetch with Some f => f ctx w | None => _ end)
    as [[] w1]; [|done].
  unfold mbind, M_bind, member, invoke_ext, do_commit, on_store, ret.
  intros Hrun. split; [done|].
  destruct fetched; try done; (split; [done|]); (split; [done|]);
    exists w1; (split; [done|]); simpl in Hrun;
    repeat
      match type of Hrun with
      | context [if ?b then _ else _] => destruct b; simpl in Hrun
      | context [match invoke ?e ?h ?f with _ => _ end] =>
          destruct (invoke e h f) as [[? ?]|?]; simpl in Hrun
      end;
    simplify_eq; simpl; by rewrite ?last_snoc.
Qed.

(** X10.  Whenever the promise chain of [page.preFetch] ends rejected,
    its own code has changed nothing: the world is as [initialize] left
    it, or as the page's own [preFetch] left it.  In particular the
    fetch flag is not committed. *)
Theorem preFetch_chain_rejected ctx fetched initialize w w2 :
  preFetch_chain ctx fetched initialize w = (Rejected, w2) →
  w2 = w ∨ w2 = (after_user ctx w).2.
Proof.
  unfold Lifecycle.preFetch_chain, Chain.after_user.
  destruct initialize; [|intros [= <-]; by left].
  destruct (match user_preFetch with Some f => f ctx w | None => _ end)
    as [[] w1]; [|intros [= <-]; by right].
  unfold mbind, M_bind, member, invoke_ext, do_commit, on_store, ret, throw.
  intros Hrun. right. simpl.
  destruct fetched; simpl in Hrun;
    repeat
      match type of Hrun with
      | context [if ?b then _ else _] => destruct b; simpl in Hrun
      | context [match invoke ?e ?h ?f with _ => _ end] =>
          destruct (invoke e h f) as [[? ?]|?]; simpl in Hrun
      end;
    by simplify_eq.
Qed.
End Facts.

Import Vuex Samples Inputs.

Lemma hooks_need_mutations_witness :
  Lifecycle.preFetch token no_mutations "jobs" somewhere fresh_world
    = (Throw NotAnObject, fresh_world).
Proof.
  destruct (hooks_need_mutations (S:=vstore) token no_mutations "jobs" None
              somewhere fresh_world) as [Hthrows _]; [reflexivity|].
  exact Hthrows.
Defined.

Lemma preFetch_needs_fetch_flag_witness :
  Lifecycle.preFetch token bare "jobs" somewhere fresh_world =
    (Throw NotAnObject,
     World (registerModule "jobs" bare (store fresh_world))
       (js_heap fresh_world) (calls fresh_world ++ [RegisterModule "jobs"])
       (issued fresh_world)).
Proof.
  apply (preFetch_needs_fetch_flag (S:=vstore) token bare "jobs" somewhere
           fresh_world fresh_world).
  - reflexivity.
  - left. reflexivity.
Defined.

Lemma preFetch_dispatches_initialize_witness :
  Lifecycle.preFetch token validated "jobs" somewhere fresh_world =
    (Ok (RetUndefined, VBool false),
     World
       (dispatch ("jobs" +:+ "/initialize")
          (RouteArgs (VStr "/jobs") (VStr "/") VUndef)
          (registerModule "jobs" validated (store (drawn fresh_world))))
       (js_heap (drawn fresh_world))
       (calls (drawn fresh_world)
        ++ RegisterModule "jobs"
        :: (if truthy (get_prop (js_heap (drawn fresh_world)) (VBool false)
                         "timeout")
            then [ClearTimeout
                    (get_prop (js_heap (drawn fresh_world)) (VBool false)
                       "timeout")]
            else [])
        ++ [Dispatch ("jobs" +:+ "/initialize")
              (RouteArgs (VStr "/jobs") (VStr "/") VUndef)])
       (issued (drawn fresh_world))).
Proof.
  apply (preFetch_dispatches_initialize (S:=vstore) token validated "jobs"
           somewhere fresh_world (drawn fresh_world) (VBool false)).
  - reflexivity.
  - reflexivity.
  - discriminate.
  - discriminate.
Defined.

Lemma preFetch_chain_fulfilled_witness :
  Fulfilled = Fulfilled ∧ VBool false ≠ VUndef ∧ VBool false ≠ VNull ∧
  ∃ w1,
    after_user None somewhere mounted_once = (Fulfilled, w1) ∧
    store
      (Lifecycle.preFetch_chain no_ext "jobs" None somewhere (VBool false)
         Fulfilled mounted_once).2
      = commit ("jobs" +:+ "/" +:+ fetchedField) (VBool true) (store w1) ∧
    last
      (calls
         (Lifecycle.preFetch_chain no_ext "jobs" None somewhere (VBool false)
            Fulfilled mounted_once).2)
      = Some (Commit ("jobs" +:+ "/" +:+ fetchedField) (VBool true)).
Proof.
  apply (preFetch_chain_fulfilled (S:=vstore) no_ext "jobs" None somewhere
           (VBool false) Fulfilled mounted_once).
  reflexivity.
Defined.

Lemma preFetch_chain_rejected_witness :
  (Lifecycle.preFetch_chain no_ext "jobs" None somewhere VUndef Fulfilled
     mounted_once).2 = mounted_once ∨
  (Lifecycle.preFetch_chain no_ext "jobs" None somewhere VUndef Fulfilled
     mounted_once).2 = (after_user None somewhere mounted_once).2.
Proof.
  apply (preFetch_chain_rejected (S:=vstore) no_ext "jobs" None somewhere
           VUndef Fulfilled mounted_once).
  reflexivity.
Defined.

End LifecycleMore.

(** ** More on what [page.setup] returns *)

Module SetupMore.
Import Setup SetupFacts.

Lemma or_default_spec a b :
  (a = None ∨ a = Some "" → or_default a b = b) ∧
  (∀ s, a = Some s → s ≠ "" → or_default a b = s).
Proof.
  split.
  - by intros [-> | ->].
  - intros s -> Hs. simpl. destruct (String.eqb_spec s ""); done.
Qed.

Section Facts.
Variable pascal camel : string → string.
Variable defaultUpsertPrefix defaultDeletePrefix : string.
Variable moduleName : string.
Variable mapState : list string → gmap string JS.value.

Local Abbreviation bind_property := (bind_property pascal moduleName).
Local Abbreviation bound_actions :=
  (bound_actions pascal defaultUpsertPrefix defaultDeletePrefix moduleName).
(** The collections part of [page.setup] with [computed] bound. *)
Local Abbreviation setup_collections :=
  (setup_collections pascal camel defaultUpsertPrefix defaultDeletePrefix
     moduleName true).
Local Abbreviation actionName := (actionName pascal).
Local Abbreviation upsert c :=
  (or_default (upsertPrefix c) defaultUpsertPrefix +:+ pascal (single c)).
Local Abbreviation delete c :=
  (or_default (deletePrefix c) defaultDeletePrefix +:+ pascal (single c)).
Local Abbreviation generic := "setPropertyOfACollectionItem"%string.

Lemma bind_properties_entries c properties actions k a :
  foldl (bind_property c) actions properties !! k = Some a →
  actions !! k = Some a ∨
  ∃ p, p ∈ properties ∧ k = actionName c p ∧
       a = ForwardProperty (moduleName +:+ "/" +:+ k) (plural c) p.
Proof.
  revert actions. induction properties as [|q ps IH]; intros actions;
    simpl; [by left|].
  intros [Hk|(p & Hp & -> & ->)]%IH.
  - unfold Setup.bind_property in Hk.
    apply lookup_insert_Some in Hk as [[<- <-]|[_ Hk]]; [|by left].
    right. exists q. split; [apply list_elem_of_here|done].
  - right. exists p. split; [by apply list_elem_of_further|done].
Qed.

Lemma bound_actions_entries c actions k a :
  bound_actions actions c !! k = Some a →
  actions !! k = Some a ∨
  ((k = upsert c ∨ k = delete c) ∧
   a = Forward (moduleName +:+ "/" +:+ k) ∨
   ∃ properties p,
     type c = Some properties ∧ p ∈ properties ∧ k = actionName c p ∧
     a = ForwardProperty (moduleName +:+ "/" +:+ k) (plural c) p).
Proof.
  unfold Setup.bound_actions. intros Hk.
  assert (<[delete c := Forward (moduleName +:+ "/" +:+ delete c)]>
            (<[upsert c := Forward (moduleName +:+ "/" +:+ upsert c)]>
               actions) !! k = Some a →
          actions !! k = Some a ∨
          ((k = upsert c ∨ k = delete c) ∧
           a = Forward (moduleName +:+ "/" +:+ k) ∨
           ∃ properties p,
             type c = Some properties ∧ p ∈ properties ∧ k = actionName c p ∧
             a = ForwardProperty (moduleName +:+ "/" +:+ k) (plural c) p)) as Hbase.
  { intros [[<- <-]|[_ [[<- <-]|[_ Hin]]%lookup_insert_Some]]%lookup_insert_Some.
    - right. left. split; [by right|done].
    - right. left. split; [by left|done].
    - by left. }
  destruct (type c) as [properties|] eqn:Hty; [|by apply Hbase].
  apply bind_properties_entries in Hk as [Hk|(p & Hp & -> & ->)];
    [by apply Hbase|].
  right. right. by exists properties, p.
Qed.

Lemma bound_actions_all_entries collections actions k a :
  foldl bound_actions actions collections !! k = Some a →
  actions !! k = Some a ∨
  ∃ c, c ∈ collections ∧
       ((k = upsert c ∨ k = delete c) ∧
        a = Forward (moduleName +:+ "/" +:+ k) ∨
        ∃ properties p,
          type c = Some properties ∧ p ∈ properties ∧ k = actionName c p ∧
          a = ForwardProperty (moduleName +:+ "/" +:+ k) (plural c) p).
Proof.
  revert actions. induction collections as [|d ds IH]; intros actions;
    simpl; [by left|].
  intros [[Hk|Hd]%bound_actions_entries|(c & Hc & Hb)]%IH.
  - by left.
  - right. exists d. split; [apply list_elem_of_here|done].
  - right. exists c. split; [by apply list_elem_of_further|done].
Qed.

Lemma bound_actions_at collections c k (init : gmap string bound_action) :
  c ∈ collections →
  (∀ actions, is_Some (bound_actions actions c !! k)) →
  is_Some (foldl bound_actions init collections !! k).
Proof.
  intros Hc Hk. revert init.
  induction collections as [|d ds IH]; intros init.
  - by apply elem_of_nil in Hc.
  - simpl. apply elem_of_cons in Hc as [<-|Hc]; [|by apply IH].
    apply bound_actions_all_keep, Hk.
Qed.

Lemma bind_collections_bound collections acc :
  ∃ acc',
    Setup.bind_collections pascal camel defaultUpsertPrefix defaultDeletePrefix
      moduleName true collections acc = Value acc'.
Proof.
  revert acc. induction collections as [|c cs IH]; intros [actions getters];
    simpl; [eauto|apply IH].
Qed.

(** With [computed] bound, the collections part runs to its end. *)
Lemma setup_collections_bound collections :
  ∃ actions getters, setup_collections collections = Value (actions, getters).
Proof.
  unfold Setup.setup_collections.
  destruct (bind_collections_bound collections
              (if existsb (λ c, bool_decide (is_Some (type c))) collections
               then {[ "setPropertyOfACollectionItem" :=
                         ForwardFields
                           (moduleName +:+ "/setPropertyOfACollectionItem") ]}
               else ∅, ∅)) as [[actions getters] Hrun].
  by exists actions, getters.
Qed.

(** X11.  With [computed] bound around the module, the collections part
    of [page.setup] runs to its end, and its [actions] hold nothing but
    the generated actions, each of which dispatches the action of its own
    name in the module: an entry is the generic
    [setPropertyOfACollectionItem], which passes on the fields id,
    collection, property and value of its argument (only when some
    collection gives a [type]), the upsert or the delete action of one of
    the collections, which pass their argument on, or the setter of a
    property of a collection that gives a [type], which passes on the
    plural name of that collection and the property. *)
Theorem setup_actions_only collections :
  ∃ actions getters,
    setup_collections collections = Value (actions, getters) ∧
    ∀ k a,
      actions !! k = Some a →
      (k = generic ∧ a = ForwardFields (moduleName +:+ "/" +:+ k) ∧
       ∃ c, c ∈ collections ∧ is_Some (type c)) ∨
      ∃ c, c ∈ collections ∧
           ((k = upsert c ∨ k = delete c) ∧
            a = Forward (moduleName +:+ "/" +:+ k) ∨
            ∃ properties p,
              type c = Some properties ∧ p ∈ properties ∧
              k = actionName c p ∧
              a = ForwardProperty (moduleName +:+ "/" +:+ k) (plural c) p).
Proof.
  destruct (setup_collections_bound collections)
    as (actions & getters & Hrun).
  exists actions, getters. split; [done|]. intros k a.
  apply setup_collections_inv in Hrun as [-> _].
  intros [Hk|Hc]%bound_actions_all_entries; [|by right].
  left. destruct (existsb _ collections) eqn:Hty; [|done].
  apply lookup_singleton_Some in Hk as [<- <-].
  split; [done|]. split; [done|].
  apply existsb_exists in Hty as (c & Hc & Hty).
  exists c. split; [by apply list_elem_of_In|].
  by apply bool_decide_eq_true in Hty.
Qed.

(** X12.  With [computed] bound around the module, the collections part
    of [page.setup] runs to its end, and every collection has its upsert
    and its delete action, named by the prefix followed by the PascalCase
    singular; the prefix is the collection's own when it gives one that
    is not empty, and the default one otherwise.  The generic
    [setPropertyOfACollectionItem] is there as soon as one collection
    gives a [type]. *)
Theorem collection_actions_bound collections :
  ∃ actions getters,
    setup_collections collections = Value (actions, getters) ∧
    ∀ c,
      c ∈ collections →
      is_Some (actions !! upsert c) ∧
      is_Some (actions !! delete c) ∧
      (upsertPrefix c = None ∨ upsertPrefix c = Some "" →
       upsert c = defaultUpsertPrefix +:+ pascal (single c)) ∧
      (∀ s, upsertPrefix c = Some s → s ≠ "" →
            upsert c = s +:+ pascal (single c)) ∧
      (deletePrefix c = None ∨ deletePrefix c = Some "" →
       delete c = defaultDeletePrefix +:+ pascal (single c)) ∧
      (∀ s, deletePrefix c = Some s → s ≠ "" →
            delete c = s +:+ pascal (single c)) ∧
      (is_Some (type c) → is_Some (actions !! generic)).
Proof.
  destruct (setup_collections_bound collections)
    as (actions & getters & Hrun).
  exists actions, getters. split; [done|]. intros c Hc.
  apply setup_collections_inv in Hrun as [-> _].
  assert (∀ a b (acts : gmap string bound_action),
            is_Some (acts !! a) → is_Some (<[b.1 := b.2]> acts !! a)) as Hins.
  { intros a b acts Ha. rewrite lookup_insert_is_Some.
    destruct (decide (b.1 = a)); auto. }
  destruct (or_default_spec (upsertPrefix c) defaultUpsertPrefix) as [Hu1 Hu2].
  destruct (or_default_spec (deletePrefix c) defaultDeletePrefix) as [Hd1 Hd2].
  repeat split.
  - apply (bound_actions_at _ c); [done|].
    intros actions. unfold Setup.bound_actions.
    destruct (type c); [apply bind_properties_keep|];
      apply (Hins _ (_, _)); rewrite lookup_insert_eq; eauto.
  - apply (bound_actions_at _ c); [done|].
    intros actions. unfold Setup.bound_actions.
    destruct (type c); [apply bind_properties_keep|];
      rewrite lookup_insert_eq; eauto.
  - intros Hp. by rewrite Hu1.
  - intros s Hs Hne. by rewrite (Hu2 s).
  - intros Hp. by rewrite Hd1.
  - intros s Hs Hne. by rewrite (Hd2 s).
  - intros Hty. apply bound_actions_all_keep.
    assert (existsb (λ c, bool_decide (is_Some (type c))) collections = true)
      as ->.
    { apply existsb_exists. exists c. split; [by apply list_elem_of_In|].
      by apply bool_decide_eq_true. }
    rewrite lookup_singleton_eq. eauto.
Qed.

(** X21.  With [computed] bound around the module, the collections part
    of [page.setup] runs to its end, and its [actions] have, for every
    collection that gives a [type] and every property of its item shape,
    an action named set{Property}Of{A|An}{Single}, in the PascalCase of
    [getCases]; the article is "An" exactly when the first letter of the
    PascalCase singular is one of a, e, i, o, u in either case, and "A"
    otherwise.  In particular the property Size of the singular Apple
    yields setSizeOfAnApple, and of the singular Job setSizeOfAJob. *)
Theorem property_action_named collections :
  ∃ actions getters,
    setup_collections collections = Value (actions, getters) ∧
    ∀ c properties p,
      c ∈ collections → type c = Some properties → p ∈ properties →
      is_Some (actions !! actionName c p) ∧
      (∃ article,
          actionName c p
            = "set" +:+ pascal p +:+ "Of" +:+ article +:+ pascal (single c) ∧
          (article = "An" ∨ article = "A") ∧
          (article = "An" ↔
           ∃ letter rest,
             pascal (single c) = String letter rest ∧
             letter ∈ String.list_ascii_of_string "aeiouAEIOU")) ∧
      (pascal p = "Size" → pascal (single c) = "Apple" →
       actionName c p = "setSizeOfAnApple") ∧
      (pascal p = "Size" → pascal (single c) = "Job" →
       actionName c p = "setSizeOfAJob").
Proof.
  destruct (setup_collections_bound collections)
    as (actions & getters & Hrun).
  exists actions, getters. split; [done|]. intros c properties p Hc Hty Hp.
  apply setup_collections_inv in Hrun as [-> _].
  split; [|split; [|split]].
  - apply (bound_actions_at _ c); [done|].
    intros actions. unfold Setup.bound_actions. rewrite Hty.
    by apply bind_properties_add.
  - exists (conjunction pascal c). split; [done|].
    rewrite <- matches_vowel_start_spec. unfold conjunction.
    destruct (matches_vowel_start (pascal (single c))); (split; [auto|]);
      split; done.
  - intros HP HS. unfold Setup.actionName, conjunction. by rewrite HP, HS.
  - intros HP HS. unfold Setup.actionName, conjunction. by rewrite HP, HS.
Qed.

Lemma bind_accessors_unbound ct p properties getters :
  Setup.bind_accessors pascal camel moduleName false ct (p :: properties)
    getters = ReferenceError "computed".
Proof. done. Qed.

Lemma setup_complexTypes_unbound complexTypes getters :
  Exists (λ ct, ct_type ct ≠ []) complexTypes →
  Setup.setup_complexTypes pascal camel moduleName false complexTypes getters
    = ReferenceError "computed".
Proof.
  intros Hex. revert getters.
  induction complexTypes as [|ct cts IH]; intros getters;
    [by apply Exists_nil in Hex|].
  simpl. destruct (ct_type ct) as [|p ps] eqn:Hct; simpl.
  - apply IH. apply Exists_cons in Hex as [Hne|Hex]; [|done].
    by rewrite Hct in Hne.
  - done.
Qed.

Lemma setup_complexTypes_idle bound complexTypes getters :
  Forall (λ ct, ct_type ct = []) complexTypes →
  Setup.setup_complexTypes pascal camel moduleName bound complexTypes getters
    = Value getters.
Proof.
  intros Hall. revert getters.
  induction Hall as [|ct cts Hct _ IH]; intros getters; [done|].
  simpl. rewrite Hct. simpl. apply IH.
Qed.

(** X22.  With no [computed] bound around the module, [page.setup]
    returns only where there is nothing to wrap.  It ends in a
    ReferenceError when [options.collections] holds a collection, or,
    where it holds none, when a complex type of [options.complexTypes]
    has a property.  Where the collections are missing or empty and no
    complex type has a property, it returns the mapped state overlaid
    with what the setup of the page itself returns. *)
Theorem setup_without_computed model collections complexTypes own_setup :
  let run :=
    Setup.page_setup pascal camel defaultUpsertPrefix defaultDeletePrefix
      moduleName false mapState
      (Some (PageOptions model collections complexTypes)) own_setup in
  let mapped : gmap string entry :=
    match model with
    | Some keys => External <$> mapState keys
    | None => ∅
    end in
  ((∃ c rest, collections = Some (c :: rest)) →
   run = ReferenceError "computed") ∧
  (collections = None ∨ collections = Some [] →
   (∃ cts, complexTypes = Some cts ∧ Exists (λ ct, ct_type ct ≠ []) cts) →
   run = ReferenceError "computed") ∧
  (collections = None ∨ collections = Some [] →
   complexTypes = None ∨
   (∃ cts, complexTypes = Some cts ∧ Forall (λ ct, ct_type ct = []) cts) →
   run = match own_setup with
         | Some own => members ← own; Value ((External <$> members) ∪ mapped)
         | None => Value mapped
         end).
Proof.
  simpl. split; [|split].
  - by intros (c & rest & ->).
  - intros Hcs (cts & -> & Hex). unfold Setup.page_setup.
    destruct Hcs as [-> | ->]; simpl;
      by rewrite (setup_complexTypes_unbound _ _ Hex).
  - intros Hcs Hcts. unfold Setup.page_setup.
    destruct Hcs as [-> | ->], Hcts as [-> | (cts & -> & Hall)]; simpl;
      rewrite ?(setup_complexTypes_idle _ _ _ Hall); simpl;
      by rewrite ?fmap_empty, ?(left_id_L ∅ (∪)).
Qed.
End Facts.

Import Inputs.

Lemma setup_actions_only_witness :
  ∃ actions getters,
    setup_collections capitalize unchanged "saveOrUpdate" "delete" "shop" true
      [apples; jobs] = Value (actions, getters) ∧
    actions !! "dropJob" = Some (Forward "shop/dropJob") ∧
    actions !! "setPropertyOfACollectionItem"
      = Some (ForwardFields "shop/setPropertyOfACollectionItem") ∧
    actions !! "setSizeOfAnApple"
      = Some (ForwardProperty "shop/setSizeOfAnApple" "apples" "size") ∧
    actions !! "deleteJob" = None.
Proof.
  destruct (setup_actions_only capitalize unchanged "saveOrUpdate" "delete"
              "shop" [apples; jobs]) as (actions & getters & Hrun & _).
  exists actions, getters. split; [exact Hrun|].
  injection Hrun as <- _. repeat split; reflexivity.
Defined.

Lemma collection_actions_bound_witness :
  ∃ actions getters,
    setup_collections capitalize unchanged "saveOrUpdate" "delete" "shop" true
      [apples; jobs] = Value (actions, getters) ∧
    is_Some (actions !! "saveOrUpdateJob") ∧
    is_Some (actions !! "dropJob").
Proof.
  destruct (collection_actions_bound capitalize unchanged "saveOrUpdate"
              "delete" "shop" [apples; jobs])
    as (actions & getters & Hrun & Hall).
  exists actions, getters. split; [exact Hrun|].
  destruct (Hall jobs) as (Hupsert & Hdelete & _).
  - apply list_elem_of_further, list_elem_of_here.
  - split; [exact Hupsert|exact Hdelete].
Defined.

(** The instance of the spec: the collections "apple" and "job", whose
    items have the property "size". *)
Lemma property_action_named_witness :
  ∃ actions getters,
    setup_collections capitalize unchanged "saveOrUpdate" "delete" "shop" true
      [apples; sized_jobs] = Value (actions, getters) ∧
    is_Some (actions !! "setSizeOfAnApple") ∧
    is_Some (actions !! "setSizeOfAJob").
Proof.
  destruct (property_action_named capitalize unchanged "saveOrUpdate"
              "delete" "shop" [apples; sized_jobs])
    as (actions & getters & Hrun & Hall).
  exists actions, getters. split; [exact Hrun|]. split.
  - apply (Hall apples ["size"] "size"); [apply list_elem_of_here|done|].
    apply list_elem_of_here.
  - apply (Hall sized_jobs ["size"] "size");
      [apply list_elem_of_further, list_elem_of_here|done|].
    apply list_elem_of_here.
Defined.

(** A page with a collection, a page with a complex type, and a page
    with a setup of its own only. *)
Lemma setup_without_computed_witness :
  page_setup capitalize unchanged "saveOrUpdate" "delete" "shop" false
    (λ _, ∅) (Some (PageOptions None (Some [apples]) None)) None
    = ReferenceError "computed" ∧
  page_setup capitalize unchanged "saveOrUpdate" "delete" "shop" false
    (λ _, ∅)
    (Some (PageOptions None None (Some [ComplexType "address" ["street"]])))
    None
    = ReferenceError "computed" ∧
  page_setup capitalize unchanged "saveOrUpdate" "delete" "shop" false
    (λ _, ∅) (Some (PageOptions None (Some []) None))
    (Some (Value {[ "title" := JS.VStr "Shop" ]}))
    = Value {[ "title" := External (JS.VStr "Shop") ]}.
Proof.
  split; [|split].
  - destruct (setup_without_computed capitalize unchanged "saveOrUpdate"
                "delete" "shop" (λ _, ∅) None (Some [apples]) None None)
      as (Hstops & _).
    apply Hstops. by exists apples, [].
  - destruct (setup_without_computed capitalize unchanged "saveOrUpdate"
                "delete" "shop" (λ _, ∅) None None
                (Some [ComplexType "address" ["street"]]) None)
      as (_ & Hstops & _).
    apply Hstops; [by left|].
    eexists. split; [reflexivity|]. by apply Exists_cons_hd.
  - destruct (setup_without_computed capitalize unchanged "saveOrUpdate"
                "delete" "shop" (λ _, ∅) None (Some []) None
                (Some (Value {[ "title" := JS.VStr "Shop" ]})))
      as (_ & _ & Hreturns).
    rewrite Hreturns; [reflexivity|by right|by left].
Defined.

End SetupMore.

(** ** Wrapped components *)

Module WrapperFacts.
Import JS Wrapper.

(** X13.  [component] reads [component.options.props.value] before
    anything else: a component without [options], or whose options
    declare no props, cannot be wrapped; the call throws a TypeError,
    whatever the other arguments are. *)
Theorem component_needs_props name c render_cb setup_cb createElement factories :
  options c = None ∨ (∃ opts, options c = Some opts ∧ props opts = None) →
  component name (Some c) render_cb setup_cb createElement factories
    = Throw NotAnObject.
Proof.
  unfold component. intros [-> | (opts & -> & ->)]; done.
Qed.

(** X14.  The wrapper that [component] builds without callbacks declares
    the props of the wrapped component, has a method for each method of
    the wrapped component, which calls the method of that name, and
    hands the wrapped component what it was given itself.  When the
    wrapped component declares a prop [value], the prop [values] is held
    back, [value] is the wrapper's own current value, and the listener
    of [input] is replaced by one that sets that value; every other prop
    and listener is passed on.  When it declares none, all props and
    listeners are passed on as they are. *)
Theorem wrapper_render_forwards name c opts ps createElement self key :
  options c = Some opts → props opts = Some ps →
  vnode_key self = Some key →
  ∃ w o,
    component name (Some c) None None createElement None = Ok w ∧
    w_name w = name ∧ w_props w = ps ∧
    (∀ k, w_methods w !! k = (λ _, k) <$> default ∅ (methods opts) !! k) ∧
    w_render w ps self = Ok (Rendered createElement o) ∧
    o_key o = key ∧ o_ref o = "root" ∧
    o_scopedSlots o = scopedSlots self ∧ o_attrs o = attrs self ∧
    o_style o = None ∧ o_class o = None ∧
    if decide (is_Some (ps !! "value")) then
      o_props o !! "value" = Some (current_value self) ∧
      o_props o !! "values" = None ∧
      (∀ k, k ≠ "value" → k ≠ "values" → o_props o !! k = passed self !! k) ∧
      o_on o !! "input" = Some SetValue ∧
      (∀ k, k ≠ "input" → o_on o !! k = Passed <$> listeners self !! k)
    else
      o_props o = passed self ∧ o_on o = Passed <$> listeners self.
Proof.
  intros Hopts Hps Hkey. unfold component. rewrite Hopts, Hps. simpl.
  eexists _, (initial_options ps key self). split; [done|].
  split; [done|]. split; [done|]. simpl.
  split; [intros k; rewrite map_lookup_imap; by destruct (_ !! k)|].
  unfold render. rewrite Hkey. simpl.
  split; [done|]. unfold initial_options.
  destruct (decide (is_Some (ps !! "value"))) as [Hv|Hv].
  - rewrite (bool_decide_eq_true_2 _ Hv). simpl. repeat split.
    + by rewrite lookup_insert_eq.
    + by rewrite lookup_insert_ne, lookup_delete_eq.
    + intros k Hk1 Hk2. by rewrite lookup_insert_ne, lookup_delete_ne.
    + by rewrite lookup_insert_eq.
    + intros k Hk. by rewrite lookup_insert_ne, lookup_fmap, lookup_delete_ne.
  - rewrite (bool_decide_eq_false_2 _ Hv). simpl. by repeat split.
Qed.

Lemma run_renders_app renders1 renders2 self o :
  run_renders (renders1 ++ renders2) self o =
    o ← run_renders renders1 self o; run_renders renders2 self o.
Proof.
  revert o. induction renders1 as [|r rs IH]; intros o; simpl; [done|].
  destruct (r self o) as [o'|e]; simpl; [apply IH|done].
Qed.

(** X15.  The render function that [component] gives the wrapper runs
    the render callbacks of the factories in the order of the list,
    passing over the factories that have none, and the render callback
    of the wrapper itself last; each works on the options as the one
    before left them, and the first that throws ends the rendering.  An
    instance that has no [$vnode] cannot be rendered.  It is this
    wrapper that the setup callbacks are handed, those of the factories
    in the order of the list and the one of the wrapper itself last;
    without setup callbacks it is returned as it is. *)
Theorem renders_in_order name c opts ps render_cb setup_cb createElement
    factories :
  options c = Some opts → props opts = Some ps →
  ∃ w,
    component name (Some c) render_cb setup_cb createElement (Some factories)
      = run_setups (omap f_setup factories ++ option_list setup_cb) w ∧
    (Forall (λ f, f_setup f = None) factories → setup_cb = None →
     component name (Some c) render_cb setup_cb createElement (Some factories)
       = Ok w) ∧
    (∀ self, vnode_key self = None → w_render w ps self = Throw NotAnObject) ∧
    ∀ self key,
      vnode_key self = Some key →
      w_render w ps self =
        o ← run_renders (omap f_render factories) self
               (initial_options ps key self);
        o ← from_option (λ r, r self o) (Ok o) render_cb;
        Ok (Rendered createElement o).
Proof.
  intros Hopts Hps. unfold component. rewrite Hopts, Hps. simpl.
  eexists. split; [done|]. split; [|split].
  - intros Hsetups ->.
    assert (omap f_setup factories = []) as ->; [|done].
    induction Hsetups as [|f fs Hf _ IH]; simpl; [done|]. by rewrite Hf.
  - simpl. unfold render. by intros self ->.
  - simpl. unfold render. intros self key ->. rewrite run_renders_app.
    destruct (run_renders (omap f_render factories) self _) as [o|e];
      simpl; [|done].
    destruct render_cb as [r|]; simpl; [|done].
    by destruct (r self o).
Qed.

Lemma keys_of_map {A} (m : gmap string A) k :
  k ∈ (map_to_list m).*1 ↔ k ∈ dom m.
Proof.
  rewrite list_elem_of_fmap, elem_of_dom. split.
  - intros ([k' v] & -> & Hkv%elem_of_map_to_list). by exists v.
  - intros [v Hv]. exists (k, v). split; [done|].
    by apply elem_of_map_to_list.
Qed.

Lemma undefine_defaults_ok keys ps :
  (∀ k, k ∈ keys → k ∈ dom ps) →
  ∃ ps',
    undefine_defaults keys ps = Ok ps' ∧
    ∀ k, ps' !! k =
         (if decide (k ∈ keys) then <["default" := UndefinedThunk]> else id)
           <$> ps !! k.
Proof.
  revert ps. induction keys as [|p rest IH]; intros ps Hdom; simpl.
  - exists ps. split; [done|]. intros k.
    by destruct (ps !! k).
  - assert (p ∈ dom ps) as [d Hd]%elem_of_dom by apply Hdom, list_elem_of_here.
    unfold undefine_default. rewrite Hd. simpl.
    destruct (IH (<[p := <["default" := UndefinedThunk]> d]> ps))
      as (ps' & -> & Hps').
    { intros k Hk. rewrite dom_insert. apply elem_of_union_r, Hdom.
      by apply list_elem_of_further. }
    exists ps'. split; [done|]. intros k. rewrite Hps'.
    destruct (decide (k = p)) as [->|Hne].
    + rewrite lookup_insert_eq, Hd, (decide_True _ _ (list_elem_of_here _ _)).
      simpl. destruct (decide (p ∈ rest)); [|done].
      by rewrite insert_insert_eq.
    + rewrite lookup_insert_ne by done.
      destruct (decide (k ∈ rest)) as [Hin|Hnin].
      * by rewrite decide_True by by apply list_elem_of_further.
      * rewrite decide_False; [done|].
        by intros [?|?]%elem_of_cons.
Qed.

Lemma undefine_defaults_throws keys ps k :
  k ∈ keys → k ∉ dom ps → undefine_defaults keys ps = Throw NotAnObject.
Proof.
  revert ps. induction keys as [|p rest IH]; intros ps Hin Hdom;
    [by apply elem_of_nil in Hin|].
  simpl. unfold undefine_default.
  destruct (ps !! p) as [d|] eqn:Hp; simpl; [|done].
  apply elem_of_cons in Hin as [->|Hin].
  - exfalso. apply Hdom. by eapply elem_of_dom_2.
  - apply IH; [done|]. rewrite dom_insert.
    intros [->%elem_of_singleton|?]%elem_of_union; [|done].
    apply Hdom. by eapply elem_of_dom_2.
Qed.

(** How [brand_render] fills the props, for any list of keys. *)
Lemma fill_lookup bp keys o k :
  o_props (foldl (fill bp) o keys) !! k =
    if decide (k ∈ keys) then
      Some (if decide (default VUndef (o_props o !! k) = VUndef)
            then default VUndef (bp !! k)
            else default VUndef (o_props o !! k))
    else o_props o !! k.
Proof.
  revert o. induction keys as [|p rest IH]; intros o; simpl.
  - done.
  - rewrite IH. unfold fill at 2 4 5. simpl.
    destruct (decide (k = p)) as [->|Hne].
    + rewrite lookup_insert_eq, (decide_True _ _ (list_elem_of_here _ _)).
      simpl. destruct (decide (p ∈ rest)); [|done]. f_equal.
      repeat case_decide; congruence.
    + rewrite lookup_insert_ne by done.
      destruct (decide (k ∈ rest)) as [Hin|Hnin];
        destruct (decide (k ∈ p :: rest)) as [Hin'|Hnin']; try done.
      * destruct Hnin'. by apply list_elem_of_further.
      * by apply elem_of_cons in Hin' as [?|?].
Qed.

Lemma fill_keeps bp keys o :
  let o' := foldl (fill bp) o keys in
  o_key o' = o_key o ∧ o_ref o' = o_ref o ∧
  o_scopedSlots o' = o_scopedSlots o ∧ o_attrs o' = o_attrs o ∧
  o_on o' = o_on o ∧ o_style o' = o_style o ∧ o_class o' = o_class o.
Proof.
  revert o. induction keys as [|p rest IH]; intros o; simpl; [done|].
  destruct (IH (fill bp o p)) as (-> & -> & -> & -> & -> & -> & ->). done.
Qed.

Lemma undefine_defaults_dom keys ps ps' :
  undefine_defaults keys ps = Ok ps' → dom ps' = dom ps.
Proof.
  revert ps. induction keys as [|p rest IH]; intros ps; simpl;
    [by intros [= ->]|].
  unfold undefine_default. destruct (ps !! p) as [d|] eqn:Hp; simpl; [|done].
  intros ->%IH. by apply dom_insert_lookup_L.
Qed.

Lemma initial_options_dom ps ps' key self :
  dom ps' = dom ps →
  initial_options ps' key self = initial_options ps key self.
Proof.
  intros Hdom. unfold initial_options.
  assert (bool_decide (is_Some (ps' !! "value"))
          = bool_decide (is_Some (ps !! "value"))) as ->; [|done].
  apply bool_decide_ext. by rewrite <- !elem_of_dom, Hdom.
Qed.

Section ReBrand.
Variable pascal : string → string.

Local Abbreviation reBrand := (reBrand pascal).

(** The name that [reBrand] gives the wrapper. *)
Local Abbreviation wrapper_name o c :=
  (if String.eqb (Setup.or_default (bo_cname o) (pascal (bo_name o))) ""
   then component_name c
   else VStr (Setup.or_default (bo_cname o) (pascal (bo_name o)))).

(** X16.  [reBrand], called with an options object, works on the
    component and the brand of that object.  It succeeds exactly when
    every prop of the brand is declared by the component, and throws a
    TypeError otherwise.  On success it registers, under the given name,
    a wrapper named by [cname], else by the PascalCase of the name, else
    as the component; in the declarations of the wrapper every branded
    prop has its [default] replaced by a function that returns
    [undefined], and nothing else is changed. *)
Theorem reBrand_registers o c opts ps b component_arg brand_arg :
  bo_component o = Some c → options c = Some opts → props opts = Some ps →
  bo_brand o = Some b →
  if decide (dom (default ∅ (brand_props b)) ⊆ dom ps) then
    ∃ w,
      reBrand (ByOptions o) component_arg brand_arg
        = Ok (Registration (bo_register o) (bo_name o) w) ∧
      w_name w = wrapper_name o c ∧
      ∀ k, w_props w !! k =
           (if decide (k ∈ dom (default ∅ (brand_props b)))
            then <["default" := UndefinedThunk]> else id) <$> ps !! k
  else
    reBrand (ByOptions o) component_arg brand_arg = Throw NotAnObject.
Proof.
  intros Hc Hopts Hps Hb. unfold Wrapper.reBrand, register_branded.
  rewrite Hc, Hb. unfold component. rewrite Hopts, Hps.
  set (keys := (map_to_list (default ∅ (brand_props b))).*1).
  destruct (String.eqb _ ""); simpl; unfold brand_setup; simpl.
  all: destruct (decide (dom (default ∅ (brand_props b)) ⊆ dom ps))
         as [Hsub|Hsub].
  all: try
    (destruct (undefine_defaults_ok keys ps) as (ps' & -> & Hps');
     [ intros k Hk%keys_of_map; by apply Hsub
     | simpl; eexists; split; [done|]; split; [done|]; simpl;
       intros k; rewrite Hps';
       destruct (decide (k ∈ dom (default ∅ (brand_props b)))) as [Hk|Hk];
       [ by rewrite decide_True by by apply keys_of_map
       | rewrite decide_False; [done|]; by intros ?%keys_of_map ] ]).
  all: assert (∃ k, k ∈ keys ∧ k ∉ dom ps) as (k & Hk & Hnk).
  all: try (destruct (decide (Forall (λ k, k ∈ dom ps) keys)) as [Hall|Hall];
            [ exfalso; apply Hsub; intros k Hk%keys_of_map;
              by eapply Forall_forall in Hall
            | apply not_Forall_Exists, Exists_exists in Hall; [done|];
              intros ?; apply _ ]).
  all: by rewrite (undefine_defaults_throws keys ps k Hk Hnk).
Qed.

(** X17.  A rendering of the wrapper that [reBrand] registered starts
    from the options of a plain wrapper of the component and brands them:
    a branded prop that was passed with a value other than [undefined]
    keeps that value, a branded prop that was not passed, or was passed
    as [undefined], gets the value of the brand, and the other props and
    the listeners are left alone; [style] and [class] are those of the
    brand where the brand has them, and absent otherwise. *)
Theorem rebranded_render o c opts ps b component_arg brand_arg reg self key :
  bo_component o = Some c → options c = Some opts → props opts = Some ps →
  bo_brand o = Some b →
  reBrand (ByOptions o) component_arg brand_arg = Ok reg →
  vnode_key self = Some key →
  ∃ o',
    w_render (reg_component reg) (w_props (reg_component reg)) self
      = Ok (Rendered None o') ∧
    o_style o'
      = (if truthy (brand_style b) then Some (brand_style b) else None) ∧
    o_class o'
      = (if truthy (brand_class b) then Some (brand_class b) else None) ∧
    o_on o' = o_on (initial_options ps key self) ∧
    ∀ k,
      o_props o' !! k =
        match default ∅ (brand_props b) !! k with
        | Some branded =>
            Some (if decide (default VUndef
                               (o_props (initial_options ps key self) !! k)
                             = VUndef)
                  then branded
                  else default VUndef
                         (o_props (initial_options ps key self) !! k))
        | None => o_props (initial_options ps key self) !! k
        end.
Proof.
  intros Hc Hopts Hps Hb. unfold Wrapper.reBrand, register_branded.
  rewrite Hc, Hb. unfold component. rewrite Hopts, Hps.
  set (bp := default ∅ (brand_props b)).
  set (keys := (map_to_list bp).*1).
  intros Hreg Hkey.
  assert (∃ wname ps',
            undefine_defaults keys ps = Ok ps' ∧
            reg_component reg =
              Wrapper wname ps'
                (map_imap (λ key _, Some key) (default ∅ (methods opts)))
                (bool_decide (is_Some (ps !! "value")))
                (render [brand_render b keys] None)) as (wname & ps' & Hps' & ->).
  { destruct (String.eqb _ ""); simpl in Hreg; unfold brand_setup in Hreg;
      simpl in Hreg;
      destruct (undefine_defaults keys ps) as [ps'|e]; simpl in Hreg;
      try done; injection Hreg as <-; by eexists _, _. }
  simpl. unfold render. rewrite Hkey.
  rewrite (initial_options_dom _ _ _ _ (undefine_defaults_dom _ _ _ Hps')).
  set (plain := initial_options ps key self). unfold brand_render. simpl.
  match goal with
  | |- context [foldl (fill ?m) ?o2 keys] =>
      change m with bp; set (start := o2);
      assert (o_props start = o_props plain ∧ o_on start = o_on plain ∧
              o_style start
                = (if truthy (brand_style b) then Some (brand_style b)
                   else None) ∧
              o_class start
                = (if truthy (brand_class b) then Some (brand_class b)
                   else None)) as (Hprops & Hon & Hstyle & Hclass)
  end.
  { subst start. unfold plain, initial_options.
    destruct (truthy (brand_style b)), (truthy (brand_class b));
      by destruct (bool_decide _). }
  eexists. split; [done|].
  destruct (fill_keeps bp keys start) as (_ & _ & _ & _ & -> & -> & ->).
  split; [done|]. split; [done|]. split; [done|].
  intros k. rewrite fill_lookup, Hprops.
  destruct (bp !! k) as [branded|] eqn:Hk.
  - rewrite decide_True; [done|]. apply keys_of_map. by eapply elem_of_dom_2.
  - rewrite decide_False; [done|].
    intros Hin%keys_of_map%elem_of_dom. rewrite Hk in Hin. by destruct Hin.
Qed.
End ReBrand.

Import Setup Branded.

Lemma component_needs_props_witness :
  component (VStr "Wrapped") (Some label) None None None None
    = Throw NotAnObject.
Proof.
  apply (component_needs_props (VStr "Wrapped") label None None None None).
  right. exists plain_options. split; reflexivity.
Defined.

Lemma wrapper_render_forwards_witness :
  ∃ w o,
    component (VStr "Wrapped") (Some button) None None None None = Ok w ∧
    w_render w button_props clicked = Ok (Rendered None o) ∧
    o_props o !! "value" = Some (VStr "ok") ∧
    o_props o !! "values" = None ∧
    o_on o !! "input" = Some SetValue.
Proof.
  destruct (wrapper_render_forwards (VStr "Wrapped") button button_options
              button_props None clicked (VNum 7) eq_refl eq_refl eq_refl)
    as (w & o & Hw & _ & _ & _ & Hrender & _ & _ & _ & _ & _ & _ & Hforward).
  rewrite decide_True in Hforward by (by eexists).
  destruct Hforward as (Hvalue & Hvalues & _ & Hinput & _).
  exists w, o. split; [exact Hw|]. split; [exact Hrender|].
  split; [exact Hvalue|]. split; [exact Hvalues|exact Hinput].
Defined.

Lemma renders_in_order_witness :
  ∃ w o,
    component (VStr "Wrapped") (Some button)
      (Some (with_class (VStr "round"))) None None
      (Some [flat; idle; styled]) = Ok w ∧
    w_render w button_props clicked = Ok (Rendered None o) ∧
    o_style o = Some (VStr "flat") ∧
    o_class o = Some (VStr "round").
Proof.
  destruct (renders_in_order (VStr "Wrapped") button button_options
              button_props (Some (with_class (VStr "round"))) None None
              [flat; idle; styled] eq_refl eq_refl)
    as (w & _ & Hw & _ & Hrender).
  exists w. eexists. split; [|split].
  - apply Hw; [by repeat constructor|done].
  - rewrite (Hrender clicked (VNum 7) eq_refl). reflexivity.
  - split; reflexivity.
Defined.

Lemma reBrand_registers_witness :
  reBrand capitalize
    (ByOptions (BrandOptions "my-button" None (Some button) (Some rounded) None))
    None None = Throw NotAnObject.
Proof.
  pose proof (reBrand_registers capitalize
                (BrandOptions "my-button" None (Some button) (Some rounded) None)
                button button_options button_props rounded None None
                eq_refl eq_refl eq_refl eq_refl) as Hreg.
  rewrite decide_False in Hreg; [exact Hreg|].
  intros Hsub. specialize (Hsub "radius"). simpl in Hsub.
  rewrite dom_singleton_L, elem_of_singleton in Hsub.
  specialize (Hsub eq_refl). apply elem_of_dom in Hsub as [d Hd].
  discriminate Hd.
Defined.

Lemma rebranded_render_witness :
  ∃ reg o',
    reBrand capitalize (ByOptions my_button) None None = Ok reg ∧
    w_render (reg_component reg) (w_props (reg_component reg)) clicked
      = Ok (Rendered None o') ∧
    o_style o' = Some (VStr "font-weight: bold") ∧
    o_props o' !! "color" = Some (VStr "primary").
Proof.
  eexists.
  edestruct (rebranded_render capitalize my_button button button_options
               button_props primary None None _ clicked (VNum 7)
               eq_refl eq_refl eq_refl eq_refl eq_refl eq_refl)
    as (o' & Hrender & Hstyle & _ & _ & Hprops).
  exists o'. split; [reflexivity|]. split; [exact Hrender|].
  split; [exact Hstyle|]. rewrite Hprops. reflexivity.
Defined.

End WrapperFacts.

(** ** The module builder *)

Module BuilderFacts.
Import JS Merger Builder.

Lemma get_prop_obj h l props k :
  h !! l = Some (CObj props) →
  get_prop h (VRef l) k = default VUndef (props !! k).
Proof. intros Hl. simpl. by rewrite Hl. Qed.

Lemma set_prop_obj h l props k v :
  h !! l = Some (CObj props) →
  set_prop h (VRef l) k v = Returns (<[l := CObj (<[k := v]> props)]> h).
Proof. intros Hl. simpl. by rewrite Hl. Qed.

Lemma fresh_new (h : heap) l c : h !! l = Some c → fresh (dom h) ≠ l.
Proof.
  intros Hl%elem_of_dom_2 Heq. subst l. by apply (is_fresh (dom h)).
Qed.

Lemma lookup_alloc (h : heap) l c c' :
  h !! l = Some c → <[fresh (dom h) := c']> h !! l = Some c.
Proof. intros Hl. rewrite lookup_insert_ne; [done|]. by eapply fresh_new. Qed.

(** [dom h ⊆ dom (<[_ := _]> (... h))] *)
Ltac grows :=
  first [ reflexivity | etrans; [|apply dom_insert_subseteq]; grows ].

(** Closes a lookup that is among the hypotheses, without comparing
    heaps or function numbers by computation. *)
Ltac stored :=
  match goal with
  | H : ?m !! ?k = _ |- ?m' !! ?k' = _ =>
      constr_eq m m'; constr_eq k k'; exact H
  | |- Some _ = Some _ => reflexivity
  | |- ?x = ?y => constr_eq x y; reflexivity
  end.

Ltac lookups :=
  repeat (rewrite lookup_insert_eq || rewrite lookup_insert_ne by congruence);
  try stored.

Lemma decode_code c : decode_nat (code c) = Some c.
Proof. apply decode_encode_nat. Qed.

Lemma bind_returns {A B} (a : A) (k : A → outcome B) :
  Returns a ≫= k = k a.
Proof. done. Qed.

Section Facts.
Variable ext : nat → heap → res (value * heap).
Variable construct : heap → res (value * heap).

Local Abbreviation preperValidation := (preperValidation ext construct).

Lemma ensure_object_present store k h rest v :
  h !! store = Some (CObj rest) → rest !! k = Some v → truthy v = true →
  ensure_object store k h = Returns h.
Proof.
  intros Hs Hk Hv. unfold ensure_object.
  rewrite (get_prop_obj _ _ _ _ Hs), Hk. simpl default. rewrite Hv.
  rewrite (set_prop_obj _ _ _ _ _ Hs).
  by rewrite (insert_id rest), (insert_id h).
Qed.

Lemma add_mutations_step store rest m ms field keys h :
  h !! store = Some (CObj rest) →
  rest !! "mutations" = Some (VRef m) → h !! m = Some (CObj ms) →
  add_mutations store (field :: keys) h =
    add_mutations store keys
      (<[m := CObj (<[field := VRef (fresh (dom h))]> ms)]>
         (<[fresh (dom h) := function (Assign field)]> h)).
Proof.
  intros Hs Hm Hms.
  change (add_mutations store (field :: keys) h) with
    (let mutations := get_prop h (VRef store) "mutations" in
     let '(f, h) := alloc (function (Assign field)) h in
     h ← set_prop h mutations field (VRef f);
     add_mutations store keys h).
  rewrite (get_prop_obj _ _ _ _ Hs), Hm. unfold alloc. simpl default.
  by rewrite (set_prop_obj _ _ ms) by by apply lookup_alloc.
Qed.

Lemma add_fields_step store rest t st field v fields h :
  h !! store = Some (CObj rest) →
  rest !! "state" = Some (VRef t) → h !! t = Some (CObj st) →
  add_fields store ((field, v) :: fields) h =
    add_fields store fields (<[t := CObj (<[field := v]> st)]> h).
Proof.
  intros Hs Ht Hst.
  change (add_fields store ((field, v) :: fields) h) with
    (h ← set_prop h (get_prop h (VRef store) "state") field v;
     add_fields store fields h).
  rewrite (get_prop_obj _ _ _ _ Hs), Ht. simpl default.
  by rewrite (set_prop_obj _ _ st).
Qed.

(** [preperValidation] on a module whose [mutations] and [state] are
    plain objects. *)
Lemma preperValidation_plain store rest m ms t st h :
  h !! store = Some (CObj rest) →
  rest !! "mutations" = Some (VRef m) → h !! m = Some (CObj ms) →
  rest !! "state" = Some (VRef t) → h !! t = Some (CObj st) →
  truthy (default VUndef (st !! "call")) = false →
  store ≠ m → store ≠ t → m ≠ t →
  ∃ f1 f2 h',
    preperValidation store validation_fields h = Returns h' ∧
    (f1 ∉ dom h) ∧ (f2 ∉ dom h) ∧ f1 ≠ f2 ∧
    h' !! f1 = Some (function (Assign "@@")) ∧
    h' !! f2 = Some (function (Assign "@tmu_fetch")) ∧
    h' !! m = Some (CObj (<["@tmu_fetch" := VRef f2]>
                            (<["@@" := VRef f1]> ms))) ∧
    h' !! t = Some (CObj (<["@tmu_fetch" := VBool false]>
                            (<["@@" := VNum 0]> st))) ∧
    (∀ l, l ≠ m → l ≠ t → l ≠ f1 → l ≠ f2 → h' !! l = h !! l) ∧
    dom h ⊆ dom h'.
Proof.
  intros Hs Hm Hms Ht Hst Hcall Hsm Hst' Hmt.
  unfold Builder.preperValidation.
  rewrite (ensure_object_present _ _ _ _ _ Hs Hm eq_refl).
  change (Returns h ≫= ?k) with (k h). cbv beta.
  change (validation_fields.*1) with ["@@"; "@tmu_fetch"]%string.
  set (f1 := fresh (dom h)).
  assert (f1 ∉ dom h) as Hf1 by apply is_fresh.
  assert (f1 ≠ store ∧ f1 ≠ m ∧ f1 ≠ t) as (Hf1s & Hf1m & Hf1t).
  { repeat split; intros ->; apply Hf1; by eapply elem_of_dom_2. }
  rewrite (add_mutations_step _ _ _ _ _ _ _ Hs Hm Hms). fold f1.
  set (h1 := <[m := _]> (<[f1 := _]> h)).
  assert (h1 !! store = Some (CObj rest)) as Hs1.
  { subst h1. lookups. }
  assert (h1 !! m = Some (CObj (<["@@" := VRef f1]> ms))) as Hm1.
  { subst h1. lookups. }
  set (f2 := fresh (dom h1)).
  assert (f2 ∉ dom h1) as Hf2 by apply is_fresh.
  assert (dom h1 = {[f1]} ∪ dom h) as Hdom1.
  { subst h1. rewrite dom_insert_lookup_L, dom_insert_L; [done|].
    rewrite lookup_insert_ne by done. by eexists. }
  rewrite Hdom1 in Hf2.
  apply not_elem_of_union in Hf2 as [Hf21%not_elem_of_singleton Hf2h].
  assert (f2 ≠ store ∧ f2 ≠ m ∧ f2 ≠ t) as (Hf2s & Hf2m & Hf2t).
  { repeat split; intros ->; apply Hf2h; by eapply elem_of_dom_2. }
  rewrite (add_mutations_step _ _ _ _ _ _ _ Hs1 Hm Hm1). fold f2.
  set (h2 := <[m := _]> (<[f2 := _]> h1)).
  change (add_mutations store [] h2) with (Returns h2).
  change (Returns h2 ≫= ?k) with (k h2). cbv beta.
  assert (h2 !! store = Some (CObj rest)) as Hs2.
  { subst h2. lookups. }
  assert (h2 !! t = Some (CObj st)) as Ht2.
  { subst h2 h1. lookups. }
  rewrite (ensure_object_present _ _ _ _ _ Hs2 Ht eq_refl).
  change (Returns h2 ≫= ?k) with (k h2). cbv beta.
  rewrite (get_prop_obj _ _ _ _ Hs2), Ht. simpl default.
  assert (has_call h2 (VRef t) = false) as ->.
  { simpl. by rewrite Ht2. }
  change (Returns h2 ≫= ?k) with (k h2). cbv beta.
  unfold validation_fields.
  rewrite (add_fields_step _ _ _ _ _ _ _ _ Hs2 Ht Ht2).
  set (h3 := <[t := _]> h2).
  assert (h3 !! store = Some (CObj rest)) as Hs3.
  { subst h3. lookups. }
  assert (h3 !! t = Some (CObj (<["@@" := VNum 0]> st))) as Ht3.
  { subst h3. lookups. }
  rewrite (add_fields_step _ _ _ _ _ _ _ _ Hs3 Ht Ht3).
  set (h4 := <[t := _]> h3).
  change (add_fields store [] h4) with (Returns h4).
  change (Returns h4 ≫= ?k) with (k h4). cbv beta.
  exists f1, f2, h4. split; [done|].
  split; [done|]. split; [done|]. split; [done|].
  subst h4 h3 h2 h1. repeat split.
  - lookups.
  - lookups.
  - lookups.
  - lookups.
  - intros l Hlm Hlt Hl1 Hl2. lookups.
  - grows.
Qed.

(** X18.  [preperValidation] works in place.  When the [mutations] and
    the [state] of the module are plain objects, these very objects are
    changed: [mutations] gains a new function under each of the names
    "@@" and "@tmu_fetch", [state] gains the fields "@@" with 0 and
    "@tmu_fetch" with [false], overriding members of these names; their
    other members, the module object itself and the rest of the heap are
    left alone. *)
Theorem preperValidation_in_place store rest m ms t st h :
  h !! store = Some (CObj rest) →
  rest !! "mutations" = Some (VRef m) → h !! m = Some (CObj ms) →
  rest !! "state" = Some (VRef t) → h !! t = Some (CObj st) →
  truthy (default VUndef (st !! "call")) = false →
  store ≠ m → store ≠ t → m ≠ t →
  ∃ f1 f2 h',
    preperValidation store validation_fields h = Returns h' ∧
    (f1 ∉ dom h) ∧ (f2 ∉ dom h) ∧ f1 ≠ f2 ∧
    h' !! f1 = Some (function (Assign "@@")) ∧
    h' !! f2 = Some (function (Assign "@tmu_fetch")) ∧
    h' !! m = Some (CObj (<["@tmu_fetch" := VRef f2]>
                            (<["@@" := VRef f1]> ms))) ∧
    h' !! t = Some (CObj (<["@tmu_fetch" := VBool false]>
                            (<["@@" := VNum 0]> st))) ∧
    ∀ l, l ≠ m → l ≠ t → l ≠ f1 → l ≠ f2 → h' !! l = h !! l.
Proof.
  intros Hs Hm Hms Ht Hst Hcall Hsm Hst' Hmt.
  destruct (preperValidation_plain store rest m ms t st h)
    as (f1 & f2 & h' & Hrun & Hf1 & Hf2 & Hf12 & Hf1' & Hf2' & Hm' & Ht'
        & Hframe & _); try assumption.
  exists f1, f2, h'. repeat (split; [assumption|]). exact Hframe.
Qed.

(** A call of [function () { return { ...obj }; }]. *)
Lemma env_shallow_copy obj h :
  env ext construct (code (ShallowCopy obj)) h =
    Ok (VRef (fresh (dom h)), <[fresh (dom h) := CObj (own_props h obj)]> h).
Proof. unfold env. by rewrite decode_code. Qed.

(** X19.  When the [state] of the module is a function, [preperValidation]
    calls it once and replaces it.  For a function that returns a new
    object at each call, the module ends with a new function as its
    [state]; the one object that the call returned has gained the
    fields "@@" and "@tmu_fetch", and each call of the new function
    hands out a new object with the members of that one object as they
    are then, without calling the function of the caller again: the
    states of all instances of the module share what these members
    refer to. *)
Theorem preperValidation_state_factory store rest m ms g fn st h :
  h !! store = Some (CObj rest) →
  rest !! "mutations" = Some (VRef m) → h !! m = Some (CObj ms) →
  rest !! "state" = Some (VRef g) → h !! g = Some (CFun fn) →
  (∀ h2, h2 !! g = Some (CFun fn) →
         invoke (env ext construct) h2 (VRef g) =
           Ok (VRef (fresh (dom h2)), <[fresh (dom h2) := CObj st]> h2)) →
  store ≠ m →
  ∃ r c h',
    preperValidation store validation_fields h = Returns h' ∧
    (r ∉ dom h) ∧ (c ∉ dom h) ∧ r ≠ c ∧
    h' !! store = Some (CObj (<["state" := VRef c]> rest)) ∧
    h' !! g = Some (CFun fn) ∧
    h' !! r = Some (CObj (<["@tmu_fetch" := VBool false]>
                            (<["@@" := VNum 0]> st))) ∧
    h' !! c = Some (function (ShallowCopy (VRef r))) ∧
    ∀ h2 props,
      h2 !! c = Some (function (ShallowCopy (VRef r))) →
      h2 !! r = Some (CObj props) →
      invoke (env ext construct) h2 (VRef c) =
        Ok (VRef (fresh (dom h2)), <[fresh (dom h2) := CObj props]> h2).
Proof.
  intros Hs Hm Hms Hg Hfn Hmake Hsm.
  assert (store ≠ g) as Hsg by (intros ->; congruence).
  assert (m ≠ g) as Hmg by (intros ->; congruence).
  unfold Builder.preperValidation.
  rewrite (ensure_object_present _ _ _ _ _ Hs Hm eq_refl).
  change (Returns h ≫= ?k) with (k h). cbv beta.
  change (validation_fields.*1) with ["@@"; "@tmu_fetch"]%string.
  set (f1 := fresh (dom h)).
  assert (f1 ∉ dom h) as Hf1 by apply is_fresh.
  assert (f1 ≠ store ∧ f1 ≠ m ∧ f1 ≠ g) as (Hf1s & Hf1m & Hf1g).
  { repeat split; intros ->; apply Hf1; by eapply elem_of_dom_2. }
  rewrite (add_mutations_step _ _ _ _ _ _ _ Hs Hm Hms). fold f1.
  set (h1 := <[m := _]> (<[f1 := _]> h)).
  assert (h1 !! store = Some (CObj rest)) as Hs1 by (subst h1; lookups).
  assert (h1 !! m = Some (CObj (<["@@" := VRef f1]> ms))) as Hm1
    by (subst h1; lookups).
  assert (dom h ⊆ dom h1) as Hsub1.
  { subst h1. grows. }
  set (f2 := fresh (dom h1)).
  assert (f2 ∉ dom h1) as Hf2 by apply is_fresh.
  assert (f2 ≠ store ∧ f2 ≠ m ∧ f2 ≠ g) as (Hf2s & Hf2m & Hf2g).
  { repeat split; intros ->; apply Hf2, Hsub1; by eapply elem_of_dom_2. }
  rewrite (add_mutations_step _ _ _ _ _ _ _ Hs1 Hm Hm1). fold f2.
  set (h2 := <[m := _]> (<[f2 := _]> h1)).
  change (add_mutations store [] h2) with (Returns h2).
  change (Returns h2 ≫= ?k) with (k h2). cbv beta.
  assert (h2 !! store = Some (CObj rest)) as Hs2 by (subst h2; lookups).
  assert (h2 !! g = Some (CFun fn)) as Hg2 by (subst h2 h1; lookups).
  assert (dom h ⊆ dom h2) as Hsub2.
  { subst h2 h1. grows. }
  rewrite (ensure_object_present _ _ _ _ _ Hs2 Hg eq_refl).
  change (Returns h2 ≫= ?k) with (k h2). cbv beta.
  rewrite (get_prop_obj _ _ _ _ Hs2), Hg. simpl default.
  assert (has_call h2 (VRef g) = true) as -> by (simpl; by rewrite Hg2).
  rewrite (Hmake h2 Hg2). simpl lift.
  set (r := fresh (dom h2)).
  assert (r ∉ dom h2) as Hr by apply is_fresh.
  assert (r ≠ store ∧ r ≠ g) as (Hrs & Hrg).
  { repeat split; intros ->; apply Hr; by eapply elem_of_dom_2. }
  set (h3 := <[r := CObj st]> h2).
  change (Returns (VRef r, h3) ≫= ?k) with (k (VRef r, h3)). cbv beta iota.
  assert (h3 !! store = Some (CObj rest)) as Hs3 by (subst h3; lookups).
  rewrite (set_prop_obj _ _ _ _ _ Hs3).
  set (rest1 := <["state" := VRef r]> rest).
  set (h4 := <[store := CObj rest1]> h3).
  change (Returns h4 ≫= ?k) with (k h4). cbv beta.
  assert (h4 !! store = Some (CObj rest1)) as Hs4 by (subst h4; lookups).
  assert (rest1 !! "state" = Some (VRef r)) as Hr1
    by (subst rest1; by rewrite lookup_insert_eq).
  assert (h4 !! r = Some (CObj st)) as Hr4 by (subst h4 h3; lookups).
  unfold validation_fields.
  rewrite (add_fields_step _ _ _ _ _ _ _ _ Hs4 Hr1 Hr4).
  set (h5 := <[r := _]> h4).
  assert (h5 !! store = Some (CObj rest1)) as Hs5 by (subst h5; lookups).
  assert (h5 !! r = Some (CObj (<["@@" := VNum 0]> st))) as Hr5
    by (subst h5; lookups).
  rewrite (add_fields_step _ _ _ _ _ _ _ _ Hs5 Hr1 Hr5).
  set (h6 := <[r := _]> h5).
  change (add_fields store [] h6) with (Returns h6).
  change (Returns h6 ≫= ?k) with (k h6). cbv beta.
  assert (h6 !! store = Some (CObj rest1)) as Hs6 by (subst h6; lookups).
  rewrite (get_prop_obj _ _ _ _ Hs6), Hr1. simpl default. unfold alloc.
  set (c := fresh (dom h6)).
  assert (c ∉ dom h6) as Hc by apply is_fresh.
  assert (dom h ⊆ dom h6) as Hsub6.
  { subst h6 h5 h4 h3 h2 h1. grows. }
  assert (h6 !! g = Some (CFun fn)) as Hg6
    by (subst h6 h5 h4 h3; lookups).
  assert (h6 !! r = Some (CObj (<["@tmu_fetch" := VBool false]>
                                  (<["@@" := VNum 0]> st)))) as Hr6
    by (subst h6; lookups).
  assert (c ≠ store ∧ c ≠ g ∧ c ≠ r) as (Hcs & Hcg & Hcr).
  { repeat split; intros Heq; apply Hc; rewrite Heq; by eapply elem_of_dom_2. }
  rewrite (set_prop_obj _ _ rest1) by lookups.
  exists r, c. eexists. split; [done|].
  split; [intros Hin; by apply Hr, Hsub2|].
  split; [intros Hin; by apply Hc, Hsub6|].
  split; [congruence|].
  subst rest1 h6 h5 h4 h3. repeat split.
  - lookups. by rewrite insert_insert_eq.
  - lookups.
  - lookups.
  - lookups.
  - intros h7 props Hc7 Hr7. simpl. rewrite Hc7. simpl.
    rewrite env_shallow_copy. simpl. by rewrite Hr7.
Qed.
End Facts.

Section Store.
Variable ext : nat → heap → res (value * heap).
Variable construct : heap → res (value * heap).
Variable mapStoreMutations mapStoreCollections mapStoreComplexTypes
  : heap → res (value * heap).

Local Abbreviation store :=
  (store ext construct mapStoreMutations mapStoreCollections
     mapStoreComplexTypes).

(** A section of a module for which [store] was given no options. *)
Lemma section_alone s name h rest :
  h !! s = Some (CObj rest) →
  merge_section ext construct s name VUndef VUndef VUndef h =
    Returns (default VUndef (rest !! name), h).
Proof.
  intros Hs. unfold merge_section.
  by rewrite MergeMore.merge_alone, (get_prop_obj _ _ _ _ Hs).
Qed.

(** X20.  [store] without options, for a module that gives plain objects
    as its [state] and [mutations] and gives no [actions].  The result
    is a new object with the members of the argument; it is namespaced;
    its [state] and [mutations] are the objects of the caller themselves,
    which have gained the validation fields and the mutations that set
    them; its [actions] are a new object whose only member [initialize]
    is the [initialize] of the argument when that is given, and a new
    function that does nothing otherwise; its [getters] are those of the
    argument.  Nothing else in the heap of the caller is changed. *)
Theorem store_without_options initialize rest m ms t st h :
  rest !! "mutations" = Some (VRef m) → h !! m = Some (CObj ms) →
  rest !! "state" = Some (VRef t) → h !! t = Some (CObj st) →
  truthy (default VUndef (st !! "call")) = false →
  truthy (default VUndef (rest !! "actions")) = false →
  m ≠ t →
  ∃ s f1 f2 a init h' rest',
    store None initialize rest h = Returns (VRef s, h') ∧
    (s ∉ dom h) ∧ (a ∉ dom h) ∧ (f1 ∉ dom h) ∧ (f2 ∉ dom h) ∧
    h' !! s = Some (CObj rest') ∧
    rest' !! "namespaced" = Some (VBool true) ∧
    rest' !! "state" = Some (VRef t) ∧
    rest' !! "mutations" = Some (VRef m) ∧
    rest' !! "actions" = Some (VRef a) ∧
    rest' !! "getters" = Some (default VUndef (rest !! "getters")) ∧
    (∀ k, k ∉ ["namespaced"; "state"; "mutations"; "actions"; "getters"] →
          rest' !! k = rest !! k) ∧
    h' !! t = Some (CObj (<["@tmu_fetch" := VBool false]>
                            (<["@@" := VNum 0]> st))) ∧
    h' !! m = Some (CObj (<["@tmu_fetch" := VRef f2]>
                            (<["@@" := VRef f1]> ms))) ∧
    h' !! f1 = Some (function (Assign "@@")) ∧
    h' !! f2 = Some (function (Assign "@tmu_fetch")) ∧
    h' !! a = Some (CObj {[ "initialize" := init ]}) ∧
    (if truthy initialize then init = initialize
     else ∃ n, init = VRef n ∧ (n ∉ dom h) ∧ h' !! n = Some (function Noop)) ∧
    ∀ l, l ∈ dom h → l ≠ m → l ≠ t → h' !! l = h !! l.
Proof.
  intros Hm Hms Ht Hst Hcall Hactions Hmt.
  unfold Builder.store, alloc. simpl from_option.
  change (None ≫= collections) with (@None nat).
  change (None ≫= complexTypes) with (@None nat).
  set (s := fresh (dom h)).
  assert (s ∉ dom h) as Hs by apply is_fresh.
  clearbody s.
  assert (s ≠ m ∧ s ≠ t) as [Hsm Hst'].
  { split; intros ->; apply Hs; by eapply elem_of_dom_2. }
  set (h0 := <[s := CObj rest]> h).
  assert (h0 !! s = Some (CObj rest)) as Hs0 by (subst h0; lookups).
  assert (h0 !! m = Some (CObj ms)) as Hm0 by (subst h0; lookups).
  assert (h0 !! t = Some (CObj st)) as Ht0 by (subst h0; lookups).
  rewrite !bind_returns.
  destruct (preperValidation_plain ext construct s rest m ms t st h0)
    as (f1 & f2 & h1 & -> & Hf1 & Hf2 & Hf12 & Hf1' & Hf2' & Hm1 & Ht1
        & Hframe & Hsub1);
    try done.
  assert (dom h ⊆ dom h0) as Hsub0 by (subst h0; grows).
  assert (f1 ≠ s ∧ f2 ≠ s) as [Hf1s Hf2s].
  { split; intros ->; [apply Hf1|apply Hf2]; by eapply elem_of_dom_2. }
  assert (h1 !! s = Some (CObj rest)) as Hs1.
  { rewrite Hframe by congruence. done. }
  rewrite bind_returns, (set_prop_obj _ _ _ _ _ Hs1), bind_returns.
  set (rest1 := <["namespaced" := VBool true]> rest).
  set (h2 := <[s := CObj rest1]> h1).
  assert (h2 !! s = Some (CObj rest1)) as Hs2 by (subst h2; lookups).
  rewrite (section_alone _ _ _ _ Hs2), bind_returns.
  assert (rest1 !! "state" = Some (VRef t)) as ->.
  { subst rest1. by rewrite lookup_insert_ne. }
  simpl default.
  rewrite (set_prop_obj _ _ _ _ _ Hs2), bind_returns.
  set (rest2 := <["state" := _]> rest1).
  set (h3 := <[s := CObj rest2]> h2).
  assert (h3 !! s = Some (CObj rest2)) as Hs3 by (subst h3; lookups).
  rewrite (section_alone _ _ _ _ Hs3), bind_returns.
  assert (rest2 !! "mutations" = Some (VRef m)) as Hm2.
  { subst rest2 rest1. by rewrite !lookup_insert_ne. }
  rewrite Hm2. simpl default. unfold or_empty at 1.
  change (truthy (VRef m)) with true. cbv iota.
  rewrite (set_prop_obj _ _ _ _ _ Hs3), bind_returns.
  set (rest3 := <["mutations" := _]> rest2).
  set (h4 := <[s := CObj rest3]> h3).
  assert (h4 !! s = Some (CObj rest3)) as Hs4 by (subst h4; lookups).
  rewrite (section_alone _ _ _ _ Hs4), bind_returns.
  assert (rest3 !! "actions" = rest !! "actions") as Ha3.
  { subst rest3 rest2 rest1. by rewrite !lookup_insert_ne. }
  rewrite Ha3. unfold or_empty. rewrite Hactions. unfold alloc.
  set (a := fresh (dom h4)).
  assert (a ∉ dom h4) as Ha by apply is_fresh.
  clearbody a.
  assert (dom h1 ⊆ dom h4) as Hsub4 by (subst h4 h3 h2; grows).
  set (h5 := <[a := CObj ∅]> h4).
  assert (a ≠ s) as Has.
  { intros Heq. apply Ha. rewrite Heq. by eapply elem_of_dom_2. }
  assert (h5 !! s = Some (CObj rest3)) as Hs5 by (subst h5; lookups).
  rewrite (set_prop_obj _ _ _ _ _ Hs5), bind_returns.
  set (rest4 := <["actions" := _]> rest3).
  set (h6 := <[s := CObj rest4]> h5).
  assert (h6 !! s = Some (CObj rest4)) as Hs6 by (subst h6; lookups).
  rewrite (section_alone _ _ _ _ Hs6), bind_returns.
  rewrite (set_prop_obj _ _ _ _ _ Hs6), bind_returns.
  assert (rest4 !! "getters" = rest !! "getters") as ->.
  { subst rest4 rest3 rest2 rest1. by rewrite !lookup_insert_ne. }
  set (rest5 := <["getters" := _]> rest4).
  set (h7 := <[s := CObj rest5]> h6).
  assert (h7 !! s = Some (CObj rest5)) as Hs7 by (subst h7; lookups).
  assert (h7 !! a = Some (CObj ∅)) as Ha7 by (subst h7 h6 h5; lookups).
  rewrite (get_prop_obj _ _ _ _ Hs7).
  assert (rest5 !! "actions" = Some (VRef a)) as ->.
  { subst rest5 rest4. by rewrite lookup_insert_ne, lookup_insert_eq. }
  simpl default. rewrite (get_prop_obj _ _ _ _ Ha7), lookup_empty.
  change (truthy (default VUndef None)) with false. cbv iota.
  assert (dom h ⊆ dom h7) as Hsub7.
  { etrans; [exact Hsub0|]. etrans; [exact Hsub1|].
    etrans; [exact Hsub4|]. subst h7 h6 h5. grows. }
  assert (a ≠ m ∧ a ≠ t ∧ a ≠ f1 ∧ a ≠ f2) as (Ham & Hat & Haf1 & Haf2).
  { repeat split; intros Heq; apply Ha, Hsub4; rewrite Heq;
      by eapply elem_of_dom_2. }
  assert (∀ l, l ≠ s → l ≠ a → h7 !! l = h1 !! l) as Hframe7.
  { intros l Hls Hla. subst h7 h6 h5 h4 h3 h2. lookups. }
  assert (rest5 !! "namespaced" = Some (VBool true) ∧
          rest5 !! "state" = Some (VRef t) ∧
          rest5 !! "mutations" = Some (VRef m) ∧
          rest5 !! "actions" = Some (VRef a) ∧
          rest5 !! "getters" = Some (default VUndef (rest !! "getters")) ∧
          ∀ k, k ∉ ["namespaced"; "state"; "mutations"; "actions"; "getters"]
               → rest5 !! k = rest !! k) as Hrest.
  { subst rest5 rest4 rest3 rest2 rest1.
    repeat split;
      try (repeat (rewrite lookup_insert_eq
                   || rewrite lookup_insert_ne by done); done).
    intros k Hk. rewrite !lookup_insert_ne; [done|..];
      intros <-; apply Hk; repeat constructor. }
  destruct Hrest as (Hr1 & Hr2 & Hr3 & Hr4 & Hr5 & Hr6).
  destruct (truthy initialize) eqn:Hinit.
  - rewrite (set_prop_obj _ _ _ _ _ Ha7), bind_returns.
    exists s, f1, f2, a, initialize. eexists _, rest5.
    split; [done|]. split; [done|].
    split; [intros Hin; by apply Ha, Hsub4, Hsub1, Hsub0|].
    split; [intros Hin; by apply Hf1, Hsub0|].
    split; [intros Hin; by apply Hf2, Hsub0|].
    split; [lookups|]. do 6 (split; [done|]).
    split; [lookups; rewrite Hframe7 by congruence; stored|].
    split; [lookups; rewrite Hframe7 by congruence; stored|].
    split; [lookups; rewrite Hframe7 by congruence; stored|].
    split; [lookups; rewrite Hframe7 by congruence; stored|].
    split; [lookups|]. split; [done|].
    intros l Hl Hlm Hlt.
    assert (l ≠ s ∧ l ≠ a ∧ l ≠ f1 ∧ l ≠ f2) as (? & ? & ? & ?).
    { repeat split; intros ->.
      - by apply Hs.
      - by apply Ha, Hsub4, Hsub1, Hsub0.
      - by apply Hf1, Hsub0.
      - by apply Hf2, Hsub0. }
    lookups. rewrite Hframe7, Hframe by congruence. subst h0. lookups.
  - set (n := fresh (dom h7)).
    assert (n ∉ dom h7) as Hn by apply is_fresh.
    clearbody n.
    assert (n ≠ a ∧ n ≠ s) as [Hna Hns].
    { split; intros Heq; apply Hn; rewrite Heq; by eapply elem_of_dom_2. }
    assert (dom h1 ⊆ dom h7) as Hsub17.
    { etrans; [exact Hsub4|]. subst h7 h6 h5. grows. }
    assert (n ≠ m ∧ n ≠ t ∧ n ≠ f1 ∧ n ≠ f2) as (Hnm & Hnt & Hnf1 & Hnf2).
    { repeat split; intros Heq; apply Hn, Hsub17; rewrite Heq;
        by eapply elem_of_dom_2. }
    rewrite (set_prop_obj _ _ ∅) by lookups. rewrite bind_returns.
    exists s, f1, f2, a, (VRef n). eexists _, rest5.
    split; [done|]. split; [done|].
    split; [intros Hin; by apply Ha, Hsub4, Hsub1, Hsub0|].
    split; [intros Hin; by apply Hf1, Hsub0|].
    split; [intros Hin; by apply Hf2, Hsub0|].
    split; [lookups|]. do 6 (split; [done|]).
    split; [lookups; rewrite Hframe7 by congruence; stored|].
    split; [lookups; rewrite Hframe7 by congruence; stored|].
    split; [lookups; rewrite Hframe7 by congruence; stored|].
    split; [lookups; rewrite Hframe7 by congruence; stored|].
    split; [lookups|].
    split.
    { exists n. split; [done|]. split; [intros Hin; by apply Hn, Hsub7|].
      lookups. }
    intros l Hl Hlm Hlt.
    assert (l ≠ s ∧ l ≠ a ∧ l ≠ f1 ∧ l ≠ f2 ∧ l ≠ n) as (? & ? & ? & ? & ?).
    { repeat split; intros ->.
      - by apply Hs.
      - by apply Ha, Hsub4, Hsub1, Hsub0.
      - by apply Hf1, Hsub0.
      - by apply Hf2, Hsub0.
      - by apply Hn, Hsub7. }
    lookups. rewrite Hframe7, Hframe by congruence. subst h0. lookups.
Qed.
End Store.
Import Modules.

Lemma preperValidation_in_place_witness :
  ∃ f1 f2 h',
    preperValidation new_state nothing 1 validation_fields plain_module
      = Returns h' ∧
    h' !! 2 = Some (CObj (<["@tmu_fetch" := VRef f2]>
                            (<["@@" := VRef f1]> ∅))) ∧
    h' !! 3 = Some (CObj (<["@tmu_fetch" := VBool false]>
                            (<["@@" := VNum 0]> {[ "n" := VNum 1 ]}))).
Proof.
  destruct (preperValidation_in_place new_state nothing 1 given 2 ∅ 3
              {[ "n" := VNum 1 ]} plain_module)
    as (f1 & f2 & h' & Hrun & _ & _ & _ & _ & _ & Hm & Ht & _).
  1-6: reflexivity.
  1-3: discriminate.
  exists f1, f2, h'. split; [exact Hrun|]. split; [exact Hm|exact Ht].
Defined.

Lemma preperValidation_state_factory_witness :
  ∃ r c h',
    preperValidation new_state nothing 1 validation_fields factory_module
      = Returns h' ∧
    h' !! 1 = Some (CObj (<["state" := VRef c]> given)) ∧
    h' !! c = Some (function (ShallowCopy (VRef r))) ∧
    h' !! r = Some (CObj (<["@tmu_fetch" := VBool false]>
                            (<["@@" := VNum 0]> {[ "n" := VNum 1 ]}))).
Proof.
  destruct (preperValidation_state_factory new_state nothing 1 given 2 ∅ 3
              (FExt (code (Outside 0))) {[ "n" := VNum 1 ]} factory_module)
    as (r & c & h' & Hrun & _ & _ & _ & Hs & _ & Hr & Hc & _).
  1-5: reflexivity.
  - intros h2 Hg. simpl. rewrite Hg. simpl. unfold env.
    rewrite decode_code. reflexivity.
  - discriminate.
  - exists r, c, h'. split; [exact Hrun|]. split; [exact Hs|].
    split; [exact Hc|exact Hr].
Defined.

Lemma store_without_options_witness :
  ∃ s h' rest',
    store new_state nothing nothing nothing nothing None VUndef given
      plain_module = Returns (VRef s, h') ∧
    h' !! s = Some (CObj rest') ∧
    rest' !! "namespaced" = Some (VBool true) ∧
    rest' !! "state" = Some (VRef 3) ∧
    rest' !! "mutations" = Some (VRef 2).
Proof.
  destruct (store_without_options new_state nothing nothing nothing nothing
              VUndef given 2 ∅ 3 {[ "n" := VNum 1 ]} plain_module)
    as (s & f1 & f2 & a & init & h' & rest' & Hrun & _ & _ & _ & _ & Hs
        & Hn & Hst & Hms & _).
  1-6: reflexivity.
  1: discriminate.
  exists s, h', rest'. split; [exact Hrun|]. split; [exact Hs|].
  split; [exact Hn|]. split; [exact Hst|exact Hms].
Defined.

End BuilderFacts.
